(** * re2c code generation (src/codegen/pass2_generate.cc): a shallow embedding

    The second code-generation pass turns a finished DFA, an option bundle and
    the output blocks into a tree of code nodes.  The functions below follow
    the C++ source function by function.  Conventions:

    - [size_t] and [uint32_t] values are [N], [int32_t] and [tagver_t] are [Z];
      the cast of a tag distance to [int32_t] is written out in [to_int32],
      its negation in [neg_int32] and the [uint32_t] offsets of [gen_bitmap]
      in [wrap32]; indices into arrays
      and their sums are below the size of the address space and do not wrap;
    - a recursion that halves a range ([emit_accept_binary],
      [gen_cond_goto_binary]) is by structural recursion on a bound of its
      depth, which the function of the same name sets to the width of the
      range;
    - [State*] is an address ([StatePtr]) into the arena of states, read
      through [heap]; pointer equality is equality of addresses;
    - a [CodeList*] is a [list Code]; [append (list, list)] is [++], and a
      null list appends nothing;
    - text assembled in the scratch buffer is a [string], [flush] returns what
      was written since the last flush;
    - a failed [DCHECK] is the failure of the error monad [M]; so is a read
      through a null pointer or past the end of an array. *)

From Stdlib Require Import String Ascii List Bool ZArith NArith Lia.
From Stdlib Require Import DecimalString.
From Stdlib Require DecimalN DecimalZ.
Import ListNotations.
Local Open Scope string_scope.
Local Open Scope list_scope.

Set Implicit Arguments.

(** String concatenation, as the scratch buffer does it. *)
Infix "+:+" := String.append (at level 60, right associativity).

(** ** The error monad of assertions *)

Definition M (A : Type) : Type := option A.

Definition ret {A : Type} (a : A) : M A := Some a.

Definition bind {A B : Type} (m : M A) (k : A -> M B) : M B :=
  match m with
  | Some a => k a
  | None => None
  end.

Notation "x <- m ;; k" := (bind m (fun x => k))
  (at level 61, m at next level, right associativity).
Notation "m ;;; k" := (bind m (fun _ => k))
  (at level 61, right associativity).

Definition DCHECK (b : bool) : M unit := if b then Some tt else None.

(** ** Status returns ([Ret]): [CHECK_RET] is [bind_ret] *)

Inductive Ret (A : Type) : Type :=
| OK (a : A)
| FAIL (msg : string).

Arguments OK {A} a.
Arguments FAIL {A} msg.

Definition bind_ret {A B : Type} (r : Ret A) (k : A -> Ret B) : Ret B :=
  match r with
  | OK a => k a
  | FAIL msg => FAIL msg
  end.

Notation "x <-- r ;; k" := (bind_ret r (fun x => k))
  (at level 61, r at next level, right associativity).

Definition is_fail {A : Type} (r : Ret A) : bool :=
  match r with OK _ => false | FAIL _ => true end.

(** ** Scratch buffer output *)

Definition u64 (n : N) : string := NilEmpty.string_of_uint (N.to_uint n).
Definition u32 (n : N) : string := u64 n.
Definition i32 (z : Z) : string := NilEmpty.string_of_int (Z.to_int z).

(** ** Options (src/options/opt.h, the fields this pass reads) *)

Inductive Target := Target_CODE | Target_DOT | Target_SKELETON.
Inductive CodeModel := GOTO_LABEL | LOOP_SWITCH | REC_FUNC.
Inductive Api := Api_DEFAULT | Api_CUSTOM.
Inductive ApiStyle := FUNCTIONS | FREEFORM.

Definition Target_eqb (a b : Target) : bool :=
  match a, b with
  | Target_CODE, Target_CODE | Target_DOT, Target_DOT
  | Target_SKELETON, Target_SKELETON => true
  | _, _ => false
  end.

Definition CodeModel_eqb (a b : CodeModel) : bool :=
  match a, b with
  | GOTO_LABEL, GOTO_LABEL | LOOP_SWITCH, LOOP_SWITCH | REC_FUNC, REC_FUNC => true
  | _, _ => false
  end.

Definition Api_eqb (a b : Api) : bool :=
  match a, b with
  | Api_DEFAULT, Api_DEFAULT | Api_CUSTOM, Api_CUSTOM => true
  | _, _ => false
  end.

Definition ApiStyle_eqb (a b : ApiStyle) : bool :=
  match a, b with
  | FUNCTIONS, FUNCTIONS | FREEFORM, FREEFORM => true
  | _, _ => false
  end.

(** [NOEOF] is the value of [fill_eof] when there is no end-of-input rule
    (the largest [uint32_t]). *)
Definition NOEOF : N := 4294967295.

Record opt_t := {
  target : Target;
  code_model : CodeModel;
  api : Api;
  api_style : ApiStyle;
  api_sigil : string;
  api_cursor : string;
  api_marker : string;
  api_ctxmarker : string;
  api_limit : string;
  api_fill : string;
  api_less_than : string;
  api_shift : string;
  api_stag_shift : string;
  api_mtag_shift : string;
  api_stag_set_pos : string;
  api_stag_set_neg : string;
  api_mtag_set_pos : string;
  api_mtag_set_neg : string;
  api_backup_ctx : string;
  api_restore_ctx : string;
  api_restore_tag : string;
  api_state_set : string;
  api_cond_set : string;
  api_cond_type : string;
  api_maxfill : string;
  api_maxnmatch : string;
  state_set_param : string;
  state_set_naked : bool;
  cond_set_param : string;
  cond_set_naked : bool;
  cond_enum_prefix : string;
  cond_label_prefix : string;
  cond_goto : string;
  cond_goto_param : string;
  fill_enable : bool;
  fill_check : bool;
  fill_naked : bool;
  fill_param_enable : bool;
  fill_param : string;
  fill_eof : N;
  storable_state : bool;
  line_dirs : bool;
  indentation_sensitive : bool;
  label_fill : string;
  label_prefix : string;
  label_loop : string;
  var_state : string;
  var_fill : string;
  tags_expression : string;
  tags_prefix : string;
  (* syntax-file callbacks: [render_code_enum_elem type name] and
     [render_code_array_elem array index] *)
  render_code_enum_elem : string -> string -> string;
  render_code_array_elem : string -> N -> string
}.

(** ** The code tree (src/codegen/output.h, the node kinds this pass builds) *)

Record Label := { index : N; used : bool }.

Record loc_t := { loc_file : N; loc_line : N }.

Definition CodeArgs := list string.

Inductive VarType := VarType_INT | VarType_UINT | VarType_YYCTYPE.

(** The kinds of directive that this pass expands across blocks, and the
    format a directive carries: [format] and [separator] may be null,
    [block_names] is a linked list of names (null when empty). *)
Inductive CodeKind := COND_ENUM | MAXFILL | MAXNMATCH.

Record CodeFmt := {
  format : option string;
  separator : option string;
  block_names : list string
}.

Inductive Code :=
| code_fmt (k : CodeKind) (fmt : CodeFmt)
| code_empty
| code_raw (data : string)
| code_enum (type : string) (ids : list string) (nums : option (list N))
| code_const (type : VarType) (name value : string)
| code_stmt (text : string)
| code_text (text : string)
| code_assign (lhs rhs : string) (op : option string)
| code_assign_exprs (lhs : list string) (rhs : string)
| code_goto (label : string)
| code_slabel (label : string)
| code_nlabel (label : Label)
| code_peek
| code_skip
| code_backup
| code_accept (save : N)
| code_debug (state : N)
| code_if_then_else (cond : string) (if_then : list Code) (if_else : option (list Code))
| code_tailcall (name : string) (args : CodeArgs) (retval : bool)
| code_line_info_input (loc : loc_t)
| code_line_info_output.

Definition CodeList := list Code.

(** [append(list, tail)] with a possibly null [tail]. *)
Definition append_opt (l : CodeList) (tail : option CodeList) : CodeList :=
  match tail with
  | Some t => l ++ t
  | None => l
  end.

Record CodeFnCommon := {
  fn_name : string;
  fn_type : option string;
  fn_params : list string;
  fn_args : CodeArgs;
  fn_args_yych : CodeArgs
}.

(** ** DFA states (src/adfa/adfa.h) *)

Definition StatePtr := nat.
Definition tcid_t := N.
Definition tagver_t := Z.

(** Sentinels declared in src/regexp/tag.h and src/dfa/tcmd.h. *)
Definition TCID0 : tcid_t := 0%N.
Definition TAGVER_ZERO : tagver_t := 0%Z.
Definition TAGVER_BOTTOM : tagver_t := (- 2147483648)%Z.

Module Action.

Inductive Kind := MATCH | INITIAL | SAVE | MOVE | ACCEPT | RULE.

Definition Kind_eqb (a b : Kind) : bool :=
  match a, b with
  | MATCH, MATCH | INITIAL, INITIAL | SAVE, SAVE
  | MOVE, MOVE | ACCEPT, ACCEPT | RULE, RULE => true
  | _, _ => false
  end.

End Action.

Record AcceptTrans := { acc_state : StatePtr; acc_tags : tcid_t }.

(** The action of a state: its kind and the member of the [info] union that
    goes with the kind. *)
Record Action_t := {
  kind : Action.Kind;
  info_save : N;
  info_accepts : list AcceptTrans;
  info_rule : N
}.

Record Span := { ub : N; span_to : StatePtr; span_tags : tcid_t }.

(** [CodeGo]: [span] is the array of spans, [span_count] its length; the
    dispatch structure built from the spans is not read by the functions
    embedded here. *)
Record CodeGo := { span : list Span; go_tags : tcid_t }.

Definition span_count (g : CodeGo) : N := N.of_nat (length (span g)).

Record CodeJump := {
  jump_to : StatePtr;
  jump_tags : tcid_t;
  jump_skip : bool;
  jump_elide : bool;
  jump_eof : bool
}.

Record State := {
  label : Label;
  action : Action_t;
  go : CodeGo;
  fill : N;
  fill_label : option Label;
  fill_state : StatePtr
}.

(** Tag commands (src/dfa/tcmd.h): a node of the linked list, the [history]
    array as it lies in memory, [TAGVER_ZERO] terminated. *)
Record tcmd_t := { lhs : tagver_t; rhs : tagver_t; history : list tagver_t }.

(** ** Tags and rules (src/regexp/tag.h, src/regexp/rule.h)

    Modelled from the spec: the [Tag] record and its predicates [fictive],
    [capture], [trailing], [history], [fixed], which tag.h declares: a tag
    carries its kind (fictive, named or capture), a trailing flag, a history
    flag, a fixed flag, the distance [dist], the base tag index or
    [RIGHTMOST], the toplevel flag, the submatch range and a name. *)
Inductive TagKind := Tag_FICTIVE | Tag_NAMED | Tag_CAPTURE.

Record Tag := {
  tag_kind : TagKind;
  tag_name : string;
  tag_trailing : bool;
  tag_history : bool;
  tag_fixed : bool;
  lsub : N;
  hsub : N;
  base : N;
  dist : N;
  toplevel : bool
}.

Definition RIGHTMOST : N := 18446744073709551615.

Definition fictive (t : Tag) : bool :=
  match tag_kind t with Tag_FICTIVE => true | _ => false end.
Definition capture (t : Tag) : bool :=
  match tag_kind t with Tag_CAPTURE => true | _ => false end.
Definition trailing (t : Tag) : bool := tag_trailing t.
Definition history_tag (t : Tag) : bool := tag_history t.
Definition fixed (t : Tag) : bool := tag_fixed t.

Record SemAct := {
  semact_loc : loc_t;
  semact_cond : option string;
  autogen : bool;
  semact_text : string
}.

Record Rule := { semact : SemAct; ltag : N; htag : N; ncap : N }.

Record Adfa := {
  tcpool : tcid_t -> list tcmd_t;
  oldstyle_ctxmarker : bool;
  mtagvers : list tagver_t;
  tags : list Tag;
  finvers : list tagver_t;
  rules : list Rule;
  dfa_cond : string;
  setup : string
}.

(** ** Output blocks (src/codegen/output.h) *)

Record StartCond := { cond_name : string; cond_number : N }.

Definition StartConds := list StartCond.

Record OutputBlock := {
  block_name : string;
  opts : opt_t;
  conds : StartConds;
  max_fill : N;
  max_nmatch : N;
  fn_common : CodeFnCommon
}.

Definition blocks_t := list OutputBlock.

Record Output := {
  block : OutputBlock;
  cblocks : blocks_t;
  hblocks : blocks_t;
  total_opts : opt_t
}.

(** ** The pass *)

Section Pass2.

(** The arena of states. *)
Variable heap : StatePtr -> State.

(** Helpers of src/codegen/helpers.h and src/dfa/tcmd.h that this file calls.
    [argsubst buf stub arg allow_unnamed val] is the content of the stream
    after substituting [val] for the placeholder [arg] in [buf];
    [buf_label l] is the text [Scratchbuf::label] writes for a label. *)
Variable argsubst : string -> string -> string -> bool -> string -> string.
Variable buf_label : Label -> string.
Variables iscopy isadd isset : tcmd_t -> bool.

(** [fallback_state_with_eof_rule dfa opts from] returns the fallback state
    and, through its last argument, the tags of the fallback transition. *)
Variable fallback_state_with_eof_rule : Adfa -> opt_t -> State -> StatePtr * tcid_t.

(** The skeleton back end (src/skeleton/skeleton.h). *)
Variable emit_skeleton_action : Output -> CodeList -> Adfa -> N -> CodeList.

Definition endstate (s : State) : M bool :=
  DCHECK (0 <? span_count (go s))%N ;;;
  match span (go s) with
  | sp :: _ =>
      let a := kind (action (heap (span_to sp))) in
      ret ((span_count (go s) =? 1)%N
           && (Action.Kind_eqb a Action.RULE || Action.Kind_eqb a Action.ACCEPT))
  | [] => None
  end.

Definition gen_fill_label (output : Output) (idx : N) : string :=
  let opts := opts (block output) in
  label_fill opts +:+ u32 idx.

Definition omit_peek (s : State) : bool :=
  Action.Kind_eqb (kind (action s)) Action.MOVE
  || ((span_count (go s) =? 1)%N
      && match span (go s) with
         | sp :: _ => negb (Action.Kind_eqb (kind (action (heap (span_to sp)))) Action.MOVE)
         | [] => false
         end).

Definition gen_peek (s : State) (stmts : CodeList) : CodeList :=
  if negb (omit_peek s) then stmts ++ [code_peek] else stmts.

Definition need_yych_arg (s : State) : M bool :=
  if omit_peek s && (1 <? span_count (go s))%N
  then e <- endstate s ;; ret (negb e)
  else ret false.

Definition gen_state_set (output : Output) (stmts : CodeList) (fillidx : string) : CodeList :=
  let opts := opts (block output) in
  let o := argsubst (api_state_set opts) (state_set_param opts) "state" true fillidx in
  if state_set_naked opts
  then stmts ++ [code_text o]
  else stmts ++ [code_stmt (o +:+ "(" +:+ fillidx +:+ ")")].

Definition gen_cond_set (output : Output) (stmts : CodeList) (cond : string) : CodeList :=
  let opts := opts (block output) in
  let o := argsubst (api_cond_set opts) (cond_set_param opts) "cond" true cond in
  if cond_set_naked opts
  then stmts ++ [code_text o]
  else stmts ++ [code_stmt (o +:+ "(" +:+ cond +:+ ")")].

Definition gen_less_than (opts : opt_t) (n : N) : string :=
  if Api_eqb (api opts) Api_CUSTOM then
    if ApiStyle_eqb (api_style opts) FUNCTIONS
    then api_less_than opts +:+ "(" +:+ u64 n +:+ ")"
    else argsubst (api_less_than opts) (api_sigil opts) "len" true (u64 n)
  else if (n =? 1)%N then
    api_limit opts +:+ " <= " +:+ api_cursor opts
  else
    "(" +:+ api_limit opts +:+ " - " +:+ api_cursor opts +:+ ") < " +:+ u64 n.

Definition gen_shift (output : Output) (stmts : CodeList) (shift : Z) (tag : string)
    (history : bool) : CodeList :=
  if (shift =? 0)%Z then stmts else
  let opts := opts (block output) in
  let notag := String.eqb tag "" in
  let o := if notag then api_shift opts
           else if history then api_mtag_shift opts else api_stag_shift opts in
  if ApiStyle_eqb (api_style opts) FUNCTIONS then
    let o := o +:+ "(" in
    let o := if negb notag then o +:+ tag +:+ ", " else o in
    stmts ++ [code_stmt (o +:+ i32 shift +:+ ")")]
  else
    let o := if negb notag then argsubst o (api_sigil opts) "tag" false tag else o in
    stmts ++ [code_text (argsubst o (api_sigil opts) "shift" notag (i32 shift))].

Definition gen_settag (output : Output) (stmts : CodeList) (tag : string)
    (negative history : bool) : CodeList :=
  let opts := opts (block output) in
  let s := if history
           then (if negative then api_mtag_set_neg opts else api_mtag_set_pos opts)
           else (if negative then api_stag_set_neg opts else api_stag_set_pos opts) in
  if ApiStyle_eqb (api_style opts) FUNCTIONS
  then stmts ++ [code_stmt (s +:+ "(" +:+ tag +:+ ")")]
  else stmts ++ [code_text (argsubst s (api_sigil opts) "tag" true tag)].

Definition gen_assign (stmts : CodeList) (l r : string) : CodeList :=
  stmts ++ [code_assign l r None].

Definition gen_assign_many (stmts : CodeList) (many : list string) (r : string) : CodeList :=
  stmts ++ [code_assign_exprs many r].

Definition gen_assign_many_to_first (stmts : CodeList) (many : list string) : CodeList :=
  match many with
  | first :: ((_ :: _) as rest) => stmts ++ [code_assign_exprs rest first]
  | _ => stmts
  end.

Definition gen_restore_ctx (output : Output) (stmts : CodeList) (tag : string) : CodeList :=
  let opts := opts (block output) in
  let notag := String.eqb tag "" in
  let o := if notag then api_restore_ctx opts else api_restore_tag opts in
  if ApiStyle_eqb (api_style opts) FUNCTIONS
  then stmts ++ [code_stmt (o +:+ "(" +:+ tag +:+ ")")]
  else stmts ++ [code_text (if negb notag then argsubst o (api_sigil opts) "tag" true tag else o)].

Definition vartag_name (ver : tagver_t) (prefix : string) (is_mtag : bool) : string :=
  prefix +:+ (if is_mtag then "m" else "") +:+ i32 ver.

Definition vartag_expr (ver : tagver_t) (opts : opt_t) (is_mtag : bool) : string :=
  argsubst (tags_expression opts) (api_sigil opts) "tag" true
           (vartag_name ver (tags_prefix opts) is_mtag).

(** The elements of a history array before its [TAGVER_ZERO] terminator:
    the range that [for (h0 = h; *h != TAGVER_ZERO; ++h);] walks over. *)
Fixpoint history_elems (h : list tagver_t) : list tagver_t :=
  match h with
  | [] => []
  | x :: t => if (x =? TAGVER_ZERO)%Z then [] else x :: history_elems t
  end.

(** The two assignments that close a run of "save" commands. *)
Definition gen_settags_run_end (opts : opt_t) (tag_actions : CodeList)
    (neg pos : list string) : CodeList :=
  let tag_actions :=
    match neg with
    | [] => tag_actions
    | _ :: _ => tag_actions ++ [code_assign_exprs neg "NULL"]
    end in
  match pos with
  | [] => tag_actions
  | _ :: _ => tag_actions ++ [code_assign_exprs pos (api_cursor opts)]
  end.

(** The body of the run loop of [gen_settags]: the left-hand side of a "save"
    command joins the negative or the positive expressions. *)
Definition gen_settags_run_add (opts : opt_t) (is_mtag : bool) (q : tcmd_t)
    (np : list string * list string) : list string * list string :=
  let e := vartag_expr (lhs q) opts is_mtag in
  if (nth 0 (history q) TAGVER_ZERO =? TAGVER_BOTTOM)%Z
  then (fst np ++ [e], snd np) else (fst np, snd np ++ [e]).

(** The run loop [for (q = p; q && isset(q); p = q, q = q->next)], entered
    after its first iteration; [finish] is what follows the loop, with the
    expressions collected and the commands that are left. *)
Fixpoint gen_settags_run {A : Type} (opts : opt_t) (is_mtag : bool)
    (finish : list string * list string -> list tcmd_t -> A)
    (np : list string * list string) (q : list tcmd_t) {struct q} : A :=
  match q with
  | [] => finish np q
  | c :: q' =>
      if isset c then gen_settags_run opts is_mtag finish (gen_settags_run_add opts is_mtag c np) q'
      else finish np q
  end.

(** The loop [for (p = cmd; p; p = p->next)] of [gen_settags]. *)
Fixpoint gen_settags_cmds (output : Output) (tag_actions : CodeList) (dfa : Adfa)
    (cmd : list tcmd_t) {struct cmd} : CodeList :=
  let opts := opts (block output) in
  let generic := Api_eqb (api opts) Api_CUSTOM in
  match cmd with
  | [] => tag_actions
  | p :: next =>
      let l := lhs p in
      let r := rhs p in
      let h := history p in
      let is_mtag := existsb (Z.eqb l) (mtagvers dfa) in
      let le := vartag_expr l opts is_mtag in
      let re := vartag_expr r opts is_mtag in
      if iscopy p then
        (* "copy" command *)
        gen_settags_cmds output (gen_assign tag_actions le re) dfa next
      else if isadd p then
        (* "save" command with history *)
        let tag_actions :=
          if negb (l =? r)%Z then gen_assign tag_actions le re else tag_actions in
        (* history is reversed, so find its end and iterate back *)
        let tag_actions :=
          fold_left
            (fun acc x => gen_settag output acc le (x =? TAGVER_BOTTOM)%Z true)
            (rev (history_elems h)) tag_actions in
        gen_settags_cmds output tag_actions dfa next
      else if generic then
        (* "save" command *)
        let negative := (nth 0 h TAGVER_ZERO =? TAGVER_BOTTOM)%Z in
        gen_settags_cmds output (gen_settag output tag_actions le negative false) dfa next
      else
        (* a run of "save" commands; when [p] itself is not one, the run is empty and
           the outer loop goes on with the command after [p] *)
        let finish (np : list string * list string) (q : list tcmd_t) :=
          gen_settags_cmds output
            (gen_settags_run_end opts tag_actions (fst np) (snd np)) dfa q in
        if isset p
        then gen_settags_run opts is_mtag finish
               (gen_settags_run_add opts is_mtag p ([], [])) next
        else finish ([], []) next
  end.

Definition gen_settags (output : Output) (tag_actions : CodeList) (dfa : Adfa)
    (tcid : tcid_t) : CodeList :=
  let opts := opts (block output) in
  let generic := Api_eqb (api opts) Api_CUSTOM in
  let cmd := tcpool dfa tcid in
  (* single tag, backwards compatibility, use context marker *)
  if match cmd with [] => false | _ :: _ => true end && oldstyle_ctxmarker dfa then
    if generic then
      if ApiStyle_eqb (api_style opts) FUNCTIONS
      then tag_actions ++ [code_stmt (api_backup_ctx opts +:+ "()")]
      else tag_actions ++ [code_text (api_backup_ctx opts)]
    else gen_assign tag_actions (api_ctxmarker opts) (api_cursor opts)
  else gen_settags_cmds output tag_actions dfa cmd.

(** [static_cast<int32_t>] of an unsigned value. *)
Definition to_int32 (n : N) : Z :=
  let z := (Z.of_N n mod 4294967296)%Z in
  if (z <? 2147483648)%Z then z else (z - 4294967296)%Z.

(** [-dist] on an [int32_t]: the result is kept in 32 bits, so that the least
    value is its own negation. *)
Definition neg_int32 (d : Z) : Z :=
  let z := ((- d) mod 4294967296)%Z in
  if (z <? 2147483648)%Z then z else (z - 4294967296)%Z.

Definition of_nth {A : Type} (l : list A) (i : N) : M A := nth_error l (N.to_nat i).

Definition fintag_expr (name : string) (opts : opt_t) : string :=
  if CodeModel_eqb (code_model opts) REC_FUNC
  then argsubst (tags_expression opts) (api_sigil opts) "tag" true name
  else name.

Definition expand_fintags (output : Output) (tag : Tag) : list string :=
  let opts := opts (block output) in
  if trailing tag then
    (* empty list *)
    []
  else if negb (capture tag) then
    (* named tag *)
    [fintag_expr (tag_name tag) opts]
  else
    (* capture tag, maps to a range of parentheses *)
    let yypmatch := fintag_expr "yypmatch" opts in
    let count := if (lsub tag <=? hsub tag)%N
                 then S (N.to_nat ((hsub tag - lsub tag) / 2)) else O in
    map (fun k => render_code_array_elem opts yypmatch (lsub tag + 2 * N.of_nat k)%N)
        (seq 0 count).

(** The four lists that [gen_fintags] fills while it walks over the tags. *)
Record fintags_acc := {
  varops : CodeList;
  fixops : CodeList;
  trailops : CodeList;
  fixpostops : CodeList;
  negtag : string
}.

Definition is_empty (s : string) : bool := String.eqb s "".

(** The body of the loop over the tags of a rule in [gen_fintags]. *)
Definition gen_fintags_tag (output : Output) (dfa : Adfa) (acc : fintags_acc) (t : N)
    : M fintags_acc :=
  let opts := opts (block output) in
  let generic := Api_eqb (api opts) Api_CUSTOM in
  let fins := finvers dfa in
  tag <- of_nth (tags dfa) t ;;
  (* structural tag that is only needed for disambiguation *)
  if fictive tag then ret acc else
  let fintags := expand_fintags output tag in
  if negb (fixed tag) then
    (* variable tag *)
    fin <- of_nth fins t ;;
    let expr := vartag_expr fin opts (history_tag tag) in
    if trailing tag then
      let notag := oldstyle_ctxmarker dfa in
      if generic then
        ret {| varops := varops acc; fixops := fixops acc;
               trailops := gen_restore_ctx output (trailops acc) (if notag then "" else expr);
               fixpostops := fixpostops acc; negtag := negtag acc |}
      else
        ret {| varops := varops acc; fixops := fixops acc;
               trailops := gen_assign (trailops acc) (api_cursor opts)
                             (if notag then api_ctxmarker opts else expr);
               fixpostops := fixpostops acc; negtag := negtag acc |}
    else
      ret {| varops := gen_assign_many (varops acc) fintags expr; fixops := fixops acc;
             trailops := trailops acc; fixpostops := fixpostops acc; negtag := negtag acc |}
  else
    DCHECK (negb (history_tag tag)) ;;;
    (* fixed tag that is based on either variable tag or cursor *)
    let dist := to_int32 (dist tag) in
    let fixed_on_cursor := (base tag =? RIGHTMOST)%N in
    base <- (if fixed_on_cursor then ret (api_cursor opts)
             else fin <- of_nth fins (base tag) ;;
                  ret (vartag_expr fin opts (history_tag tag))) ;;
    if trailing tag then
      DCHECK (toplevel tag) ;;;
      if generic then
        let tr := if negb fixed_on_cursor
                  then gen_restore_ctx output (trailops acc) base else trailops acc in
        ret {| varops := varops acc; fixops := fixops acc;
               trailops := gen_shift output tr (neg_int32 dist) "" false;
               fixpostops := fixpostops acc; negtag := negtag acc |}
      else
        let rhs_op :=
          if negb fixed_on_cursor
          then (if (0 <? dist)%Z then base +:+ " - " +:+ i32 dist else base, None)
          else (i32 dist, Some "-") in
        ret {| varops := varops acc; fixops := fixops acc;
               trailops := trailops acc ++ [code_assign (api_cursor opts) (fst rhs_op) (snd rhs_op)];
               fixpostops := fixpostops acc; negtag := negtag acc |}
    else
      DCHECK (match fintags with [] => false | _ :: _ => true end) ;;;
      let first := hd "" fintags in
      if generic then
        if fixed_on_cursor then
          let fx := gen_settag output (fixops acc) first false false in
          let fx := gen_shift output fx (neg_int32 dist) first false in
          ret {| varops := varops acc; fixops := gen_assign_many_to_first fx fintags;
                 trailops := trailops acc; fixpostops := fixpostops acc; negtag := negtag acc |}
        else if (dist =? 0)%Z then
          ret {| varops := varops acc; fixops := gen_assign_many (fixops acc) fintags base;
                 trailops := trailops acc; fixpostops := fixpostops acc; negtag := negtag acc |}
        else if toplevel tag then
          let fx := gen_assign (fixops acc) first base in
          let fx := gen_shift output fx (neg_int32 dist) first false in
          ret {| varops := varops acc; fixops := gen_assign_many_to_first fx fintags;
                 trailops := trailops acc; fixpostops := fixpostops acc; negtag := negtag acc |}
        else
          (* Split operations in two parts: set all fixed tags to their base tag, then
             compare them against the tag that stores the negative value before shifting. *)
          let negtag' := if is_empty (negtag acc) then base else negtag acc in
          let cond := first +:+ " != " +:+ negtag' in
          let if_then := gen_shift output [] (neg_int32 dist) first false in
          ret {| varops := varops acc; fixops := gen_assign (fixops acc) first base;
                 trailops := trailops acc;
                 fixpostops := fixpostops acc ++ [code_if_then_else cond if_then None];
                 negtag := negtag' |}
      else
        if (dist =? 0)%Z then
          ret {| varops := varops acc; fixops := gen_assign_many (fixops acc) fintags base;
                 trailops := trailops acc; fixpostops := fixpostops acc; negtag := negtag acc |}
        else if toplevel tag then
          ret {| varops := varops acc;
                 fixops := gen_assign_many (fixops acc) fintags (base +:+ " - " +:+ i32 dist);
                 trailops := trailops acc; fixpostops := fixpostops acc; negtag := negtag acc |}
        else
          (* If base tag is NULL, fixed tag is also NULL, otherwise it equals the value
             of the base tag plus offset. *)
          let fx := gen_assign (fixops acc) first base in
          let cond := base +:+ " != NULL" in
          let if_then := [code_stmt (first +:+ " -= " +:+ i32 dist)] in
          let fx := fx ++ [code_if_then_else cond if_then None] in
          ret {| varops := varops acc; fixops := gen_assign_many_to_first fx fintags;
                 trailops := trailops acc; fixpostops := fixpostops acc; negtag := negtag acc |}.

(** [for (t = lo; t < lo + n; ++t)] over a loop body in [M]. *)
Fixpoint for_range {A : Type} (body : A -> N -> M A) (acc : A) (lo : N) (n : nat) : M A :=
  match n with
  | O => ret acc
  | S n' => acc' <- body acc lo ;; for_range body acc' (lo + 1)%N n'
  end.

Definition gen_fintags (output : Output) (stmts : CodeList) (dfa : Adfa) (rule : Rule)
    : M CodeList :=
  let opts := opts (block output) in
  let stmts :=
    if (0 <? ncap rule)%N
    then stmts ++ [code_assign (fintag_expr "yynmatch" opts) (u64 (ncap rule)) None]
    else stmts in
  acc <- for_range (gen_fintags_tag output dfa)
           {| varops := []; fixops := []; trailops := []; fixpostops := []; negtag := "" |}
           (ltag rule) (N.to_nat (htag rule - ltag rule)) ;;
  (* Variable tags must be set before fixed tags which depend on them. Trailing context
     is updated after all tags, because fixed tags may depend on the rightmost position. *)
  let stmts := stmts ++ varops acc ++ fixops acc ++ trailops acc in
  if negb (is_empty (negtag acc)) then
    (* With generic API there is no explicit negative NULL value, so it is necessary to
       materialize no-match value in a tag. *)
    DCHECK (Api_eqb (api opts) Api_CUSTOM) ;;;
    let stmts := stmts ++ [code_text "/* materialize no-match value */"] in
    let stmts := gen_settag output stmts (negtag acc) true false in
    ret (stmts ++ fixpostops acc)
  else ret stmts.

Definition gen_continue_yyloop (output : Output) (stmts : CodeList) (next : string)
    : CodeList :=
  let opts := opts (block output) in
  let stmts := stmts ++ [code_assign (var_state opts) next None] in
  let buf := "continue" in
  let buf := if negb (is_empty (label_loop opts)) then buf +:+ " " +:+ label_loop opts else buf in
  stmts ++ [code_stmt buf].

(** The transfer of control to the fallback state: the [switch] over the code
    model that ends [gen_fill_falllback]. *)
Definition gen_goto_fallback (output : Output) (fallback_trans : CodeList)
    (fallback : StatePtr) : CodeList :=
  let opts := opts (block output) in
  match code_model opts with
  | GOTO_LABEL =>
      fallback_trans ++ [code_goto (label_prefix opts +:+ buf_label (label (heap fallback)))]
  | LOOP_SWITCH =>
      gen_continue_yyloop output fallback_trans (buf_label (label (heap fallback)))
  | REC_FUNC =>
      let fn := fn_common (block output) in
      fallback_trans ++
        [code_tailcall (label_prefix opts +:+ u32 (index (label (heap fallback))))
           (fn_args fn) (match fn_type fn with Some _ => true | None => false end)]
  end.

Definition jump_coincides (jump : option CodeJump) (fallback : StatePtr)
    (falltags : tcid_t) : bool :=
  match jump with
  | Some j =>
      Nat.eqb fallback (jump_to j) && (falltags =? jump_tags j)%N && negb (jump_skip j)
  | None => false
  end.

Definition gen_fill_falllback (output : Output) (dfa : Adfa) (from : State)
    (jump : option CodeJump) : M CodeList :=
  let opts := opts (block output) in
  DCHECK (negb (fill_eof opts =? NOEOF)%N) ;;;
  let (fallback, falltags) := fallback_state_with_eof_rule dfa opts from in
  falltags <-
    (if negb (go_tags (go from) =? TCID0)%N then
       (* Tags have been hoisted out of transitions into state (this means that tags on
          all transitions coincide, including the fallback transition). Do not add
          duplicate tags to fallback transition. *)
       DCHECK (go_tags (go from) =? falltags)%N ;;;
       ret TCID0
     else ret falltags) ;;
  let fallback_trans : CodeList := [] in
  if jump_coincides jump fallback falltags
     (* Fallback transition is part of an IF/THEN/ELSE statement. In rec/func mode both
        branches must end in a tailcall, therefore elision is forbidden (unless YYFILL
        is disabled, then the whole IF/THEN/ELSE can be replaced with a tailcall to
        to-state). *)
     && negb (CodeModel_eqb (code_model opts) REC_FUNC && fill_enable opts)
  then
    (* Transition can be elided, because control flow falls through to another
       transition with the same destination state, tags and no YYSKIP. *)
    ret fallback_trans
  else
    (* tag actions on the fallback transition *)
    let fallback_trans := gen_settags output fallback_trans dfa falltags in
    (* go to fallback state *)
    ret (gen_goto_fallback output fallback_trans fallback).

Definition gen_if (opts : opt_t) (cond : string) (trans1 : CodeList)
    (trans2 : option CodeList) (code : CodeList) : CodeList :=
  if CodeModel_eqb (code_model opts) REC_FUNC then
    (* In rec/func mode, generate a single IF/ELSE statement. *)
    code ++ [code_if_then_else cond trans1 trans2]
  else
    (* In goto/label and loop/switch modes, generate IF followed by the second
       transition (note that it may be elided, so we don't want an ELSE branch). *)
    append_opt (code ++ [code_if_then_else cond trans1 None]) trans2.

Definition gen_goto_after_fill (output : Output) (dfa : Adfa) (from : State)
    (jump : option CodeJump) : M CodeList :=
  let opts := opts (block output) in
  let eof_rule := negb (fill_eof opts =? NOEOF)%N in
  DCHECK (fill_enable opts) ;;;
  (* Transition to YYFILL label from the initial state dispatch or after YYFILL on
     transition. *)
  let s := heap (fill_state from) in
  resume <-
    match code_model opts with
    | GOTO_LABEL =>
        if storable_state opts || eof_rule then
          fl <- fill_label s ;;
          ret [code_goto (gen_fill_label output (index fl))]
        else ret []
    | LOOP_SWITCH => ret (gen_continue_yyloop output [] (u32 (index (label s))))
    | REC_FUNC =>
        let fn := fn_common (block output) in
        ret [code_tailcall (label_prefix opts +:+ u32 (index (label s)))
               (fn_args fn) (match fn_type fn with Some _ => true | None => false end)]
    end ;;
  if storable_state opts && eof_rule then
    (* With storable state and end-of-input rule $ the initial state dispatch needs to
       handle YYFILL failure: if there is still not enough input, it must follow the
       fallback transition for the state that triggered YYFILL. *)
    fallback <- gen_fill_falllback output dfa from jump ;;
    let less_than := gen_less_than opts 1 in
    ret (gen_if opts less_than fallback (Some resume) [])
  else ret resume.

(** The number of characters that [gen_fill] asks for. *)
Definition fill_need (opts : opt_t) (from : State) : N :=
  let eof_rule := negb (fill_eof opts =? NOEOF)%N in
  if eof_rule then 1%N else fill from.

(** The text of the YYFILL invocation that [gen_fill] assembles in the scratch
    buffer. *)
Definition fill_call (opts : opt_t) (need : N) : string :=
  let eof_rule := negb (fill_eof opts =? NOEOF)%N in
  (* With end-of-input rule $ there is no YYFILL argument and no parameter to replace. *)
  let o := api_fill opts in
  let o := if negb eof_rule then argsubst o (fill_param opts) "len" true (u64 need) else o in
  if fill_param_enable opts
  then o +:+ "(" +:+ (if negb eof_rule then u64 need else "") +:+ ")"
  else o.

Definition gen_fill (output : Output) (stmts : CodeList) (tail : option CodeList)
    (dfa : Adfa) (from : State) (jump : option CodeJump) : M CodeList :=
  let opts := opts (block output) in
  let eof_rule := negb (fill_eof opts =? NOEOF)%N in
  let need := fill_need opts from in
  fill <-
    (if fill_enable opts then
       fill <-
         (if storable_state opts then
            fl <- fill_label (heap (fill_state from)) ;;
            ret (gen_state_set output [] (u32 (index fl)))
          else ret []) ;;
       let o := fill_call opts need in
       if eof_rule && negb (storable_state opts) then
         (* End-of-input rule $ without a storable state: check YYFILL return value. If
            it succeeds (returns zero) then go to YYFILL label and rematch. *)
         let call := o +:+ (if fill_naked opts then "" else " == 0") in
         let fill_call :=
           if negb (is_empty (var_fill opts))
           then (fill ++ [if fill_naked opts then code_text call else code_stmt call],
                 var_fill opts) (* replace call with its result *)
           else (fill, call) in
         rematch <- gen_goto_after_fill output dfa from jump ;;
         fallback <- gen_fill_falllback output dfa from jump ;;
         ret (gen_if opts (snd fill_call) rematch (Some fallback) (fst fill_call))
       else
         (* Otherwise don't check YYFILL return value: assume that it does not return on
            failure. *)
         ret (fill ++ [if fill_naked opts then code_text o else code_stmt o])
     else if eof_rule && negb (storable_state opts) then
       fallback <- gen_fill_falllback output dfa from jump ;;
       ret fallback
     else ret []) ;;
  if fill_check opts && match fill with [] => false | _ :: _ => true end then
    let less_than := gen_less_than opts need in
    ret (gen_if opts less_than fill tail stmts)
  else
    ret (append_opt (stmts ++ fill) tail).

Definition gen_fill_and_label (output : Output) (stmts : CodeList) (dfa : Adfa)
    (s : State) : M CodeList :=
  let opts := opts (block output) in
  c <- (if fill_enable opts then
          e <- endstate s ;;
          ret (negb e && (fill_eof opts =? NOEOF)%N && (0 <? fill s)%N)
        else ret false) ;;
  stmts <- (if c then gen_fill output stmts None dfa s None else ret stmts) ;;
  let stmts :=
    if negb (fill_eof opts =? NOEOF)%N then
      (* If the end-of-input rule $ is used, the lexer may jump to the YYFILL label to
         rescan the current input character. Generate tag operations before the label to
         avoid applying them multiple times in the above scenario. *)
      gen_settags output stmts dfa (go_tags (go s))
    else stmts in
  match fill_label s with
  | Some fl =>
      if CodeModel_eqb (code_model opts) GOTO_LABEL
      then ret (stmts ++ [code_slabel (gen_fill_label output (index fl))])
      else ret stmts
  | None => ret stmts
  end.

Definition fn_name_for_cond (cond : string) : string := "yyfn" +:+ cond.

Definition gen_cond_enum_elem (opts : opt_t) (name : string) : string :=
  let cond := cond_enum_prefix opts +:+ name in
  render_code_enum_elem opts (api_cond_type opts) cond.

(** The lines of a semantic action, as the loop of [emit_rule] cuts them for
    indentation-sensitive languages; [cur] is the line being read. *)
Fixpoint semact_lines (cur : option string) (text : string) : M (list string) :=
  match text with
  | EmptyString =>
      (* a line that the text ends without a newline is appended, and then the
         loop steps over the terminator and reads past the text *)
      match cur with Some _ => None | None => ret [] end
  | String c text' =>
      let l := match cur with Some l => l | None => "" end in
      if Ascii.eqb c "010"%char then ls <- semact_lines None text' ;; ret (l :: ls)
      else semact_lines (Some (l +:+ String c EmptyString)) text'
  end.

(** The next state that [emit_rule] stores with YYSETSTATE. *)
Definition next_state_of (opts : opt_t) (dfa : Adfa) (next_cond : string) : string :=
  if is_empty (dfa_cond dfa) || negb (CodeModel_eqb (code_model opts) LOOP_SWITCH)
  then "-1" else next_cond.

Definition emit_rule (output : Output) (stmts : CodeList) (dfa : Adfa) (rule_idx : N)
    : M CodeList :=
  let opts := opts (block output) in
  rule <- of_nth (rules dfa) rule_idx ;;
  let semact := semact rule in
  stmts <- gen_fintags output stmts dfa rule ;;
  if Target_eqb (target opts) Target_SKELETON then
    ret (emit_skeleton_action output stmts dfa rule_idx)
  else
  (* Condition in the semantic action is the one set with => or :=> rule. *)
  let cond := match semact_cond semact with None => dfa_cond dfa | Some c => c end in
  (* Next condition is either the one specified in semantic action, or the current one. *)
  let next_cond := gen_cond_enum_elem opts cond in
  let stmts :=
    if storable_state opts then
      (* Next state is normally -1 (the initial storable state corresponding to no YYFILL
         invocation), but in the loop/switch and rec/func mode conditions and storable
         states are both implemented via `yystate`, so the next state is the next
         condition. *)
      let next_state := next_state_of opts dfa next_cond in
      gen_state_set output stmts next_state
    else stmts in
  let stmts :=
    if negb (String.eqb cond (dfa_cond dfa))
       && negb (CodeModel_eqb (code_model opts) LOOP_SWITCH && storable_state opts)
    then gen_cond_set output stmts next_cond
    else stmts in
  if negb (autogen semact) then
    (* User-defined semantic action. *)
    let stmts := if negb (is_empty (setup dfa)) then stmts ++ [code_text (setup dfa)] else stmts in
    let stmts := if line_dirs opts then stmts ++ [code_line_info_input (semact_loc semact)]
                 else stmts in
    stmts <- (if indentation_sensitive opts
              then ls <- semact_lines None (semact_text semact) ;;
                   ret (stmts ++ map code_text ls)
              else ret (stmts ++ [code_text (semact_text semact)])) ;;
    ret (if line_dirs opts then stmts ++ [code_line_info_output] else stmts)
  else
    (* Autogenerated action for the :=> rule. *)
    match code_model opts with
    | GOTO_LABEL =>
        ret (stmts ++ [code_text (argsubst (cond_goto opts) (cond_goto_param opts) "cond" true
                                    (cond_label_prefix opts +:+ cond))])
    | LOOP_SWITCH => ret (gen_continue_yyloop output stmts next_cond)
    | REC_FUNC =>
        let fn := fn_common (block output) in
        ret (stmts ++ [code_tailcall (fn_name_for_cond cond) (fn_args fn)
                         (match fn_type fn with Some _ => true | None => false end)])
    end.

(** ** Directives that aggregate across blocks *)

Definition find_block_with_name (output : Output) (name : string) : option OutputBlock :=
  match find (fun b => String.eqb (block_name b) name) (cblocks output) with
  | Some b => Some b
  | None => find (fun b => String.eqb (block_name b) name) (hblocks output)
  end.

(** The loop of [find_blocks] over the list of names; [blocks] is the vector
    that it fills. *)
Fixpoint find_blocks_loop (output : Output) (names : list string) (blocks : blocks_t)
    (directive : string) : Ret blocks_t :=
  match names with
  | [] => OK blocks
  | name :: names' =>
      match find_block_with_name output name with
      | Some b => find_blocks_loop output names' (blocks ++ [b]) directive
      | None =>
          FAIL ("cannot find block '" +:+ name +:+ "' listed in `" +:+ directive
                +:+ "` directive")
      end
  end.

(** [find_blocks] clears the vector that it is given, then fills it. *)
Definition find_blocks (output : Output) (names : list string) (blocks : blocks_t)
    (directive : string) : Ret blocks_t :=
  find_blocks_loop output names [] directive.

Definition add_condition_from_block (blk : OutputBlock) (conds : StartConds)
    (cond : StartCond) : Ret StartConds :=
  (* Condition prefix is specific to the block that defines it. If a few blocks define
     conditions with the same name, but a different prefix, they should have different
     enum entries. *)
  let cond := {| cond_name := cond_enum_prefix (opts blk) +:+ cond_name cond;
                 cond_number := cond_number cond |} in
  match find (fun c => String.eqb (cond_name c) (cond_name cond)) conds with
  | Some c =>
      if (cond_number c =? cond_number cond)%N then
        (* A duplicate condition, it's not an error but don't add it. *)
        OK conds
      else
        (* An error: conditions with identical names but different numbers. *)
        FAIL ("cannot generate condition enumeration: conditon '" +:+ cond_name cond
              +:+ "' has different numbers in different blocks (use "
              +:+ "`re2c:condenumprefix` configuration to set per-block prefix)")
  | None => OK (conds ++ [cond])
  end.

(** The inner loop of [add_conditions_from_blocks], over the conditions of one
    block. *)
Fixpoint add_conditions_of_block (blk : OutputBlock) (cs : StartConds)
    (conds : StartConds) : Ret StartConds :=
  match cs with
  | [] => OK conds
  | cond :: cs' =>
      conds' <-- add_condition_from_block blk conds cond ;;
      add_conditions_of_block blk cs' conds'
  end.

Fixpoint add_conditions_from_blocks (blocks : blocks_t) (acc : StartConds)
    : Ret StartConds :=
  match blocks with
  | [] => OK acc
  | blk :: blocks' =>
      acc' <-- add_conditions_of_block blk (conds blk) acc ;;
      add_conditions_from_blocks blocks' acc'
  end.

(** The formatted text of [gen_cond_enum]; [cond_number] counts the conditions
    written so far. *)
Fixpoint gen_cond_enum_text (opts : opt_t) (fmt : string) (sep : option string)
    (first : bool) (cond_number' : N) (conds : StartConds) : string :=
  match conds with
  | [] => ""
  | cond :: conds' =>
      let s1 := match sep with
                | Some s => if negb first then s else ""
                | None => ""
                end in
      (* The main substitution (the one allowing unnamed sigil) must go last, or else it
         will erroneously substitute all the named ones. *)
      let cid := if CodeModel_eqb (code_model opts) GOTO_LABEL
                 then cond_number' else cond_number cond in
      let s := argsubst fmt (api_sigil opts) "num" false (u64 cid) in
      let s := argsubst s (api_sigil opts) "cond" true (cond_name cond) in
      s1 +:+ s +:+ gen_cond_enum_text opts fmt sep false (cond_number' + 1)%N conds'
  end.

Definition gen_cond_enum (code : Code) (fmt : CodeFmt) (opts : opt_t) (conds : StartConds)
    : M Code :=
  DCHECK (Target_eqb (target opts) Target_CODE) ;;;
  match conds with
  | [] => ret code
  | _ :: _ =>
      match format fmt with
      | Some f =>
          ret (code_raw (gen_cond_enum_text opts f (separator fmt) true 0%N conds
                         +:+ String "010"%char EmptyString))
      | None =>
          (* prepare an array of enum member names *)
          let ids := map cond_name conds in
          (* prepare an array of enum member numbers (only needed in loop/switch or
             rec/func mode) *)
          let nums := if negb (CodeModel_eqb (code_model opts) GOTO_LABEL)
                      then Some (map cond_number conds) else None in
          (* construct enum code item in place of the old code item *)
          ret (code_enum (api_cond_type opts) ids nums)
      end
  end.

Definition expand_cond_enum (output : Output) (fmt : CodeFmt) : Ret (M Code) :=
  (* Use global options accumulated across the whole file, as `types:re2c` may include
     conditions from a few different blocks, and it is not clear which block's options
     it should inherit. *)
  let globopts := total_opts output in
  if negb (Target_eqb (target globopts) Target_CODE) then OK (ret code_empty) else
  conds <--
    (match block_names fmt with
     | [] =>
         (* Gather conditions from all blocks in the output and header files. *)
         conds <-- add_conditions_from_blocks (cblocks output) [] ;;
         add_conditions_from_blocks (hblocks output) conds
     | _ :: _ =>
         (* Gather conditions from the blocks on the list. *)
         tmpblocks <-- find_blocks output (block_names fmt) [] "types:re2c" ;;
         add_conditions_from_blocks tmpblocks []
     end) ;;
  (* Do not generate empty condition enum. Some compilers or language standards allow
     it, but generally it's more likely to indicate an error in user code. *)
  match conds with
  | [] => OK (ret code_empty)
  | _ :: _ => OK (gen_cond_enum (code_fmt COND_ENUM fmt) fmt globopts conds)
  end.

Definition max_among_blocks (blocks : blocks_t) (max : N) (kind : CodeKind) : N :=
  fold_left
    (fun max b => N.max max (match kind with MAXFILL => max_fill b | _ => max_nmatch b end))
    blocks max.

Definition gen_yymax (output : Output) (kind : CodeKind) (fmt : CodeFmt) : Ret Code :=
  let opts := opts (block output) in
  if negb (Target_eqb (target opts) Target_CODE) then OK code_empty else
  let dirname := match kind with MAXFILL => "max:re2c" | _ => "maxnmatch:re2c" end in
  let varname := match kind with MAXFILL => api_maxfill opts | _ => api_maxnmatch opts end in
  let max := 1%N in
  max <--
    (match block_names fmt with
     | [] =>
         (* Gather max value from all blocks in the output and header files. *)
         let max := max_among_blocks (cblocks output) max kind in
         OK (max_among_blocks (hblocks output) max kind)
     | _ :: _ =>
         (* Maximum among the blocks listed in the directive. *)
         tmpblocks <-- find_blocks output (block_names fmt) [] dirname ;;
         OK (max_among_blocks tmpblocks max kind)
     end) ;;
  match format fmt with
  | Some f => OK (code_text (argsubst f (api_sigil opts) "max" true (u64 max)))
  | None => OK (code_const VarType_UINT varname (u64 max))
  end.

End Pass2.

(** ** Transitions and dispatch on a number *)

Section Transitions.

Variable heap : StatePtr -> State.
Variable argsubst : string -> string -> string -> bool -> string -> string.
Variable buf_label : Label -> string.
Variables iscopy isadd isset : tcmd_t -> bool.
Variable fallback_state_with_eof_rule : Adfa -> opt_t -> State -> StatePtr * tcid_t.

(** Fields of [opt_t] that only the functions of this part read; they are
    taken as projections of the option bundle. *)
Variable var_accept : opt_t -> string.
Variable api_cond_get : opt_t -> string.
Variable cond_get_naked : opt_t -> bool.

(** [from] is null when the jump comes from the dispatch on [yyaccept]. *)
Definition gen_goto (output : Output) (dfa : Adfa) (stmts : CodeList) (from : option State)
    (jump : CodeJump) : M CodeList :=
  let opts := opts (block output) in
  let transition : CodeList := [] in
  let transition := gen_settags argsubst iscopy isadd isset output transition dfa (jump_tags jump) in
  let transition := if jump_skip jump then transition ++ [code_skip] else transition in
  let to := heap (jump_to jump) in
  transition <-
    (if negb (jump_elide jump) && used (label to) then
       match code_model opts with
       | GOTO_LABEL =>
           ret (transition ++ [code_goto (label_prefix opts +:+ buf_label (label to))])
       | LOOP_SWITCH =>
           ret (gen_continue_yyloop output transition (buf_label (label to)))
       | REC_FUNC =>
           let fn := fn_common (block output) in
           yych <- need_yych_arg heap to ;;
           let args := if yych then fn_args_yych fn else fn_args fn in
           ret (transition ++
                  [code_tailcall (label_prefix opts +:+ u32 (index (label to))) args
                     (match fn_type fn with Some _ => true | None => false end)])
       end
     else
       (* Goto can be elided, because control flow "falls through" to the correct DFA
          state. *)
       ret transition) ;;
  if jump_eof jump then
    from <- from ;;
    gen_fill heap argsubst buf_label iscopy isadd isset fallback_state_with_eof_rule
      output stmts (Some transition) dfa from (Some jump)
  else
    ret (stmts ++ transition).

(** [emit_accept_binary]: the recursion halves the range [l..r]; [fuel]
    bounds its depth and is [r - l] at the call. *)
Fixpoint emit_accept_binary_rec (fuel : nat) (output : Output) (dfa : Adfa)
    (acc : list AcceptTrans) (l r : N) {struct fuel} : M CodeList :=
  let opts := opts (block output) in
  if (l <? r)%N then
    match fuel with
    | O => None
    | S fuel' =>
        let m := N.shiftr (l + r) 1 in
        let if_cond :=
          var_accept opts +:+ (if (r =? l + 1)%N then " == " else " <= ") +:+ u64 m in
        if_then <- emit_accept_binary_rec fuel' output dfa acc l m ;;
        if_else <- emit_accept_binary_rec fuel' output dfa acc (m + 1)%N r ;;
        ret [code_if_then_else if_cond if_then (Some if_else)]
    end
  else
    a <- of_nth acc l ;;
    let jump := {| jump_to := acc_state a; jump_tags := acc_tags a; jump_skip := false;
                   jump_elide := false; jump_eof := false |} in
    gen_goto output dfa [] None jump.

Definition emit_accept_binary (output : Output) (dfa : Adfa) (acc : list AcceptTrans)
    (l r : N) : M CodeList :=
  emit_accept_binary_rec (N.to_nat (r - l)) output dfa acc l r.

Definition output_cond_get (opts : opt_t) : string :=
  api_cond_get opts +:+ (if cond_get_naked opts then "" else "()").

(** [gen_cond_goto_binary]: [fuel] bounds the depth of the recursion and is
    [upper - lower] at the call.  With [upper < lower] the recursion of the
    source has no end; the model fails. *)
Fixpoint gen_cond_goto_binary_rec (fuel : nat) (output : Output) (lower upper : N)
    {struct fuel} : M CodeList :=
  let block := block output in
  let opts := opts block in
  if (lower =? upper)%N then
    c <- of_nth (conds block) lower ;;
    ret [code_goto (cond_label_prefix opts +:+ cond_name c)]
  else
    match fuel with
    | O => None
    | S fuel' =>
        let middle := (lower + (upper - lower + 1) / 2)%N in
        if_then <- gen_cond_goto_binary_rec fuel' output lower (middle - 1)%N ;;
        if_else <- gen_cond_goto_binary_rec fuel' output middle upper ;;
        ret [code_if_then_else (output_cond_get opts +:+ " < " +:+ u64 middle)
               if_then (Some if_else)]
    end.

Definition gen_cond_goto_binary (output : Output) (lower upper : N) : M CodeList :=
  gen_cond_goto_binary_rec (N.to_nat (upper - lower)) output lower upper.

End Transitions.

(** ** Bitmaps *)

(** A state of a bitmap (src/codegen/output.h): the transitions [bm_go] of
    the source state, the destination [bm_state], and the place of its bit in
    the table, which [gen_bitmap] fills in. *)
Record CodeBmState := {
  bm_go : CodeGo;
  bm_state : StatePtr;
  bm_offset : N;
  bm_mask : N
}.

Record CodeBitmap := {
  bm_states : list CodeBmState;
  nchars : N;
  bm_used : bool
}.

(** [uint32_t] arithmetic. *)
Definition wrap32 (n : N) : N := (n mod 4294967296)%N.

Section Bitmaps.

(** Fields of [opt_t] read by [gen_bitmap], the hexadecimal printer of
    src/codegen/helpers.h, and the array node of the code tree. *)
Variable var_bitmaps : opt_t -> string.
Variable bitmaps_hex : opt_t -> bool.
Variable render_code_type_yybm : opt_t -> string.
Variable print_hex : N -> opt_t -> string.
Variable code_array : string -> string -> list string -> bool -> Code.

Definition bitmap_name (opts : opt_t) (cond : string) : string :=
  if is_empty cond then var_bitmaps opts else var_bitmaps opts +:+ "_" +:+ cond.

(** [for (u = min(ub, nchars); c < u; ++c) tmpbuf[c] |= mask]; [i] is the
    index of the head of [tmpbuf]. *)
Fixpoint bitmap_mark (tmpbuf : list N) (i c u mask : N) : list N :=
  match tmpbuf with
  | [] => []
  | x :: tmpbuf' =>
      (if (c <=? i)%N && (i <? u)%N then N.lor x mask else x)
        :: bitmap_mark tmpbuf' (i + 1)%N c u mask
  end.

(** The loop over the spans of one state. *)
Fixpoint bitmap_spans (spans : list Span) (state : StatePtr) (nchars mask c : N)
    (tmpbuf : list N) : list N :=
  match spans with
  | [] => tmpbuf
  | sp :: spans' =>
      let tmpbuf :=
        if Nat.eqb (span_to sp) state
        then bitmap_mark tmpbuf 0 c (N.min (ub sp) nchars) mask
        else tmpbuf in
      bitmap_spans spans' state nchars mask (ub sp) tmpbuf
  end.

(** [for (mask = 0x80; mask && b; mask >>= 1, b = b->next)]: the result is the
    buffer, the states that got their place, and the states that are left. *)
Fixpoint bitmap_chunk (states : list CodeBmState) (mask offset nchars : N)
    (tmpbuf : list N) : list N * list CodeBmState * list CodeBmState :=
  if (mask =? 0)%N then (tmpbuf, [], states) else
  match states with
  | [] => (tmpbuf, [], [])
  | b :: states' =>
      let b' := {| bm_go := bm_go b; bm_state := bm_state b;
                   bm_offset := offset; bm_mask := mask |} in
      let tmpbuf := bitmap_spans (span (bm_go b)) (bm_state b) nchars mask 0 tmpbuf in
      let '(tmpbuf, done, rest) :=
        bitmap_chunk states' (N.shiftr mask 1) offset nchars tmpbuf in
      (tmpbuf, b' :: done, rest)
  end.

(** [for (b = head; b; ++bmidx)]: the values of the table in the order in
    which they are stored, and the states with their places.  Every round
    takes at least one state, so that [fuel], the number of states at the
    call, is never used up. *)
Fixpoint bitmap_table (fuel : nat) (states : list CodeBmState) (bmidx nchars : N)
    : list N * list CodeBmState :=
  match states, fuel with
  | [], _ => ([], [])
  | _ :: _, O => ([], states)
  | _ :: _, S fuel' =>
      let offset := wrap32 (bmidx * nchars) in
      let '(tmpbuf, done, rest) :=
        bitmap_chunk states 128 offset nchars (repeat 0%N (N.to_nat nchars)) in
      let '(table, states') := bitmap_table fuel' rest (bmidx + 1)%N nchars in
      (tmpbuf ++ table, done ++ states')
  end.

(** [gen_bitmap] returns a null list when there is no state or the bitmap is
    not used; otherwise the states with their places and the array. *)
Definition gen_bitmap (output : Output) (bitmap : CodeBitmap) (cond : string)
    : option (list CodeBmState * CodeList) :=
  match bm_states bitmap with
  | [] => None
  | _ :: _ =>
      if negb (bm_used bitmap) then None else
      let opts := opts (block output) in
      let '(table, states) :=
        bitmap_table (length (bm_states bitmap)) (bm_states bitmap) 0 (nchars bitmap) in
      let elems :=
        map (fun v => if bitmaps_hex opts then print_hex v opts else u32 v) table in
      let name := bitmap_name opts cond in
      let type := render_code_type_yybm opts in
      Some (states, [code_array name type elems true])
  end.

End Bitmaps.

(** ** The code of a state *)

Section Actions.

Variable heap : StatePtr -> State.
Variable argsubst : string -> string -> string -> bool -> string -> string.
Variable buf_label : Label -> string.
Variables iscopy isadd isset : tcmd_t -> bool.
Variable fallback_state_with_eof_rule : Adfa -> opt_t -> State -> StatePtr * tcid_t.
Variable emit_skeleton_action : Output -> CodeList -> Adfa -> N -> CodeList.

(** Fields of [opt_t] and of [Adfa] that only the functions of this part
    read, taken as projections; [NOSAVE] (src/adfa/adfa.h); and the nodes of
    the code tree that only these functions build. *)
Variable var_accept : opt_t -> string.
Variable var_char : opt_t -> string.
Variable api_restore : opt_t -> string.
Variable api_debug : opt_t -> string.
Variable debug : opt_t -> bool.
Variable eager_skip : opt_t -> bool.
Variable nested_ifs : opt_t -> bool.
Variable computed_gotos : opt_t -> bool.
Variable computed_gotos_threshold : opt_t -> N.
Variable var_computed_gotos_table : opt_t -> string.
Variable render_code_type_yytarget : opt_t -> string.
Variable accepts : Adfa -> list AcceptTrans.
Variable initial_label : Adfa -> Label.
Variable NOSAVE : N.
Variable CodeCase : Type.
Variable code_case_default : CodeList -> CodeCase.
Variable code_case_number : CodeList -> Z -> CodeCase.
Variable code_switch : string -> list CodeCase -> Code.
Variable code_block_wrapped : CodeList -> Code.
Variable code_array : string -> string -> list string -> bool -> Code.

Definition gen_restore (output : Output) (stmts : CodeList) : CodeList :=
  let opts := opts (block output) in
  if Api_eqb (api opts) Api_DEFAULT then
    stmts ++ [code_assign (api_cursor opts) (api_marker opts) None]
  else if ApiStyle_eqb (api_style opts) FUNCTIONS then
    stmts ++ [code_stmt (api_restore opts +:+ "()")]
  else
    stmts ++ [code_text (api_restore opts)].

(** The cases of the switch of [emit_accept]; [i] is the number of the first
    row of [rows], [nacc] the number of all rows. *)
Fixpoint emit_accept_cases (output : Output) (dfa : Adfa) (nacc i : N)
    (rows : list AcceptTrans) : M (list CodeCase) :=
  match rows with
  | [] => ret []
  | a :: rows' =>
      let jump := {| jump_to := acc_state a; jump_tags := acc_tags a; jump_skip := false;
                     jump_elide := false; jump_eof := false |} in
      case_body <- gen_goto heap argsubst buf_label iscopy isadd isset
                     fallback_state_with_eof_rule output dfa [] None jump ;;
      let c := if (i =? nacc - 1)%N then code_case_default case_body
               else code_case_number case_body (to_int32 i) in
      cases <- emit_accept_cases output dfa nacc (i + 1)%N rows' ;;
      ret (c :: cases)
  end.

Definition emit_accept (output : Output) (stmts : CodeList) (dfa : Adfa)
    (acc : list AcceptTrans) : M CodeList :=
  let opts := opts (block output) in
  let nacc := N.of_nat (length acc) in
  if (nacc =? 0)%N then ret stmts else
  let stmts := gen_restore output stmts in
  (* only one possible 'yyaccept' value: unconditional jump *)
  if (nacc =? 1)%N then
    a <- of_nth acc 0 ;;
    let jump := {| jump_to := acc_state a; jump_tags := acc_tags a; jump_skip := false;
                   jump_elide := false; jump_eof := false |} in
    gen_goto heap argsubst buf_label iscopy isadd isset fallback_state_with_eof_rule
      output dfa stmts None jump
  else
  let have_tags := existsb (fun a => negb (acc_tags a =? TCID0)%N) acc in
  (* jump table *)
  if computed_gotos opts && (computed_gotos_threshold opts <=? nacc)%N && negb have_tags then
    let elems :=
      map (fun a => "&&" +:+ label_prefix opts +:+ u32 (index (label (heap (acc_state a)))))
          acc in
    let type := render_code_type_yytarget opts in
    let block :=
      [code_array (var_computed_gotos_table opts) type elems false;
       code_goto ("*" +:+ var_computed_gotos_table opts +:+ "[" +:+ var_accept opts +:+ "]")] in
    ret (stmts ++ [code_block_wrapped block])
  (* nested ifs *)
  else if nested_ifs opts || (nacc =? 2)%N then
    tree <- emit_accept_binary heap argsubst buf_label iscopy isadd isset
              fallback_state_with_eof_rule var_accept output dfa acc 0 (nacc - 1)%N ;;
    ret (stmts ++ tree)
  (* switch *)
  else
    cases <- emit_accept_cases output dfa nacc 0 acc ;;
    ret (stmts ++ [code_switch (var_accept opts) cases]).

Definition gen_debug (output : Output) (label : Label) (stmts : CodeList) : CodeList :=
  let opts := opts (block output) in
  if negb (debug opts) then stmts else
  (* The label may be unused but still have a valid index (one such example is the
     initial label in goto/label mode). It still needs an YYDEBUG statement. *)
  let state := index label in
  if Api_eqb (api opts) Api_DEFAULT then
    stmts ++ [code_debug state]
  else if ApiStyle_eqb (api_style opts) FREEFORM then
    let buf := argsubst (api_debug opts) (api_sigil opts) "state" false (u32 state) in
    let buf := argsubst buf (api_sigil opts) "char" false (var_char opts) in
    stmts ++ [code_text buf]
  else
    stmts ++ [code_stmt (api_debug opts +:+ "()")].

Definition emit_action (output : Output) (dfa : Adfa) (s : State) (stmts : CodeList)
    : M CodeList :=
  let opts := opts (block output) in
  let fill_and_label :=
    gen_fill_and_label heap argsubst buf_label iscopy isadd isset
      fallback_state_with_eof_rule in
  match kind (action s) with
  | Action.MATCH =>
      let stmts := if negb (eager_skip opts) then stmts ++ [code_skip] else stmts in
      stmts <- fill_and_label output stmts dfa s ;;
      ret (gen_peek heap s stmts)
  | Action.INITIAL =>
      let save := info_save (action s) in
      let backup := negb (save =? NOSAVE)%N in
      let ul1 := used (label s) in
      let stmts :=
        if ul1 && (1 <? N.of_nat (length (accepts dfa)))%N && backup
        then stmts ++ [code_assign (var_accept opts) (u64 save) None] else stmts in
      let stmts := if ul1 && negb (eager_skip opts) then stmts ++ [code_skip] else stmts in
      let stmts := stmts ++ [code_nlabel (initial_label dfa)] in
      stmts <- fill_and_label output stmts dfa s ;;
      let stmts := if backup then stmts ++ [code_backup] else stmts in
      let stmts := gen_peek heap s stmts in
      ret (gen_debug output (initial_label dfa) stmts)
  | Action.SAVE =>
      let stmts :=
        if (1 <? N.of_nat (length (accepts dfa)))%N
        then stmts ++ [code_accept (wrap32 (info_save (action s)))] else stmts in
      let stmts := if negb (eager_skip opts) then stmts ++ [code_skip] else stmts in
      let stmts := stmts ++ [code_backup] in
      stmts <- fill_and_label output stmts dfa s ;;
      ret (gen_peek heap s stmts)
  | Action.MOVE => ret stmts
  | Action.ACCEPT => emit_accept output stmts dfa (info_accepts (action s))
  | Action.RULE => emit_rule argsubst emit_skeleton_action output stmts dfa (info_rule (action s))
  end.

End Actions.

(** ** Vocabulary of the properties *)

(** The blocks a directive refers to: the blocks it lists by name or, with no
    list, the blocks of the output file followed by those of the header. *)
Definition referenced_blocks (output : Output) (fmt : CodeFmt) (directive : string)
    : Ret blocks_t :=
  match block_names fmt with
  | [] => OK (cblocks output ++ hblocks output)
  | _ :: _ => find_blocks output (block_names fmt) [] directive
  end.

(** The maximum that a block reports for a [maxfill:re2c] or [maxnmatch:re2c]
    directive. *)
Definition block_max (kind : CodeKind) (b : OutputBlock) : N :=
  match kind with MAXFILL => max_fill b | _ => max_nmatch b end.

Definition maximum (l : list N) : N := fold_right N.max 0%N l.

(** A condition of a block under its prefix-qualified name. *)
Definition qualified (blk : OutputBlock) (c : StartCond) : StartCond :=
  {| cond_name := cond_enum_prefix (opts blk) +:+ cond_name c;
     cond_number := cond_number c |}.

(** All conditions of the given blocks, qualified, in the order in which
    [add_conditions_from_blocks] meets them. *)
Definition qualified_conds (blocks : blocks_t) : StartConds :=
  flat_map (fun b => map (qualified b) (conds b)) blocks.

(** Two conditions with the same name and different numbers. *)
Definition collision (cs : StartConds) : Prop :=
  exists c1 c2, In c1 cs /\ In c2 cs
                /\ cond_name c1 = cond_name c2 /\ cond_number c1 <> cond_number c2.


(** The YYFILL statement of [gen_fill] when the return value of YYFILL is not
    checked, and the label that [gen_fill_and_label] puts after the fill. *)
Definition fill_stmt (argsubst : string -> string -> string -> bool -> string -> string)
    (opts : opt_t) (need : N) : Code :=
  let o := fill_call argsubst opts need in
  if fill_naked opts then code_text o else code_stmt o.

Definition fill_label_stmt (output : Output) (s : State) : CodeList :=
  match fill_label s with
  | Some fl =>
      if CodeModel_eqb (code_model (opts (block output))) GOTO_LABEL
      then [code_slabel (gen_fill_label output (index fl))] else []
  | None => []
  end.

(** The less-than guard around a fill, when [fill_check] asks for one. *)
Definition fill_guard (argsubst : string -> string -> string -> bool -> string -> string)
    (opts : opt_t) (need : N) (body : CodeList) : CodeList :=
  if fill_check opts
  then [code_if_then_else (gen_less_than argsubst opts need) body None]
  else body.



(** The assignment of one value to a vector of expressions, none when the
    vector is empty. *)
Definition vector_assign (lhs : list string) (rhs : string) : CodeList :=
  match lhs with
  | [] => []
  | _ :: _ => [code_assign_exprs lhs rhs]
  end.

(** The place between two parts of a command list at which no run of "save"
    commands continues: the command before it or the command after it is not
    a "save". *)
Definition boundary (isset : tcmd_t -> bool) (pre post : list tcmd_t) : Prop :=
  match rev pre, post with
  | c :: _, d :: _ => isset c = false \/ isset d = false
  | _, _ => True
  end.


(** A tag action: an assignment, a vector assignment or a tag-set statement. *)
Definition is_tag_action (c : Code) : bool :=
  match c with
  | code_assign _ _ None | code_assign_exprs _ _ | code_stmt _ | code_text _ => true
  | _ => false
  end.

Definition is_tailcall (c : Code) : bool :=
  match c with code_tailcall _ _ _ => true | _ => false end.

(** The last statement of a list is a tail call. *)
Definition ends_in_tailcall (l : CodeList) : bool :=
  match rev l with
  | c :: _ => is_tailcall c
  | [] => false
  end.

(** Reading back a comparison [var < m], [var <= m] or [var == m] that the
    generator wrote, as a test on the value of [var]. *)
Fixpoint strip_prefix (p s : string) : option string :=
  match p with
  | EmptyString => Some s
  | String a p' =>
      match s with
      | String b s' => if Ascii.eqb a b then strip_prefix p' s' else None
      | EmptyString => None
      end
  end.

Definition parse_u64 (s : string) : option N :=
  option_map N.of_uint (NilEmpty.uint_of_string s).

Definition parse_test (var cond : string) : option (N -> bool) :=
  match strip_prefix var cond with
  | None => None
  | Some rest =>
      match strip_prefix " < " rest, strip_prefix " <= " rest, strip_prefix " == " rest with
      | Some d, _, _ => option_map (fun m n => (n <? m)%N) (parse_u64 d)
      | None, Some d, _ => option_map (fun m n => (n <=? m)%N) (parse_u64 d)
      | None, None, Some d => option_map (fun m n => (n =? m)%N) (parse_u64 d)
      | None, None, None => None
      end
  end.

(** The statements that run when [var] holds [n]: a list that is a single
    if/else on [var] stands for the branch that the test selects. *)
Fixpoint dispatch_node (var : string) (n : N) (c : Code) {struct c} : option CodeList :=
  match c with
  | code_if_then_else cond t (Some e) =>
      match parse_test var cond with
      | Some test =>
          Some (if test n
                then match t with
                     | [c'] => match dispatch_node var n c' with Some r => r | None => t end
                     | _ => t
                     end
                else match e with
                     | [c'] => match dispatch_node var n c' with Some r => r | None => e end
                     | _ => e
                     end)
      | None => None
      end
  | _ => None
  end.

Definition dispatch (var : string) (n : N) (stmts : CodeList) : CodeList :=
  match stmts with
  | [c] => match dispatch_node var n c with Some r => r | None => stmts end
  | _ => stmts
  end.

(** An assignment, a vector assignment, or the adjustment of a tag under a
    condition: the statements that set final tags with the default API. *)
Definition is_plain_assignment (c : Code) : bool :=
  match c with
  | code_assign _ _ _ | code_assign_exprs _ _ => true
  | code_if_then_else _ [code_stmt _] None => true
  | _ => false
  end.

(** The entries of a formatted condition enumeration: the format with the
    number and the name of each condition substituted; [i] counts the
    conditions. *)
Fixpoint cond_enum_entries (argsubst : string -> string -> string -> bool -> string -> string)
    (opts : opt_t) (fmt : string) (i : N) (conds : StartConds) : list string :=
  match conds with
  | [] => []
  | cond :: conds' =>
      let cid := if CodeModel_eqb (code_model opts) GOTO_LABEL then i else cond_number cond in
      argsubst (argsubst fmt (api_sigil opts) "num" false (u64 cid))
               (api_sigil opts) "cond" true (cond_name cond)
        :: cond_enum_entries argsubst opts fmt (i + 1)%N conds'
  end.

(** The jump of a row of the accept table, as [emit_accept_binary] builds it. *)
Definition accept_jump (a : AcceptTrans) : CodeJump :=
  {| jump_to := acc_state a; jump_tags := acc_tags a; jump_skip := false;
     jump_elide := false; jump_eof := false |}.

(** Character [c] lies in a span that goes to [state]; [lo] is the lower
    bound of the first span. *)
Fixpoint goes_to (spans : list Span) (state : StatePtr) (lo c : N) : bool :=
  match spans with
  | [] => false
  | sp :: spans' =>
      (Nat.eqb (span_to sp) state && (lo <=? c)%N && (c <? ub sp)%N)
      || goes_to spans' state (ub sp) c
  end.

(** Lines, each followed by a newline. *)
Definition newline : string := String "010"%char EmptyString.

Definition unlines (ls : list string) : string :=
  fold_right (fun l s => l +:+ newline +:+ s) "" ls.

(** The line that the loop of [emit_rule] is reading. *)
Definition line_of (cur : option string) : string :=
  match cur with Some l => l | None => "" end.

Fixpoint has_newline (s : string) : bool :=
  match s with
  | EmptyString => false
  | String c s' => Ascii.eqb c "010"%char || has_newline s'
  end.

(** ** Example inputs *)

(** An instance of [argsubst]: every occurrence of [stub{arg}] in the buffer,
    and, when [allow_unnamed] is set, every remaining [stub], becomes [val]. *)
Fixpoint replace_from (pat val : string) (skip : nat) (s : string) : string :=
  match s with
  | EmptyString => EmptyString
  | String c s' =>
      match skip with
      | S k => replace_from pat val k s'
      | O =>
          if negb (is_empty pat) && String.prefix pat s
          then val +:+ replace_from pat val (String.length pat - 1) s'
          else String c (replace_from pat val 0 s')
      end
  end.

Definition argsubst_ex (buf stub arg : string) (allow_unnamed : bool) (val : string)
    : string :=
  let s := replace_from (stub +:+ "{" +:+ arg +:+ "}") val 0 buf in
  if allow_unnamed then replace_from stub val 0 s else s.

Definition buf_label_ex (l : Label) : string := u32 (index l).

(** The three classes of tag command, as src/dfa/tcmd.h tells them apart. *)
Definition iscopy_ex (x : tcmd_t) : bool :=
  negb (rhs x =? TAGVER_ZERO)%Z && (nth 0 (history x) TAGVER_ZERO =? TAGVER_ZERO)%Z.
Definition isset_ex (x : tcmd_t) : bool := (rhs x =? TAGVER_ZERO)%Z.
Definition isadd_ex (x : tcmd_t) : bool :=
  negb (rhs x =? TAGVER_ZERO)%Z && negb (nth 0 (history x) TAGVER_ZERO =? TAGVER_ZERO)%Z.

Definition fallback_ex (p : StatePtr) (t : tcid_t) : Adfa -> opt_t -> State -> StatePtr * tcid_t :=
  fun _ _ _ => (p, t).

Definition skeleton_ex : Output -> CodeList -> Adfa -> N -> CodeList :=
  fun _ stmts _ _ => stmts.

(** Options with the names of the C back end; the arguments are the options
    that the examples vary. *)
Definition tmpl (st : ApiStyle) (name body : string) : string :=
  match st with FUNCTIONS => name | FREEFORM => name +:+ body end.

Definition mk_opts (tg : Target) (cm : CodeModel) (a : Api) (st : ApiStyle)
    (fe fc ss : bool) (eof : N) (prefix : string) : opt_t :=
  {| target := tg; code_model := cm; api := a; api_style := st;
     api_sigil := "@@"; api_cursor := "YYCURSOR"; api_marker := "YYMARKER";
     api_ctxmarker := "YYCTXMARKER"; api_limit := "YYLIMIT"; api_fill := "YYFILL";
     api_less_than := tmpl st "YYLESSTHAN" "(@@{len})"; api_shift := tmpl st "YYSHIFT" "(@@{shift})";
     api_stag_shift := tmpl st "YYSHIFTSTAG" "(@@{tag}, @@{shift})"; api_mtag_shift := tmpl st "YYSHIFTMTAG" "(@@{tag}, @@{shift})";
     api_stag_set_pos := tmpl st "YYSTAGP" "(@@{tag})"; api_stag_set_neg := tmpl st "YYSTAGN" "(@@{tag})";
     api_mtag_set_pos := tmpl st "YYMTAGP" "(@@{tag})"; api_mtag_set_neg := tmpl st "YYMTAGN" "(@@{tag})";
     api_backup_ctx := "YYBACKUPCTX"; api_restore_ctx := "YYRESTORECTX";
     api_restore_tag := tmpl st "YYRESTORETAG" "(@@{tag})"; api_state_set := "YYSETSTATE";
     api_cond_set := "YYSETCONDITION"; api_cond_type := "YYCONDTYPE";
     api_maxfill := "YYMAXFILL"; api_maxnmatch := "YYMAXNMATCH";
     state_set_param := "@@"; state_set_naked := false;
     cond_set_param := "@@"; cond_set_naked := false;
     cond_enum_prefix := prefix; cond_label_prefix := "yyc_";
     cond_goto := "goto @@;"; cond_goto_param := "@@";
     fill_enable := fe; fill_check := fc; fill_naked := false;
     fill_param_enable := true; fill_param := "@@"; fill_eof := eof;
     storable_state := ss; line_dirs := false; indentation_sensitive := false;
     label_fill := "yyFillLabel"; label_prefix := "yy"; label_loop := "";
     var_state := "yystate"; var_fill := ""; tags_expression := "@@";
     tags_prefix := "yyt";
     render_code_enum_elem := fun _ name => name;
     render_code_array_elem := fun array i => array +:+ "[" +:+ u64 i +:+ "]" |}.

Definition fn_ex : CodeFnCommon :=
  {| fn_name := "lex"; fn_type := Some "int"; fn_params := ["yyrecord"];
     fn_args := ["yyrecord"]; fn_args_yych := ["yyrecord"; "yych"] |}.

Definition mk_block (name : string) (o : opt_t) (cs : StartConds) (mf mn : N) : OutputBlock :=
  {| block_name := name; opts := o; conds := cs; max_fill := mf; max_nmatch := mn;
     fn_common := fn_ex |}.

Definition mk_output (o : opt_t) (cb hb : blocks_t) : Output :=
  {| block := mk_block "" o [] 1 1; cblocks := cb; hblocks := hb; total_opts := o |}.

Definition mk_action (k : Action.Kind) : Action_t :=
  {| kind := k; info_save := 0; info_accepts := []; info_rule := 0 |}.

Definition mk_state (idx : N) (k : Action.Kind) (sp : list Span) (tg : tcid_t) (f : N)
    (fl : option Label) (fs : StatePtr) : State :=
  {| label := {| index := idx; used := true |}; action := mk_action k;
     go := {| span := sp; go_tags := tg |}; fill := f; fill_label := fl; fill_state := fs |}.

Definition mk_span (u : N) (to : StatePtr) : Span :=
  {| ub := u; span_to := to; span_tags := TCID0 |}.

(** An arena of four states: state 0 matches and branches to states 1 and 2,
    state 1 is a rule state without spans, state 2 has one span to the rule
    state, and every other address holds a "move" state with one span to
    state 0. *)
Definition heap_ex : StatePtr -> State :=
  fun p =>
    match p with
    | 0%nat => mk_state 0 Action.MATCH [mk_span 57 1%nat; mk_span 256 2%nat] TCID0 3
                 (Some {| index := 0; used := true |}) 0%nat
    | 1%nat => mk_state 1 Action.RULE [] TCID0 0 None 1%nat
    | 2%nat => mk_state 2 Action.MATCH [mk_span 256 1%nat] TCID0 0 None 2%nat
    | _ => mk_state 3 Action.MOVE [mk_span 256 0%nat] TCID0 2 None 0%nat
    end.

Definition mk_dfa (pool : tcid_t -> list tcmd_t) (old : bool) (cond : string)
    (rs : list Rule) : Adfa :=
  {| tcpool := pool; oldstyle_ctxmarker := old; mtagvers := [3%Z]; tags := [];
     finvers := []; rules := rs; dfa_cond := cond; setup := "" |}.

Definition mk_cmd (l r : tagver_t) (h : list tagver_t) : tcmd_t :=
  {| lhs := l; rhs := r; history := h |}.

(** Tag commands: 1 is a save with history (a negative element stored before
    two positive ones), 2 a run of two saves followed by a copy, 3 a single
    save followed by a copy. *)
Definition pool_ex : tcid_t -> list tcmd_t :=
  fun t =>
    match t with
    | 1%N => [mk_cmd 3%Z 4%Z [TAGVER_BOTTOM; 1%Z; 1%Z; TAGVER_ZERO]]
    | 2%N => [mk_cmd 1%Z TAGVER_ZERO [1%Z; TAGVER_ZERO];
              mk_cmd 2%Z TAGVER_ZERO [TAGVER_BOTTOM; TAGVER_ZERO];
              mk_cmd 5%Z 1%Z [TAGVER_ZERO]]
    | 3%N => [mk_cmd 1%Z TAGVER_ZERO [1%Z; TAGVER_ZERO];
              mk_cmd 5%Z 1%Z [TAGVER_ZERO]]
    | _ => []
    end.

Definition rule_ex (next : option string) : Rule :=
  {| semact := {| semact_loc := {| loc_file := 0; loc_line := 1 |}; semact_cond := next;
                  autogen := false; semact_text := "return 1;" |};
     ltag := 0; htag := 0; ncap := 0 |}.

(** Outputs of the examples: the default API in goto/label mode with YYFILL
    and its check; the same with the free-form style; the custom API with the
    free-form style; an end-of-input rule; rec/func and loop/switch with
    storable state. *)
Definition output_default : Output :=
  mk_output (mk_opts Target_CODE GOTO_LABEL Api_DEFAULT FUNCTIONS true true false NOEOF "yyc")
            [] [].
Definition output_eof : Output :=
  mk_output (mk_opts Target_CODE GOTO_LABEL Api_DEFAULT FUNCTIONS true true false 0 "yyc")
            [] [].
Definition output_rec_func : Output :=
  mk_output (mk_opts Target_CODE REC_FUNC Api_DEFAULT FUNCTIONS true true true NOEOF "yyc")
            [] [].
Definition output_loop_switch : Output :=
  mk_output (mk_opts Target_CODE LOOP_SWITCH Api_DEFAULT FUNCTIONS true true true NOEOF "yyc")
            [] [].

Definition output_goto_state : Output :=
  mk_output (mk_opts Target_CODE GOTO_LABEL Api_DEFAULT FUNCTIONS true true true NOEOF "yyc")
            [] [].

Definition dfa_ex : Adfa := mk_dfa pool_ex false "" [].

(** The DFA of condition [c1] with one rule that goes to condition [c2]. *)
Definition dfa_c1 : Adfa := mk_dfa pool_ex false "c1" [rule_ex (Some "c2")].

(** A jump to state 1 without tags or skip. *)
Definition jump_ex : CodeJump :=
  {| jump_to := 1%nat; jump_tags := TCID0; jump_skip := false; jump_elide := false;
     jump_eof := true |}.

(** A jump to state 1 that carries the command list 1, and a state whose
    spans all carry the command list 1, which is hoisted into the state. *)
Definition jump_tagged : CodeJump :=
  {| jump_to := 1%nat; jump_tags := 1%N; jump_skip := false; jump_elide := false;
     jump_eof := true |}.

Definition state_hoisted_spans : State :=
  mk_state 4 Action.MATCH
    [{| ub := 57; span_to := 1%nat; span_tags := 1%N |};
     {| ub := 256; span_to := 2%nat; span_tags := 1%N |}] 1%N 1 None 0%nat.

(** Blocks with conditions: [block_a] and [block_b] agree on [c1], while
    [block_c] gives it another number. *)
Definition mk_cond (name : string) (number : N) : StartCond :=
  {| cond_name := name; cond_number := number |}.

Definition opts_code : opt_t :=
  mk_opts Target_CODE GOTO_LABEL Api_DEFAULT FUNCTIONS true true false NOEOF "yyc".
Definition opts_dot : opt_t :=
  mk_opts Target_DOT GOTO_LABEL Api_DEFAULT FUNCTIONS true true false NOEOF "yyc".

Definition block_a : OutputBlock := mk_block "a" opts_code [mk_cond "c1" 0; mk_cond "c2" 1] 3 2.
Definition block_b : OutputBlock := mk_block "b" opts_code [mk_cond "c1" 0; mk_cond "c3" 2] 5 0.
Definition block_c : OutputBlock := mk_block "c" opts_code [mk_cond "c1" 7] 0 0.

Definition fmt_all : CodeFmt := {| format := None; separator := None; block_names := [] |}.
Definition fmt_named (names : list string) : CodeFmt :=
  {| format := None; separator := None; block_names := names |}.

(** Tag commands in parts: list 3 is list 1, a save, followed by list 2, a
    copy. *)
Definition pool_parts : tcid_t -> list tcmd_t :=
  fun t =>
    match t with
    | 1%N => [mk_cmd 1%Z TAGVER_ZERO [1%Z; TAGVER_ZERO]]
    | 2%N => [mk_cmd 5%Z 1%Z [TAGVER_ZERO]]
    | 3%N => [mk_cmd 1%Z TAGVER_ZERO [1%Z; TAGVER_ZERO]; mk_cmd 5%Z 1%Z [TAGVER_ZERO]]
    | _ => []
    end.

Definition dfa_parts : Adfa := mk_dfa pool_parts false "" [].

(** A DFA with two tags: a variable tag [x], and a capture for the groups 2
    to 6 that is fixed at distance 1 from it; a rule with both. *)
Definition tag_variable : Tag :=
  {| tag_kind := Tag_NAMED; tag_name := "x"; tag_trailing := false; tag_history := false;
     tag_fixed := false; lsub := 0; hsub := 0; base := RIGHTMOST; dist := 0;
     toplevel := true |}.

Definition tag_capture : Tag :=
  {| tag_kind := Tag_CAPTURE; tag_name := ""; tag_trailing := false; tag_history := false;
     tag_fixed := true; lsub := 2; hsub := 6; base := 0; dist := 1; toplevel := true |}.

Definition dfa_tags : Adfa :=
  {| tcpool := pool_ex; oldstyle_ctxmarker := false; mtagvers := [];
     tags := [tag_variable; tag_capture]; finvers := [1%Z; 0%Z]; rules := [];
     dfa_cond := ""; setup := "" |}.

Definition rule_tags : Rule :=
  {| semact := semact (rule_ex None); ltag := 0; htag := 2; ncap := 3 |}.

(** Outputs with an end-of-input rule: rec/func mode with YYFILL, and
    goto/label mode without YYFILL; an output whose block has three
    conditions. *)
Definition output_rec_eof : Output :=
  mk_output (mk_opts Target_CODE REC_FUNC Api_DEFAULT FUNCTIONS true true false 0 "yyc")
            [] [].
Definition output_eof_nofill : Output :=
  mk_output (mk_opts Target_CODE GOTO_LABEL Api_DEFAULT FUNCTIONS false true false 0 "yyc")
            [] [].
Definition output_conds : Output :=
  {| block := mk_block "" opts_code [mk_cond "a" 0; mk_cond "b" 1; mk_cond "c" 2] 1 1;
     cblocks := []; hblocks := []; total_opts := opts_code |}.

(** A jump to state 1 with tags and a skip, and an accept table of three
    rows. *)
Definition jump_plain : CodeJump :=
  {| jump_to := 1%nat; jump_tags := 2%N; jump_skip := true; jump_elide := false;
     jump_eof := false |}.

Definition accept_ex : list AcceptTrans :=
  [{| acc_state := 1%nat; acc_tags := TCID0 |};
   {| acc_state := 2%nat; acc_tags := TCID0 |};
   {| acc_state := 1%nat; acc_tags := 3%N |}].

(** Options and helpers of the dispatch and of the bitmaps. *)
Definition var_accept_ex : opt_t -> string := fun _ => "yyaccept".
Definition api_cond_get_ex : opt_t -> string := fun _ => "YYGETCONDITION".
Definition cond_get_naked_ex : opt_t -> bool := fun _ => false.
Definition var_bitmaps_ex : opt_t -> string := fun _ => "yybm".
Definition bitmaps_hex_ex : opt_t -> bool := fun _ => false.
Definition render_code_type_yybm_ex : opt_t -> string := fun _ => "unsigned char".
Definition print_hex_ex : N -> opt_t -> string := fun v _ => "0x" +:+ u32 v.
Definition code_array_ex : string -> string -> list string -> bool -> Code :=
  fun name type elems _ =>
    code_raw (type +:+ " " +:+ name +:+ "[] = {" +:+ String.concat ", " elems +:+ "};").

(** The bitmap of state 0 of the arena, which goes to state 1 below
    character 57 and to state 2 from there on. *)
Definition bitmap_ex : CodeBitmap :=
  {| bm_states :=
       [{| bm_go := go (heap_ex 0%nat); bm_state := 1%nat; bm_offset := 0; bm_mask := 0 |};
        {| bm_go := go (heap_ex 0%nat); bm_state := 2%nat; bm_offset := 0; bm_mask := 0 |}];
     nchars := 256; bm_used := true |}.

(** A format for the entries of a condition enumeration. *)
Definition fmt_text : CodeFmt :=
  {| format := Some "@@{cond} = @@{num}"; separator := Some ", "; block_names := [] |}.

(** Options, DFA fields and nodes of the code of a state: no jump table, no
    nested ifs, lazy skips, no debug statements; a switch is written as a
    text with its cases left out, a wrapped block as an unconditional if. *)
Definition var_char_ex : opt_t -> string := fun _ => "yych".
Definition api_restore_ex : opt_t -> string := fun _ => "YYRESTORE".
Definition api_debug_ex : opt_t -> string := fun _ => "YYDEBUG".
Definition debug_ex : opt_t -> bool := fun _ => false.
Definition eager_skip_ex : opt_t -> bool := fun _ => false.
Definition nested_ifs_ex : opt_t -> bool := fun _ => false.
Definition computed_gotos_ex : opt_t -> bool := fun _ => false.
Definition computed_gotos_threshold_ex : opt_t -> N := fun _ => 9%N.
Definition var_computed_gotos_table_ex : opt_t -> string := fun _ => "yytarget".
Definition render_code_type_yytarget_ex : opt_t -> string := fun _ => "void*".
Definition accepts_ex : Adfa -> list AcceptTrans := fun _ => accept_ex.
Definition initial_label_ex : Adfa -> Label := fun _ => {| index := 0; used := true |}.
Definition NOSAVE_ex : N := 18446744073709551615.
Definition CodeCase_ex : Type := (CodeList * option Z)%type.
Definition code_case_default_ex (body : CodeList) : CodeCase_ex := (body, None).
Definition code_case_number_ex (body : CodeList) (n : Z) : CodeCase_ex := (body, Some n).
Definition code_switch_ex (var : string) (cases : list CodeCase_ex) : Code :=
  code_text ("switch (" +:+ var +:+ ")").
Definition code_block_wrapped_ex (body : CodeList) : Code :=
  code_if_then_else "1" body None.

(** * Properties *)

Lemma bind_Some {A B : Type} (m : M A) (k : A -> M B) (b : B) :
  bind m k = Some b <-> exists a, m = Some a /\ k a = Some b.
Proof.
  destruct m as [a|]; simpl; split.
  - intros H. exists a. split; [reflexivity | exact H].
  - intros [a' [Ha Hk]]. inversion Ha. subst. exact Hk.
  - discriminate.
  - intros [a' [Ha _]]. discriminate.
Qed.

Lemma DCHECK_Some (b : bool) (u : unit) : DCHECK b = Some u <-> b = true.
Proof. destruct b, u; simpl; split; intros; congruence. Qed.

Lemma Kind_eqb_eq (a b : Action.Kind) : Action.Kind_eqb a b = true <-> a = b.
Proof. destruct a, b; simpl; split; intros; congruence. Qed.

Lemma Kind_eqb_neq (a b : Action.Kind) : Action.Kind_eqb a b = false <-> a <> b.
Proof. destruct a, b; simpl; split; intros; congruence. Qed.

Lemma span_count_1 (g : CodeGo) :
  (span_count g =? 1)%N = true <-> exists sp, span g = [sp].
Proof.
  unfold span_count. rewrite N.eqb_eq. destruct (span g) as [|sp [|sp' l]]; simpl.
  - split; [discriminate | intros [sp H]; discriminate].
  - split; [intros _; exists sp; reflexivity | reflexivity].
  - split; [lia | intros [sp0 H]; discriminate].
Qed.

Section PeekAndFill.

Variable heap : StatePtr -> State.

(** [omit_peek] holds for a MOVE state and for a state whose single span goes
    to a state that is not a MOVE state, and [gen_peek] appends the peek
    statement exactly when it does not hold. *)
Lemma omit_peek_gen_peek (s : State) (stmts : CodeList) :
  (omit_peek heap s = true <->
     kind (action s) = Action.MOVE
     \/ exists sp, span (go s) = [sp]
                   /\ kind (action (heap (span_to sp))) <> Action.MOVE)
  /\ gen_peek heap s stmts = stmts ++ (if omit_peek heap s then [] else [code_peek])
  /\ (In code_peek (gen_peek heap s []) <-> omit_peek heap s = false).
Proof.
  split; [|split].
  - unfold omit_peek. rewrite orb_true_iff, andb_true_iff, Kind_eqb_eq, span_count_1.
    split.
    + intros [H | [[sp Hsp] H]]; [left; exact H | right].
      exists sp. split; [exact Hsp|]. rewrite Hsp in H.
      apply negb_true_iff in H. apply Kind_eqb_neq. exact H.
    + intros [H | [sp [Hsp H]]]; [left; exact H | right].
      split; [exists sp; exact Hsp|]. rewrite Hsp.
      apply negb_true_iff. apply Kind_eqb_neq. exact H.
  - unfold gen_peek. destruct (omit_peek heap s); simpl; [rewrite app_nil_r|]; reflexivity.
  - unfold gen_peek. destruct (omit_peek heap s); simpl.
    + split; [intros [] | discriminate].
    + split; [reflexivity | intros _; left; reflexivity].
Qed.

End PeekAndFill.

Section Directives.

Variable argsubst : string -> string -> string -> bool -> string -> string.

Lemma max_among_blocks_maximum (kind : CodeKind) (blocks : blocks_t) (max : N) :
  max_among_blocks blocks max kind = N.max max (maximum (map (block_max kind) blocks)).
Proof.
  unfold max_among_blocks. revert max.
  induction blocks as [|b bs IH]; intros max; simpl.
  - lia.
  - rewrite IH. unfold block_max. destruct kind; lia.
Qed.

Lemma max_among_blocks_app (kind : CodeKind) (bs1 bs2 : blocks_t) (max : N) :
  max_among_blocks bs2 (max_among_blocks bs1 max kind) kind
  = max_among_blocks (bs1 ++ bs2) max kind.
Proof. unfold max_among_blocks. rewrite fold_left_app. reflexivity. Qed.

Lemma maximum_zero (l : list N) : (forall x, In x l -> x = 0%N) -> maximum l = 0%N.
Proof.
  induction l as [|x l IH]; simpl; intros H; [reflexivity|].
  rewrite IH by (intros y Hy; apply H; right; exact Hy).
  rewrite (H x) by (left; reflexivity). reflexivity.
Qed.

End Directives.

Lemma collision_incl (cs cs' : StartConds) :
  (forall x, In x cs -> In x cs') -> collision cs -> collision cs'.
Proof.
  intros Hincl (c1 & c2 & H1 & H2 & Hn & Hd).
  exists c1, c2. repeat split; auto.
Qed.

Lemma NoDup_names_inj (cs : StartConds) (a b : StartCond) :
  NoDup (map cond_name cs) -> In a cs -> In b cs -> cond_name a = cond_name b -> a = b.
Proof.
  induction cs as [|c cs IH]; simpl; intros Hnd Ha Hb Hab; [contradiction|].
  inversion Hnd as [|x l Hnotin Hnd']; subst.
  destruct Ha as [Ha | Ha], Hb as [Hb | Hb]; subst.
  - reflexivity.
  - exfalso. apply Hnotin. rewrite Hab. apply in_map. exact Hb.
  - exfalso. apply Hnotin. rewrite <- Hab. apply in_map. exact Ha.
  - apply IH; assumption.
Qed.

Lemma NoDup_names_no_collision (cs : StartConds) :
  NoDup (map cond_name cs) -> ~ collision cs.
Proof.
  intros Hnd (c1 & c2 & H1 & H2 & Hn & Hd).
  apply Hd. rewrite (NoDup_names_inj cs c1 c2 Hnd H1 H2 Hn). reflexivity.
Qed.

(** One call of [add_condition_from_block] on a list of conditions with
    distinct names. *)
Lemma add_condition_from_block_step (blk : OutputBlock) (acc : StartConds) (c : StartCond) :
  NoDup (map cond_name acc) ->
  match add_condition_from_block blk acc c with
  | OK acc' =>
      NoDup (map cond_name acc')
      /\ (forall x, In x acc' <-> In x (acc ++ [qualified blk c]))
      /\ (In (qualified blk c) acc -> acc' = acc)
  | FAIL _ => collision (acc ++ [qualified blk c])
  end.
Proof.
  intros Hnd. unfold add_condition_from_block. fold (qualified blk c).
  destruct (find (fun c0 => (cond_name c0 =? cond_name (qualified blk c))%string) acc)
    as [c0|] eqn:Hf.
  - apply find_some in Hf. destruct Hf as [Hin Hname]. apply String.eqb_eq in Hname.
    destruct (cond_number c0 =? cond_number (qualified blk c))%N eqn:Hnum.
    + apply N.eqb_eq in Hnum.
      assert (Heq : c0 = qualified blk c).
      { destruct c0 as [n0 k0]. unfold qualified in *. simpl in *. subst. reflexivity. }
      split; [exact Hnd|]. split; [|reflexivity].
      intros x. rewrite in_app_iff. simpl. split; [auto|].
      intros [Hx | [Hx | []]]; [exact Hx | subst; exact Hin].
    + apply N.eqb_neq in Hnum. exists c0, (qualified blk c).
      rewrite !in_app_iff. simpl. repeat split; auto.
  - split; [|split].
    + rewrite map_app. simpl. apply NoDup_app; [exact Hnd | repeat constructor; auto |].
      intros n Hn [Hq | []]. apply in_map_iff in Hn. destruct Hn as [x [Hx Hin]].
      apply (find_none _ _ Hf) in Hin. apply String.eqb_neq in Hin.
      unfold qualified in *. simpl in *. congruence.
    + intros x. reflexivity.
    + intros Hin. apply (find_none _ _ Hf) in Hin.
      rewrite String.eqb_refl in Hin. discriminate.
Qed.

Lemma add_conditions_of_block_spec (blk : OutputBlock) (cs acc : StartConds) :
  NoDup (map cond_name acc) ->
  match add_conditions_of_block blk cs acc with
  | OK acc' =>
      NoDup (map cond_name acc')
      /\ (forall x, In x acc' <-> In x (acc ++ map (qualified blk) cs))
  | FAIL _ => collision (acc ++ map (qualified blk) cs)
  end.
Proof.
  revert acc. induction cs as [|c cs IH]; intros acc Hnd; simpl.
  - split; [exact Hnd|]. intros x. rewrite app_nil_r. reflexivity.
  - pose proof (add_condition_from_block_step blk acc c Hnd) as Hstep.
    destruct (add_condition_from_block blk acc c) as [acc1|msg]; simpl.
    + destruct Hstep as (Hnd1 & Hin1 & _). specialize (IH acc1 Hnd1).
      assert (Hsame : forall x, In x (acc1 ++ map (qualified blk) cs)
                                <-> In x (acc ++ qualified blk c :: map (qualified blk) cs)).
      { intros x. rewrite !in_app_iff, Hin1, in_app_iff. simpl. tauto. }
      destruct (add_conditions_of_block blk cs acc1) as [acc2|msg].
      * destruct IH as [Hnd2 Hin2]. split; [exact Hnd2|].
        intros x. rewrite Hin2. apply Hsame.
      * eapply collision_incl; [|exact IH]. intros x. apply Hsame.
    + eapply collision_incl; [|exact Hstep].
      intros x. rewrite !in_app_iff. simpl. tauto.
Qed.

Lemma add_conditions_from_blocks_spec (blocks : blocks_t) (acc : StartConds) :
  NoDup (map cond_name acc) ->
  match add_conditions_from_blocks blocks acc with
  | OK acc' =>
      NoDup (map cond_name acc')
      /\ (forall x, In x acc' <-> In x (acc ++ qualified_conds blocks))
  | FAIL _ => collision (acc ++ qualified_conds blocks)
  end.
Proof.
  revert acc. induction blocks as [|b bs IH]; intros acc Hnd; simpl.
  - split; [exact Hnd|]. intros x. rewrite app_nil_r. reflexivity.
  - pose proof (add_conditions_of_block_spec b (conds b) acc Hnd) as Hblk.
    destruct (add_conditions_of_block b (conds b) acc) as [acc1|msg]; simpl.
    + destruct Hblk as [Hnd1 Hin1]. specialize (IH acc1 Hnd1).
      assert (Hsame : forall x,
                 In x (acc1 ++ qualified_conds bs)
                 <-> In x (acc ++ map (qualified b) (conds b) ++ qualified_conds bs)).
      { intros x. rewrite !in_app_iff, Hin1, in_app_iff. tauto. }
      destruct (add_conditions_from_blocks bs acc1) as [acc2|msg].
      * destruct IH as [Hnd2 Hin2]. split; [exact Hnd2|].
        intros x. rewrite Hin2. apply Hsame.
      * eapply collision_incl; [|exact IH]. intros x. apply Hsame.
    + eapply collision_incl; [|exact Hblk].
      intros x. rewrite !in_app_iff. tauto.
Qed.

Lemma add_conditions_from_blocks_app (bs1 bs2 : blocks_t) (acc : StartConds) :
  (acc' <-- add_conditions_from_blocks bs1 acc ;; add_conditions_from_blocks bs2 acc')
  = add_conditions_from_blocks (bs1 ++ bs2) acc.
Proof.
  revert acc. induction bs1 as [|b bs IH]; intros acc; simpl; [reflexivity|].
  destruct (add_conditions_of_block b (conds b) acc); simpl; [apply IH | reflexivity].
Qed.

Lemma add_conditions_from_blocks_fail_iff (blocks : blocks_t) :
  is_fail (add_conditions_from_blocks blocks []) = true
  <-> collision (qualified_conds blocks).
Proof.
  pose proof (add_conditions_from_blocks_spec blocks [] (NoDup_nil _)) as H.
  simpl in H. destruct (add_conditions_from_blocks blocks []) as [acc|msg]; simpl.
  - destruct H as [Hnd Hin]. split; [discriminate|]. intros Hc. exfalso.
    apply (NoDup_names_no_collision Hnd).
    eapply collision_incl; [|exact Hc]. intros x. apply Hin.
  - split; [intros _; exact H | reflexivity].
Qed.

Section CondEnum.

Variable argsubst : string -> string -> string -> bool -> string -> string.

(** The three ways in which [expand_cond_enum] ends: with another target than
    code it expands to nothing; a block name that is not found is an error;
    otherwise the conditions of the referenced blocks decide. *)
Lemma expand_cond_enum_cases (output : Output) (fmt : CodeFmt) :
  (target (total_opts output) <> Target_CODE ->
     expand_cond_enum argsubst output fmt = OK (ret code_empty))
  /\ (target (total_opts output) = Target_CODE ->
      (forall msg, referenced_blocks output fmt "types:re2c" = FAIL msg ->
         expand_cond_enum argsubst output fmt = FAIL msg)
      /\ forall bs, referenced_blocks output fmt "types:re2c" = OK bs ->
           (is_fail (expand_cond_enum argsubst output fmt) = true
            <-> collision (qualified_conds bs))
           /\ (forall cs, add_conditions_from_blocks bs [] = OK cs ->
                 NoDup (map cond_name cs)
                 /\ (forall c, In c cs <-> In c (qualified_conds bs))
                 /\ expand_cond_enum argsubst output fmt
                    = OK (match cs with
                          | [] => ret code_empty
                          | _ :: _ =>
                              gen_cond_enum argsubst (code_fmt COND_ENUM fmt) fmt
                                (total_opts output) cs
                          end))).
Proof.
  unfold expand_cond_enum. split.
  - intros Ht. destruct (target (total_opts output)); simpl; congruence.
  - intros Ht. rewrite Ht. simpl.
    assert (Hgather :
      (match block_names fmt with
       | [] => conds <-- add_conditions_from_blocks (cblocks output) [] ;;
               add_conditions_from_blocks (hblocks output) conds
       | _ :: _ => tmpblocks <-- find_blocks output (block_names fmt) [] "types:re2c" ;;
                   add_conditions_from_blocks tmpblocks []
       end)
      = (bs <-- referenced_blocks output fmt "types:re2c" ;;
         add_conditions_from_blocks bs [])).
    { unfold referenced_blocks.
      destruct (block_names fmt); simpl; [apply add_conditions_from_blocks_app | reflexivity]. }
    rewrite Hgather. clear Hgather.
    destruct (referenced_blocks output fmt "types:re2c") as [bs0|msg0]; simpl.
    + split; [intros msg Hmsg; discriminate Hmsg|]. intros bs Hbs. inversion Hbs; subst bs0.
      pose proof (add_conditions_from_blocks_fail_iff bs) as Hfail.
      pose proof (add_conditions_from_blocks_spec bs [] (NoDup_nil _)) as Hspec.
      simpl in Hspec.
      destruct (add_conditions_from_blocks bs []) as [cs0|msg]; simpl in *.
      * split.
        -- split; intros H; [destruct cs0; discriminate | apply Hfail in H; discriminate].
        -- intros cs Hcs. inversion Hcs; subst cs0. destruct Hspec as [Hnd Hin].
           split; [exact Hnd|]. split; [exact Hin|]. destruct cs; reflexivity.
      * split; [exact Hfail | intros cs Hcs; discriminate Hcs].
    + split; [|intros bs Hbs; discriminate Hbs]. intros msg Hmsg. inversion Hmsg. reflexivity.
Qed.

(** C8 (amended). With the code target, and when every block that the
    directive names is found, expanding [types:re2c] returns an error (and no
    enum) exactly when two conditions of the referenced blocks have equal
    prefix-qualified names and different numbers; when it does not, every
    qualified condition is kept once, whatever the number of blocks that
    define it with the same number. *)
Theorem expand_cond_enum_error (output : Output) (fmt : CodeFmt) (bs : blocks_t) :
  target (total_opts output) = Target_CODE ->
  referenced_blocks output fmt "types:re2c" = OK bs ->
  (is_fail (expand_cond_enum argsubst output fmt) = true
   <-> collision (qualified_conds bs))
  /\ (forall cs, add_conditions_from_blocks bs [] = OK cs ->
        NoDup (map cond_name cs)
        /\ (forall c, In c cs <-> In c (qualified_conds bs))
        /\ expand_cond_enum argsubst output fmt
           = OK (match cs with
                 | [] => ret code_empty
                 | _ :: _ =>
                     gen_cond_enum argsubst (code_fmt COND_ENUM fmt) fmt
                       (total_opts output) cs
                 end)).
Proof.
  intros Ht Hbs. destruct (expand_cond_enum_cases output fmt) as [_ H].
  destruct (H Ht) as [_ H']. exact (H' bs Hbs).
Qed.

End CondEnum.

Section TagActions.

Variable argsubst : string -> string -> string -> bool -> string -> string.
Variables iscopy isadd isset : tcmd_t -> bool.

Local Abbreviation settags_cmds := (gen_settags_cmds argsubst iscopy isadd isset).
Local Abbreviation settags_run := (gen_settags_run argsubst isset).
Local Abbreviation settags_add := (gen_settags_run_add argsubst).

Lemma gen_settag_app (output : Output) (stmts : CodeList) (tag : string) (n h : bool) :
  gen_settag argsubst output stmts tag n h = stmts ++ gen_settag argsubst output [] tag n h.
Proof. unfold gen_settag. destruct (ApiStyle_eqb _ _); reflexivity. Qed.

Lemma fold_gen_settag (output : Output) (le : string) (hs : list tagver_t) (ta : CodeList) :
  fold_left (fun acc x => gen_settag argsubst output acc le (x =? TAGVER_BOTTOM)%Z true) hs ta
  = ta ++ flat_map (fun x => gen_settag argsubst output [] le (x =? TAGVER_BOTTOM)%Z true) hs.
Proof.
  revert ta. induction hs as [|x hs IH]; intros ta; simpl.
  - rewrite app_nil_r. reflexivity.
  - rewrite IH, gen_settag_app, <- app_assoc. reflexivity.
Qed.


Lemma gen_settags_run_end_eq (opts : opt_t) (ta : CodeList) (neg pos : list string) :
  gen_settags_run_end opts ta neg pos
  = ta ++ vector_assign neg "NULL" ++ vector_assign pos (api_cursor opts).
Proof.
  unfold gen_settags_run_end, vector_assign.
  destruct neg, pos; simpl; rewrite ?app_nil_r, <- ?app_assoc; reflexivity.
Qed.



Lemma boundary_tail (p : tcmd_t) (pre post : list tcmd_t) :
  boundary isset (p :: pre) post -> boundary isset pre post.
Proof.
  unfold boundary. simpl. destruct (rev pre) as [|c l]; simpl; trivial.
Qed.

Lemma boundary_single (p : tcmd_t) (post : list tcmd_t) :
  isset p = true -> boundary isset [p] post ->
  match post with [] => True | d :: _ => isset d = false end.
Proof.
  unfold boundary. simpl. destruct post as [|d post]; [trivial|].
  intros Hp [H | H]; congruence.
Qed.

(** The loop over a command list splits at every boundary. *)
Lemma gen_settags_cmds_app (output : Output) (dfa : Adfa) (post : list tcmd_t) :
  forall (n : nat) (pre : list tcmd_t) (ta : CodeList),
    (length pre <= n)%nat ->
    Api_eqb (api (opts (block output))) Api_CUSTOM = true \/ boundary isset pre post ->
    settags_cmds output ta dfa (pre ++ post)
    = settags_cmds output (settags_cmds output ta dfa pre) dfa post.
Proof.
  induction n as [|n IHn]; intros pre ta Hlen Hb.
  - destruct pre; [reflexivity | simpl in Hlen; lia].
  - destruct pre as [|p pre]; [reflexivity|].
    simpl in Hlen. assert (Hlen' : (length pre <= n)%nat) by lia.
    assert (Hb' : Api_eqb (api (opts (block output))) Api_CUSTOM = true
                  \/ boundary isset pre post).
    { destruct Hb as [Hb | Hb]; [left; exact Hb | right; eapply boundary_tail; exact Hb]. }
    simpl.
    destruct (iscopy p); [apply IHn; assumption|].
    destruct (isadd p); [apply IHn; assumption|].
    destruct (Api_eqb (api (opts (block output))) Api_CUSTOM) eqn:Hg;
      [apply IHn; assumption|].
    destruct Hb as [Hb | Hb]; [discriminate|].
    destruct (isset p) eqn:Hp; [|apply IHn; [assumption | right; eapply boundary_tail; exact Hb]].
    remember (existsb (Z.eqb (lhs p)) (mtagvers dfa)) as im eqn:Him. clear Him.
    generalize (settags_add (opts (block output)) im p ([], [])).
    clear Hb' Hlen. revert p Hp Hb Hlen'.
    induction pre as [|c pre IHpre]; intros x Hx Hb Hlen' np.
    + simpl. pose proof (@boundary_single x post Hx Hb) as Hpost.
      destruct post as [|d post]; simpl; [reflexivity|]. rewrite Hpost. reflexivity.
    + cbn [gen_settags_run app]. destruct (isset c) eqn:Hc.
      * apply (IHpre c Hc); [eapply boundary_tail; exact Hb | simpl in Hlen'; lia].
      * change (c :: pre ++ post) with ((c :: pre) ++ post).
        apply IHn; [exact Hlen' | right; eapply boundary_tail; exact Hb].
Qed.



Lemma gen_settags_loop (output : Output) (ta : CodeList) (dfa : Adfa) (tcid : tcid_t) :
  oldstyle_ctxmarker dfa = false ->
  gen_settags argsubst iscopy isadd isset output ta dfa tcid
  = settags_cmds output ta dfa (tcpool dfa tcid).
Proof.
  intros Hold. unfold gen_settags. rewrite Hold, andb_false_r. reflexivity.
Qed.



End TagActions.

Section Fill.

Variable heap : StatePtr -> State.
Variable argsubst : string -> string -> string -> bool -> string -> string.
Variable buf_label : Label -> string.
Variables iscopy isadd isset : tcmd_t -> bool.
Variable fallback_state_with_eof_rule : Adfa -> opt_t -> State -> StatePtr * tcid_t.

Local Abbreviation settags := (gen_settags argsubst iscopy isadd isset).
Local Abbreviation goto_fallback := (gen_goto_fallback heap buf_label).
Local Abbreviation fill_falllback :=
  (gen_fill_falllback heap argsubst buf_label iscopy isadd isset fallback_state_with_eof_rule).
Local Abbreviation goto_after_fill :=
  (gen_goto_after_fill heap argsubst buf_label iscopy isadd isset fallback_state_with_eof_rule).
Local Abbreviation fill_ :=
  (gen_fill heap argsubst buf_label iscopy isadd isset fallback_state_with_eof_rule).
Local Abbreviation fill_and_label :=
  (gen_fill_and_label heap argsubst buf_label iscopy isadd isset fallback_state_with_eof_rule).

Lemma gen_goto_fallback_nonempty (output : Output) (ft : CodeList) (fb : StatePtr) :
  goto_fallback output ft fb <> [].
Proof.
  unfold gen_goto_fallback, gen_continue_yyloop.
  destruct (code_model (opts (block output))); intros H;
    apply app_eq_nil in H; destruct H as [_ H]; discriminate.
Qed.

Lemma jump_coincides_iff (jump : option CodeJump) (fallback : StatePtr) (falltags : tcid_t) :
  jump_coincides jump fallback falltags = true
  <-> exists j, jump = Some j /\ jump_to j = fallback /\ jump_tags j = falltags
                /\ jump_skip j = false.
Proof.
  unfold jump_coincides. destruct jump as [j|].
  - rewrite !andb_true_iff, Nat.eqb_eq, N.eqb_eq, negb_true_iff. split.
    + intros [[H1 H2] H3]. exists j. auto.
    + intros [j' [Hj [H1 [H2 H3]]]]. inversion Hj; subst. auto.
  - split; [discriminate | intros [j [Hj _]]; discriminate].
Qed.

(** [gen_fill_falllback] when its two assertions hold: the transition is
    elided, or it is the tag actions that the fallback transition is left
    with followed by the transfer to the fallback state. *)
Lemma gen_fill_falllback_eq (output : Output) (dfa : Adfa) (from : State)
    (jump : option CodeJump) :
  let o := opts (block output) in
  let fallback := fst (fallback_state_with_eof_rule dfa o from) in
  let falltags := if (go_tags (go from) =? TCID0)%N
                  then snd (fallback_state_with_eof_rule dfa o from) else TCID0 in
  fill_eof o <> NOEOF ->
  (go_tags (go from) <> TCID0 ->
     snd (fallback_state_with_eof_rule dfa o from) = go_tags (go from)) ->
  fill_falllback output dfa from jump
  = Some (if jump_coincides jump fallback falltags
             && negb (CodeModel_eqb (code_model o) REC_FUNC && fill_enable o)
          then []
          else goto_fallback output (settags output [] dfa falltags) fallback).
Proof.
  intros o fallback falltags Heof Htags. subst fallback falltags.
  unfold gen_fill_falllback. fold o.
  apply N.eqb_neq in Heof. rewrite Heof. simpl.
  destruct (fallback_state_with_eof_rule dfa o from) as [fb ft]. simpl in *.
  destruct (go_tags (go from) =? TCID0)%N eqn:Hh; simpl.
  - destruct (jump_coincides jump fb ft && _); reflexivity.
  - apply N.eqb_neq in Hh. rewrite (Htags Hh), N.eqb_refl. simpl.
    destruct (jump_coincides jump fb TCID0 && _); reflexivity.
Qed.

(** C3 (amended). For a state with an end-of-input rule (the assertions of
    [gen_fill_falllback] being true), [gen_fill_falllback] returns, and the
    code of the fallback transition is empty exactly when the jump is there,
    goes to the fallback state, has the tag commands that the fallback
    transition is left with (its own, and [TCID0] once the tags are hoisted
    into the state) and does not skip, and the model is not rec/func with
    YYFILL enabled; in every other case, so always with rec/func and YYFILL
    enabled, the code is the tag actions that the transition is left with
    followed by the transfer to the fallback state. *)
Theorem gen_fill_falllback_elided (output : Output) (dfa : Adfa) (from : State)
    (jump : option CodeJump) :
  let o := opts (block output) in
  let fallback := fst (fallback_state_with_eof_rule dfa o from) in
  let falltags := if (go_tags (go from) =? TCID0)%N
                  then snd (fallback_state_with_eof_rule dfa o from) else TCID0 in
  let coincide :=
    exists j, jump = Some j /\ jump_to j = fallback /\ jump_tags j = falltags
              /\ jump_skip j = false in
  let rec_fill := code_model o = REC_FUNC /\ fill_enable o = true in
  fill_eof o <> NOEOF ->
  (go_tags (go from) <> TCID0 ->
     snd (fallback_state_with_eof_rule dfa o from) = go_tags (go from)) ->
  exists out,
    fill_falllback output dfa from jump = Some out
    /\ (out = [] <-> coincide /\ ~ rec_fill)
    /\ (~ (coincide /\ ~ rec_fill) ->
        out = goto_fallback output (settags output [] dfa falltags) fallback)
    /\ (rec_fill ->
        out = goto_fallback output (settags output [] dfa falltags) fallback
        /\ out <> []).
Proof.
  intros o fallback falltags coincide rec_fill Heof Htags.
  rewrite (gen_fill_falllback_eq output dfa from jump Heof Htags).
  fold o fallback falltags.
  assert (Hmodel : CodeModel_eqb (code_model o) REC_FUNC && fill_enable o = true
                   <-> rec_fill).
  { subst rec_fill. rewrite andb_true_iff.
    destruct (code_model o); simpl; intuition congruence. }
  assert (Hco : jump_coincides jump fallback falltags = true <-> coincide)
    by apply jump_coincides_iff.
  eexists. split; [reflexivity|].
  destruct (jump_coincides jump fallback falltags) eqn:Hj;
    destruct (CodeModel_eqb (code_model o) REC_FUNC && fill_enable o) eqn:Hm; simpl.
  - split; [|split].
    + split; [intros H; exfalso; exact (gen_goto_fallback_nonempty _ _ _ H)|].
      intros [_ Hn]. exfalso. apply Hn. apply Hmodel. reflexivity.
    + intros _. reflexivity.
    + intros _. split; [reflexivity | apply gen_goto_fallback_nonempty].
  - split; [|split].
    + split; [intros _ | reflexivity]. split; [apply Hco; reflexivity|].
      intros Hn. apply Hmodel in Hn. discriminate Hn.
    + intros Hn. exfalso. apply Hn. split; [apply Hco; reflexivity|].
      intros Hr. apply Hmodel in Hr. discriminate Hr.
    + intros Hr. apply Hmodel in Hr. discriminate Hr.
  - split; [|split].
    + split; [intros H; exfalso; exact (gen_goto_fallback_nonempty _ _ _ H)|].
      intros [Hc _]. apply Hco in Hc. discriminate Hc.
    + intros _. reflexivity.
    + intros _. split; [reflexivity | apply gen_goto_fallback_nonempty].
  - split; [|split].
    + split; [intros H; exfalso; exact (gen_goto_fallback_nonempty _ _ _ H)|].
      intros [Hc _]. apply Hco in Hc. discriminate Hc.
    + intros _. reflexivity.
    + intros _. split; [reflexivity | apply gen_goto_fallback_nonempty].
Qed.


Lemma gen_if_no_tail (o : opt_t) (cond : string) (body stmts : CodeList) :
  gen_if o cond body None stmts = stmts ++ [code_if_then_else cond body None].
Proof. unfold gen_if. destruct (CodeModel_eqb _ _); reflexivity. Qed.

(** [gen_fill] without an end-of-input rule and with YYFILL enabled: an
    optional state-set, then the YYFILL statement, under the less-than guard
    when fill checks are on. *)
Lemma gen_fill_noeof (output : Output) (stmts : CodeList) (tail : option CodeList)
    (dfa : Adfa) (from : State) (jump : option CodeJump) (out : CodeList) :
  let o := opts (block output) in
  fill_eof o = NOEOF -> fill_enable o = true ->
  fill_ output stmts tail dfa from jump = Some out ->
  exists st,
    (if storable_state o
     then exists fl, fill_label (heap (fill_state from)) = Some fl
                     /\ st = gen_state_set argsubst output [] (u32 (index fl))
     else st = [])
    /\ out = (if fill_check o
              then gen_if o (gen_less_than argsubst o (fill from))
                     (st ++ [fill_stmt argsubst o (fill from)]) tail stmts
              else append_opt (stmts ++ st ++ [fill_stmt argsubst o (fill from)]) tail).
Proof.
  intros o Heof Hen H. unfold gen_fill in H. fold o in H.
  unfold fill_need in H. rewrite Heof, Hen in H. simpl in H.
  assert (Hst : exists st,
            (if storable_state o
             then exists fl, fill_label (heap (fill_state from)) = Some fl
                             /\ st = gen_state_set argsubst output [] (u32 (index fl))
             else st = [])
            /\ (if fill_check o
                   && match st ++ [fill_stmt argsubst o (fill from)] with
                      | [] => false | _ :: _ => true end
                then ret (gen_if o (gen_less_than argsubst o (fill from))
                            (st ++ [fill_stmt argsubst o (fill from)]) tail stmts)
                else ret (append_opt (stmts ++ st ++ [fill_stmt argsubst o (fill from)]) tail))
               = Some out).
  { unfold fill_stmt. destruct (storable_state o).
    - destruct (fill_label (heap (fill_state from))) as [fl|]; simpl in H; [|discriminate].
      exists (gen_state_set argsubst output [] (u32 (index fl))).
      split; [exists fl; split; reflexivity | exact H].
    - simpl in H. exists []. split; [reflexivity | exact H]. }
  destruct Hst as [st [Hchar Hout]]. exists st. split; [exact Hchar|].
  assert (Hne : match st ++ [fill_stmt argsubst o (fill from)] with
                | [] => false | _ :: _ => true end = true).
  { destruct st; reflexivity. }
  rewrite Hne, andb_true_r in Hout.
  destruct (fill_check o); inversion Hout; reflexivity.
Qed.

(** The less-than guard of [gen_fill] asks for [fill_need] characters. *)
Lemma gen_fill_guard (output : Output) (stmts : CodeList) (tail : option CodeList)
    (dfa : Adfa) (from : State) (jump : option CodeJump) (out : CodeList) :
  let o := opts (block output) in
  fill_ output stmts tail dfa from jump = Some out ->
  exists body,
    out = if fill_check o && match body with [] => false | _ :: _ => true end
          then gen_if o (gen_less_than argsubst o (fill_need o from)) body tail stmts
          else append_opt (stmts ++ body) tail.
Proof.
  intros o H. unfold gen_fill in H. fold o in H.
  apply bind_Some in H. destruct H as [body [_ H]]. exists body.
  destruct (fill_check o && match body with [] => false | _ :: _ => true end);
    inversion H; reflexivity.
Qed.

Lemma fill_label_tail (output : Output) (s : State) (stmts : CodeList) :
  match fill_label s with
  | Some fl =>
      if CodeModel_eqb (code_model (opts (block output))) GOTO_LABEL
      then ret (stmts ++ [code_slabel (gen_fill_label output (index fl))])
      else ret stmts
  | None => ret stmts
  end = Some (stmts ++ fill_label_stmt output s).
Proof.
  unfold fill_label_stmt. destruct (fill_label s); [|rewrite app_nil_r; reflexivity].
  destruct (CodeModel_eqb _ _); [|rewrite app_nil_r]; reflexivity.
Qed.

(** [gen_fill_and_label] returns when the state has a span to look at (with
    YYFILL enabled) and, with storable state, the state to resume at has its
    fill label. *)
Lemma gen_fill_and_label_returns (output : Output) (stmts : CodeList) (dfa : Adfa)
    (s : State) :
  let o := opts (block output) in
  (fill_enable o = true -> span (go s) <> []) ->
  (fill_enable o = true -> storable_state o = true -> fill_eof o = NOEOF ->
     fill_label (heap (fill_state s)) <> None) ->
  exists out, fill_and_label output stmts dfa s = Some out.
Proof.
  intros o Hspan Hlabel. unfold gen_fill_and_label. fold o.
  assert (Htail : forall l, exists out,
            match fill_label s with
            | Some fl =>
                if CodeModel_eqb (code_model o) GOTO_LABEL
                then ret (l ++ [code_slabel (gen_fill_label output (index fl))])
                else ret l
            | None => ret l
            end = Some out).
  { intros l. destruct (fill_label s); [destruct (CodeModel_eqb _ _)|]; eexists; reflexivity. }
  destruct (fill_enable o) eqn:Hen; [|simpl; apply Htail].
  unfold endstate, span_count.
  destruct (span (go s)) as [|sp sps] eqn:Hsp; [exfalso; apply (Hspan eq_refl); reflexivity|].
  cbn [length DCHECK bind ret N.of_nat N.ltb N.compare].
  destruct (negb _ && (fill_eof o =? NOEOF)%N && (0 <? fill s)%N) eqn:Hc;
    [|cbn [bind ret]; apply Htail].
  apply andb_true_iff in Hc. destruct Hc as [Hc _].
  apply andb_true_iff in Hc. destruct Hc as [_ Heof].
  unfold gen_fill, fill_need. fold o. rewrite Hen, Heof. cbn [negb andb].
  apply N.eqb_eq in Heof.
  destruct (storable_state o) eqn:Hss.
  - destruct (fill_label (heap (fill_state s))) as [fl|] eqn:Hfl;
      [|exfalso; apply (Hlabel eq_refl eq_refl Heof); reflexivity].
    cbn [bind ret]. destruct (fill_check o && _); cbn [bind ret]; apply Htail.
  - cbn [bind ret]. destruct (fill_check o && _); cbn [bind ret]; apply Htail.
Qed.

(** [gen_fill_and_label] emits a fill exactly when YYFILL is enabled, the
    state is not an end state, there is no end-of-input rule and the state
    needs at least one character: then the code is an optional state-set and
    the YYFILL statement for [fill s] characters, under the guard for [fill s]
    characters when fill checks are on; otherwise the code is the tag actions
    of the end-of-input rule and the fill label. *)
Lemma gen_fill_and_label_code (output : Output) (stmts : CodeList) (dfa : Adfa)
    (s : State) (out : CodeList) :
  fill_and_label output stmts dfa s = Some out ->
  let o := opts (block output) in
  let eof_rule := negb (fill_eof o =? NOEOF)%N in
  let required := fill_enable o = true /\ endstate heap s = Some false
                  /\ fill_eof o = NOEOF /\ (0 < fill s)%N in
  (required ->
     exists st,
       (if storable_state o
        then exists fl, fill_label (heap (fill_state s)) = Some fl
                        /\ st = gen_state_set argsubst output [] (u32 (index fl))
        else st = [])
       /\ out = stmts
                ++ fill_guard argsubst o (fill s) (st ++ [fill_stmt argsubst o (fill s)])
                ++ fill_label_stmt output s)
  /\ (~ required ->
      out = (if eof_rule then settags output stmts dfa (go_tags (go s)) else stmts)
            ++ fill_label_stmt output s)
  /\ (endstate heap s = Some true -> ~ required)
  /\ (forall from, fill_need o from = if eof_rule then 1%N else fill from)
  /\ (forall stmts' tail from jump out',
        fill_ output stmts' tail dfa from jump = Some out' ->
        exists body,
          out' = if fill_check o && match body with [] => false | _ :: _ => true end
                 then gen_if o (gen_less_than argsubst o (if eof_rule then 1%N else fill from))
                        body tail stmts'
                 else append_opt (stmts' ++ body) tail).
Proof.
  intros H o eof_rule required. subst required eof_rule o.
  assert (Hneed : forall from,
            fill_need (opts (block output)) from
            = if negb (fill_eof (opts (block output)) =? NOEOF)%N then 1%N else fill from)
    by reflexivity.
  split; [|split; [|split; [|split]]].
  4: exact Hneed.
  4: { intros stmts' tail from jump out' H'. rewrite <- Hneed.
       exact (gen_fill_guard _ _ _ _ _ _ H'). }
  3: { intros He (_ & He' & _). congruence. }
  - intros (Hen & Hend & Heof & Hfill).
    unfold gen_fill_and_label in H.
    rewrite Hen, Hend in H. simpl in H.
    apply N.eqb_eq in Heof. apply N.ltb_lt in Hfill. rewrite Heof, Hfill in H. simpl in H.
    apply bind_Some in H. destruct H as [out1 [H1 H]].
    rewrite fill_label_tail in H. inversion H; subst out. clear H.
    apply N.eqb_eq in Heof.
    destruct (gen_fill_noeof _ _ _ _ _ _ Heof Hen H1) as [st [Hchar Hout]].
    exists st. split; [exact Hchar|]. rewrite Hout. unfold fill_guard.
    destruct (fill_check (opts (block output))); simpl.
    + rewrite gen_if_no_tail, <- app_assoc. reflexivity.
    + rewrite <- !app_assoc. reflexivity.
  - intros Hnot. unfold gen_fill_and_label in H.
    assert (Hc : (if fill_enable (opts (block output))
                  then e <- endstate heap s ;;
                       ret (negb e && (fill_eof (opts (block output)) =? NOEOF)%N
                            && (0 <? fill s)%N)
                  else ret false) = Some false
                 \/ (if fill_enable (opts (block output))
                     then e <- endstate heap s ;;
                          ret (negb e && (fill_eof (opts (block output)) =? NOEOF)%N
                               && (0 <? fill s)%N)
                     else ret false) = None).
    { destruct (fill_enable (opts (block output))) eqn:Hen; [|left; reflexivity].
      destruct (endstate heap s) as [e|] eqn:Hend; [|right; reflexivity]. simpl.
      destruct e; [left; reflexivity|]. simpl.
      destruct (fill_eof (opts (block output)) =? NOEOF)%N eqn:Heof; [|left; reflexivity].
      destruct (0 <? fill s)%N eqn:Hfill; [|left; reflexivity].
      exfalso. apply Hnot.
      apply N.eqb_eq in Heof. apply N.ltb_lt in Hfill. auto. }
    destruct Hc as [Hc | Hc]; rewrite Hc in H; [|discriminate]. simpl in H.
    rewrite fill_label_tail in H. inversion H. reflexivity.
Qed.

(** Whether a state must get a fill at its entry can be decided. *)
Lemma fill_required_dec (output : Output) (s : State) :
  let o := opts (block output) in
  let required := fill_enable o = true /\ endstate heap s = Some false
                  /\ fill_eof o = NOEOF /\ (0 < fill s)%N in
  required \/ ~ required.
Proof.
  intros o required. subst required.
  destruct (fill_enable o); [|right; intros (H & _); discriminate H].
  destruct (endstate heap s) as [[|]|]; [right; intros (_ & H & _); discriminate H | |
                                         right; intros (_ & H & _); discriminate H].
  destruct (N.eq_dec (fill_eof o) NOEOF) as [He | He]; [|right; intros (_ & _ & H & _); auto].
  destruct (N.lt_ge_cases 0 (fill s)) as [Hf | Hf]; [left; auto|].
  right. intros (_ & _ & _ & H). lia.
Qed.

(** The code of [gen_fill_and_label] in three parts: the fill, the tag actions
    of the end-of-input rule, the fill label. *)
Lemma gen_fill_and_label_parts (output : Output) (dfa : Adfa) (s : State) (F : CodeList) :
  let o := opts (block output) in
  let eof_rule := negb (fill_eof o =? NOEOF)%N in
  let required := fill_enable o = true /\ endstate heap s = Some false
                  /\ fill_eof o = NOEOF /\ (0 < fill s)%N in
  fill_and_label output [] dfa s = Some F ->
  exists fillcode,
    F = fillcode ++ (if eof_rule then settags output [] dfa (go_tags (go s)) else [])
                 ++ fill_label_stmt output s
    /\ (required ->
        exists st,
          (if storable_state o
           then exists fl, fill_label (heap (fill_state s)) = Some fl
                           /\ st = gen_state_set argsubst output [] (u32 (index fl))
           else st = [])
          /\ fillcode = fill_guard argsubst o (fill s) (st ++ [fill_stmt argsubst o (fill s)]))
    /\ (~ required -> fillcode = []).
Proof.
  intros o eof_rule required HF.
  destruct (@gen_fill_and_label_code output [] dfa s F HF) as (Hreq & Hnot & _).
  destruct (fill_required_dec output s) as [Hr | Hr].
  - destruct (Hreq Hr) as [st [Hst HFeq]].
    exists (fill_guard argsubst o (fill s) (st ++ [fill_stmt argsubst o (fill s)])).
    split; [|split].
    + destruct Hr as (_ & _ & Heof & _). subst eof_rule. fold o in Heof.
      rewrite Heof, N.eqb_refl. exact HFeq.
    + intros _. exists st. split; [exact Hst | reflexivity].
    + intros Hn. contradiction.
  - exists []. split; [|split].
    + exact (Hnot Hr).
    + intros Hn. contradiction.
    + reflexivity.
Qed.

(** The number of characters in [gen_fill]: the less-than guard is for
    [need] characters, and the YYFILL invocation is the one for [need]
    characters, where [need] is 1 with the end-of-input rule and the fill of
    the state without it. *)
Lemma gen_fill_need (output : Output) (stmts : CodeList) (tail : option CodeList)
    (dfa : Adfa) (from : State) (jump : option CodeJump) (out : CodeList) :
  let o := opts (block output) in
  let eof_rule := negb (fill_eof o =? NOEOF)%N in
  let need := if eof_rule then 1%N else fill from in
  fill_ output stmts tail dfa from jump = Some out ->
  exists body st rematch fallback,
    out = (if fill_check o && match body with [] => false | _ :: _ => true end
           then gen_if o (gen_less_than argsubst o need) body tail stmts
           else append_opt (stmts ++ body) tail)
    /\ body = (if fill_enable o then
                 if eof_rule && negb (storable_state o) then
                   let call := fill_call argsubst o need
                               +:+ (if fill_naked o then "" else " == 0") in
                   if negb (is_empty (var_fill o))
                   then gen_if o (var_fill o) rematch (Some fallback)
                          (st ++ [if fill_naked o then code_text call else code_stmt call])
                   else gen_if o call rematch (Some fallback) st
                 else st ++ [fill_stmt argsubst o need]
               else if eof_rule && negb (storable_state o) then fallback else []).
Proof.
  intros o eof_rule need H. unfold gen_fill in H. fold o in H.
  change (fill_need o from) with need in H.
  apply bind_Some in H. destruct H as [body [Hbody H]]. exists body.
  assert (Hout : out = (if fill_check o && match body with [] => false | _ :: _ => true end
                        then gen_if o (gen_less_than argsubst o need) body tail stmts
                        else append_opt (stmts ++ body) tail)).
  { destruct (fill_check o && _); inversion H; reflexivity. }
  clear H. fold eof_rule in Hbody.
  destruct (fill_enable o).
  - apply bind_Some in Hbody. destruct Hbody as [st [_ Hbody]].
    destruct (eof_rule && negb (storable_state o)).
    + apply bind_Some in Hbody. destruct Hbody as [rematch [_ Hbody]].
      apply bind_Some in Hbody. destruct Hbody as [fallback [_ Hbody]].
      exists st, rematch, fallback. split; [exact Hout|].
      inversion Hbody. cbv zeta. destruct (negb (is_empty (var_fill o))); reflexivity.
    + exists st, [], []. split; [exact Hout|]. inversion Hbody. reflexivity.
  - destruct (eof_rule && negb (storable_state o)).
    + apply bind_Some in Hbody. destruct Hbody as [fallback [_ Hbody]].
      exists [], [], fallback. split; [exact Hout|]. inversion Hbody. reflexivity.
    + exists [], [], []. split; [exact Hout|]. inversion Hbody. reflexivity.
Qed.

End Fill.

Section RuleState.

Variable argsubst : string -> string -> string -> bool -> string -> string.
Variable emit_skeleton_action : Output -> CodeList -> Adfa -> N -> CodeList.

(** The next state of a rule is the next condition in loop/switch mode with
    conditions, and -1 in every other case. *)
Lemma next_state_of_cases (o : opt_t) (dfa : Adfa) (next_cond : string) :
  next_state_of o dfa next_cond
  = match code_model o with
    | LOOP_SWITCH => if is_empty (dfa_cond dfa) then "-1" else next_cond
    | GOTO_LABEL | REC_FUNC => "-1"
    end.
Proof.
  unfold next_state_of. destruct (code_model o); simpl; rewrite ?orb_true_r, ?orb_false_r;
    reflexivity.
Qed.

Lemma gen_cond_set_app (output : Output) (stmts : CodeList) (cond : string) :
  gen_cond_set argsubst output stmts cond = stmts ++ gen_cond_set argsubst output [] cond.
Proof. unfold gen_cond_set. destruct (cond_set_naked _); reflexivity. Qed.

Lemma gen_continue_yyloop_app (output : Output) (stmts : CodeList) (next : string) :
  gen_continue_yyloop output stmts next = stmts ++ gen_continue_yyloop output [] next.
Proof. unfold gen_continue_yyloop. rewrite <- app_assoc. reflexivity. Qed.

(** What [emit_rule] stores with storable state (and not for the skeleton):
    its code is the final tag actions, then the state-set, then the rest of
    the action, and the state that is set is read off the test on the code
    model, which names loop/switch mode only. *)
Lemma emit_rule_stored_state (output : Output) (stmts : CodeList) (dfa : Adfa)
    (rule_idx : N) (out : CodeList) :
  let o := opts (block output) in
  target o <> Target_SKELETON ->
  storable_state o = true ->
  emit_rule argsubst emit_skeleton_action output stmts dfa rule_idx = Some out ->
  exists rule pre post,
    of_nth (rules dfa) rule_idx = Some rule
    /\ gen_fintags argsubst output stmts dfa rule = Some pre
    /\ let cond := match semact_cond (semact rule) with
                   | None => dfa_cond dfa
                   | Some c => c
                   end in
       let next_state :=
         match code_model o with
         | LOOP_SWITCH =>
             if is_empty (dfa_cond dfa) then "-1" else gen_cond_enum_elem o cond
         | GOTO_LABEL | REC_FUNC => "-1"
         end in
       out = gen_state_set argsubst output pre next_state ++ post.
Proof.
  intros o Htarget Hss H. unfold emit_rule in H. fold o in H.
  apply bind_Some in H. destruct H as [rule [Hrule H]].
  apply bind_Some in H. destruct H as [pre [Hpre H]].
  exists rule, pre.
  assert (Ht : Target_eqb (target o) Target_SKELETON = false)
    by (destruct (target o); simpl; congruence).
  rewrite Ht, Hss, next_state_of_cases in H.
  rewrite (gen_continue_yyloop_app output) in H.
  set (S1 := gen_state_set argsubst output pre _) in H.
  assert (Hcs : exists A,
            (if negb (match semact_cond (semact rule) with
                      | None => dfa_cond dfa | Some c => c end =? dfa_cond dfa)%string
                && negb (CodeModel_eqb (code_model o) LOOP_SWITCH && true)
             then gen_cond_set argsubst output S1
                    (gen_cond_enum_elem o match semact_cond (semact rule) with
                                          | None => dfa_cond dfa | Some c => c end)
             else S1) = S1 ++ A).
  { destruct (negb _ && negb _).
    - rewrite gen_cond_set_app. eexists; reflexivity.
    - exists []. rewrite app_nil_r. reflexivity. }
  destruct Hcs as [A HA]. rewrite HA in H. clear HA.
  assert (Hpost : exists B, out = (S1 ++ A) ++ B).
  { remember (S1 ++ A) as X eqn:HX. clear HX.
    destruct (negb (autogen (semact rule))).
    - apply bind_Some in H. destruct H as [Y [HY H]]. inversion H. clear H.
      assert (HC : exists C, Y = X ++ C).
      { destruct (indentation_sensitive o).
        - apply bind_Some in HY. destruct HY as [ls [_ HY]]. inversion HY.
          destruct (is_empty (setup dfa)), (line_dirs o); simpl;
            rewrite <- ?app_assoc; eexists; reflexivity.
        - inversion HY.
          destruct (is_empty (setup dfa)), (line_dirs o); simpl;
            rewrite <- ?app_assoc; eexists; reflexivity. }
      destruct HC as [C HC]. rewrite HC.
      destruct (line_dirs o); rewrite <- ?app_assoc; eexists; reflexivity.
    - destruct (code_model o); inversion H; eexists; reflexivity. }
  destruct Hpost as [B HB]. exists (A ++ B).
  split; [exact Hrule|]. split; [exact Hpre|]. simpl.
  rewrite HB, <- app_assoc. reflexivity.
Qed.

End RuleState.

(** ** The properties on the example inputs *)

(** C7. In rec/func mode with storable state, the rule of condition [c1]
    that goes to condition [c2] stores the state -1 and sets the condition
    with YYSETCONDITION, although the comments of [emit_rule] name rec/func
    mode beside loop/switch mode as a mode in which the next state is the
    next condition and in which YYSETCONDITION is omitted. Loop/switch mode
    stores the enum value of the next condition ([yycc2]) on the same rule,
    and goto/label mode stores -1. *)
Theorem emit_rule_rec_func_state :
  code_model (opts (block output_rec_func)) = REC_FUNC
  /\ storable_state (opts (block output_rec_func)) = true
  /\ dfa_cond dfa_c1 = "c1"
  /\ gen_cond_enum_elem (opts (block output_rec_func)) "c2" = "yycc2"
  /\ emit_rule argsubst_ex skeleton_ex output_rec_func [] dfa_c1 0
     = Some [code_stmt "YYSETSTATE(-1)"; code_stmt "YYSETCONDITION(yycc2)";
             code_text "return 1;"]
  /\ emit_rule argsubst_ex skeleton_ex output_loop_switch [] dfa_c1 0
     = Some [code_stmt "YYSETSTATE(yycc2)"; code_text "return 1;"]
  /\ emit_rule argsubst_ex skeleton_ex output_goto_state [] dfa_c1 0
     = Some [code_stmt "YYSETSTATE(-1)"; code_stmt "YYSETCONDITION(yycc2)";
             code_text "return 1;"].
Proof. repeat split; reflexivity. Qed.

(** With an end-of-input rule, the fallback to state 1 is elided before the
    jump to state 1, and emitted before the jump that carries tags. *)
Lemma gen_fill_falllback_elided_witness :
  gen_fill_falllback heap_ex argsubst_ex buf_label_ex iscopy_ex isadd_ex isset_ex
    (fallback_ex 1%nat TCID0) output_eof dfa_ex (heap_ex 0%nat) (Some jump_ex) = Some []
  /\ gen_fill_falllback heap_ex argsubst_ex buf_label_ex iscopy_ex isadd_ex isset_ex
       (fallback_ex 1%nat TCID0) output_eof dfa_ex (heap_ex 0%nat) (Some jump_tagged)
     = Some [code_goto "yy1"].
Proof.
  assert (Heof : fill_eof (opts (block output_eof)) <> NOEOF) by discriminate.
  assert (Htags : go_tags (go (heap_ex 0%nat)) <> TCID0 ->
                  snd (fallback_ex 1%nat TCID0 dfa_ex (opts (block output_eof))
                         (heap_ex 0%nat)) = go_tags (go (heap_ex 0%nat)))
    by (intros _; reflexivity).
  split.
  - destruct (@gen_fill_falllback_elided heap_ex argsubst_ex buf_label_ex iscopy_ex isadd_ex
                isset_ex (fallback_ex 1%nat TCID0) output_eof dfa_ex (heap_ex 0%nat)
                (Some jump_ex) Heof Htags) as [out [Hout [Hiff _]]].
    rewrite Hout. f_equal. apply Hiff. split.
    + exists jump_ex. repeat split; reflexivity.
    + intros [Hm _]. discriminate Hm.
  - destruct (@gen_fill_falllback_elided heap_ex argsubst_ex buf_label_ex iscopy_ex isadd_ex
                isset_ex (fallback_ex 1%nat TCID0) output_eof dfa_ex (heap_ex 0%nat)
                (Some jump_tagged) Heof Htags) as [out [Hout [_ [Hne _]]]].
    rewrite Hout. f_equal. apply Hne.
    intros [[j [Hj [_ [Ht _]]]] _]. inversion Hj. subst j. discriminate Ht.
Defined.

(** C3, as stated, fails in both directions for a state with hoisted tags,
    whose fallback transition carries the hoisted command list 1: the
    fallback to state 1 is elided before the jump to state 1 without tags,
    although the jump does not have the tag commands of the fallback; and it
    is emitted before the jump to state 1 with the command list 1, although
    destination, tag commands and skip of the jump are those of the fallback
    and the model is goto/label. *)
Lemma gen_fill_falllback_tags_counterexample :
  go_tags (go state_hoisted_spans) = 1%N
  /\ fallback_ex 1%nat 1%N dfa_ex (opts (block output_eof)) state_hoisted_spans = (1%nat, 1%N)
  /\ code_model (opts (block output_eof)) = GOTO_LABEL
  /\ (jump_to jump_ex = 1%nat /\ jump_tags jump_ex <> 1%N /\ jump_skip jump_ex = false
      /\ gen_fill_falllback heap_ex argsubst_ex buf_label_ex iscopy_ex isadd_ex isset_ex
           (fallback_ex 1%nat 1%N) output_eof dfa_ex state_hoisted_spans (Some jump_ex)
         = Some [])
  /\ (jump_to jump_tagged = 1%nat /\ jump_tags jump_tagged = 1%N
      /\ jump_skip jump_tagged = false
      /\ gen_fill_falllback heap_ex argsubst_ex buf_label_ex iscopy_ex isadd_ex isset_ex
           (fallback_ex 1%nat 1%N) output_eof dfa_ex state_hoisted_spans (Some jump_tagged)
         = Some [code_goto "yy1"]).
Proof. repeat split; try reflexivity. discriminate. Qed.





(** Two blocks that agree on the condition [c1]: it is listed once. *)
Lemma expand_cond_enum_error_witness :
  target (total_opts (mk_output opts_code [block_a] [block_b])) = Target_CODE
  /\ referenced_blocks (mk_output opts_code [block_a] [block_b]) fmt_all "types:re2c"
     = OK [block_a; block_b]
  /\ ~ collision (qualified_conds [block_a; block_b])
  /\ expand_cond_enum argsubst_ex (mk_output opts_code [block_a] [block_b]) fmt_all
     = OK (Some (code_enum "YYCONDTYPE" ["yycc1"; "yycc2"; "yycc3"] None)).
Proof.
  split; [reflexivity|]. split; [reflexivity|].
  destruct (@expand_cond_enum_error argsubst_ex (mk_output opts_code [block_a] [block_b])
              fmt_all [block_a; block_b] eq_refl eq_refl) as [Hiff _].
  split; [|reflexivity].
  intros Hc. apply Hiff in Hc. discriminate Hc.
Defined.

(** C8, as stated, fails in both directions: a directive that names a block
    that does not exist returns an error although no two conditions collide,
    and with the DOT target no error is returned although the two blocks
    give different numbers to the condition [c1]. *)
Lemma expand_cond_enum_counterexample :
  (is_fail (expand_cond_enum argsubst_ex (mk_output opts_code [block_a] [block_b])
              (fmt_named ["lexer"])) = true
   /\ ~ collision (qualified_conds [block_a; block_b]))
  /\ (is_fail (expand_cond_enum argsubst_ex (mk_output opts_dot [block_a] [block_c]) fmt_all)
      = false
      /\ collision (qualified_conds [block_a; block_c])).
Proof.
  split; split.
  - reflexivity.
  - intros Hc. apply add_conditions_from_blocks_fail_iff in Hc. discriminate Hc.
  - reflexivity.
  - exists (mk_cond "yycc1" 0), (mk_cond "yycc1" 7). simpl.
    repeat split; auto. discriminate.
Qed.

(** * Further properties of the pass *)

(** ** States *)

Section StateProperties.

Variable heap : StatePtr -> State.

Lemma span_count_gt_1 (g : CodeGo) :
  (1 <? span_count g)%N = true <-> exists a b l, span g = a :: b :: l.
Proof.
  unfold span_count. rewrite N.ltb_lt. destruct (span g) as [|a [|b l]]; simpl.
  - split; [lia | intros (a & b & l & H); discriminate].
  - split; [lia | intros (a' & b & l & H); discriminate].
  - split; [intros _; exists a, b, l; reflexivity | lia].
Qed.

Lemma need_yych_arg_eq (s : State) :
  need_yych_arg heap s
  = Some (Action.Kind_eqb (kind (action s)) Action.MOVE && (1 <? span_count (go s))%N).
Proof.
  unfold need_yych_arg, omit_peek, endstate.
  destruct (1 <? span_count (go s))%N eqn:Hc.
  - apply span_count_gt_1 in Hc. destruct Hc as (a & b & l & Hsp).
    unfold span_count. rewrite Hsp.
    replace (N.of_nat (length (a :: b :: l)) =? 1)%N with false
      by (symmetry; apply N.eqb_neq; simpl length; lia).
    replace (0 <? N.of_nat (length (a :: b :: l)))%N with true
      by (symmetry; apply N.ltb_lt; simpl length; lia).
    simpl. rewrite !orb_false_r, !andb_true_r.
    destruct (Action.Kind_eqb (kind (action s)) Action.MOVE); reflexivity.
  - rewrite !andb_false_r. reflexivity.
Qed.

(** X1. [need_yych_arg] never fails, and it asks for the [yych] argument
    exactly for a MOVE state with more than one span: with more than one span
    the state is no end state, and [omit_peek] can only hold through its
    first alternative. *)
Theorem need_yych_arg_move (s : State) :
  need_yych_arg heap s
  = Some (Action.Kind_eqb (kind (action s)) Action.MOVE && (1 <? span_count (go s))%N).
Proof. exact (need_yych_arg_eq s). Qed.

(** X2. An end state (one span, to a RULE or ACCEPT state) gets no peek
    statement and never takes [yych] as an argument. *)
Theorem endstate_no_peek (s : State) :
  endstate heap s = Some true ->
  omit_peek heap s = true
  /\ (forall stmts, gen_peek heap s stmts = stmts)
  /\ need_yych_arg heap s = Some false.
Proof.
  intros He. unfold endstate in He.
  apply bind_Some in He. destruct He as [u [_ He]].
  destruct (span (go s)) as [|sp rest] eqn:Hsp; [discriminate|].
  injection He as H. apply andb_true_iff in H. destruct H as [Hone Hk].
  assert (Hmove : Action.Kind_eqb (kind (action (heap (span_to sp)))) Action.MOVE = false).
  { destruct (kind (action (heap (span_to sp)))); simpl in *; congruence. }
  assert (Ho : omit_peek heap s = true).
  { unfold omit_peek. rewrite Hone, Hsp, Hmove. simpl. apply orb_true_r. }
  split; [exact Ho|]. split.
  - intros stmts. unfold gen_peek. rewrite Ho. reflexivity.
  - unfold need_yych_arg. apply N.eqb_eq in Hone. rewrite Hone. simpl.
    rewrite andb_false_r. reflexivity.
Qed.

End StateProperties.

(** ** Names of tag variables *)

Lemma append_inj_l (p a b : string) : p +:+ a = p +:+ b -> a = b.
Proof.
  induction p as [|c p IH]; simpl; intros H; [exact H|].
  inversion H. apply IH. assumption.
Qed.

Lemma i32_inj (a b : Z) : i32 a = i32 b -> a = b.
Proof.
  unfold i32. intros H. apply (f_equal NilEmpty.int_of_string) in H.
  rewrite !NilEmpty.isi in H. inversion H as [H'].
  apply (f_equal Z.of_int) in H'. rewrite !DecimalZ.of_to in H'. exact H'.
Qed.

Lemma i32_not_m (x : string) (z : Z) : "m" +:+ x <> i32 z.
Proof.
  unfold i32. intros H. apply (f_equal NilEmpty.int_of_string) in H.
  rewrite NilEmpty.isi in H. simpl in H.
  destruct (NilEmpty.uint_of_string x); simpl in H; discriminate H.
Qed.

(** X3. The names that [vartag_name] gives to tag variables do not clash:
    under one prefix, two names are equal only for the same version and the
    same kind of tag (the additional [m] keeps m-tags apart from s-tags). *)
Theorem vartag_name_inj (v1 v2 : tagver_t) (prefix : string) (m1 m2 : bool) :
  vartag_name v1 prefix m1 = vartag_name v2 prefix m2 -> v1 = v2 /\ m1 = m2.
Proof.
  unfold vartag_name. intros H. apply append_inj_l in H.
  destruct m1, m2; simpl in H.
  - inversion H as [H']. apply i32_inj in H'. auto.
  - exfalso. exact (@i32_not_m (i32 v1) v2 H).
  - exfalso. symmetry in H. exact (@i32_not_m (i32 v2) v1 H).
  - apply i32_inj in H. auto.
Qed.

(** ** Tag actions: what [gen_settags] appends *)

Section TagActionsAppend.

Variable argsubst : string -> string -> string -> bool -> string -> string.
Variables iscopy isadd isset : tcmd_t -> bool.

Local Abbreviation settags_cmds := (gen_settags_cmds argsubst iscopy isadd isset).
Local Abbreviation settags := (gen_settags argsubst iscopy isadd isset).

Lemma gen_settag_action (output : Output) (tag : string) (n h : bool) :
  Forall (fun c => is_tag_action c = true) (gen_settag argsubst output [] tag n h).
Proof.
  unfold gen_settag. destruct (ApiStyle_eqb _ _); repeat constructor.
Qed.

Lemma vector_assign_action (l : list string) (r : string) :
  Forall (fun c => is_tag_action c = true) (vector_assign l r).
Proof. destruct l; repeat constructor. Qed.

Lemma flat_map_action {A : Type} (f : A -> CodeList) (l : list A) :
  (forall x, Forall (fun c => is_tag_action c = true) (f x)) ->
  Forall (fun c => is_tag_action c = true) (flat_map f l).
Proof.
  intros Hf. induction l as [|x l IH]; simpl; [constructor|].
  apply Forall_app. split; [apply Hf | exact IH].
Qed.

(** The statements that the loop over a command list appends do not depend
    on the list that it appends them to, and all of them are tag actions. *)
Lemma gen_settags_cmds_emits (output : Output) (dfa : Adfa) :
  forall (n : nat) (cmd : list tcmd_t),
    (length cmd <= n)%nat ->
    exists e, Forall (fun c => is_tag_action c = true) e
              /\ forall ta, settags_cmds output ta dfa cmd = ta ++ e.
Proof.
  induction n as [|n IHn]; intros cmd Hlen.
  - destruct cmd; [|simpl in Hlen; lia].
    exists []. split; [constructor | intros ta; simpl; rewrite app_nil_r; reflexivity].
  - destruct cmd as [|p next].
    { exists []. split; [constructor | intros ta; simpl; rewrite app_nil_r; reflexivity]. }
    simpl in Hlen. assert (Hlen' : (length next <= n)%nat) by lia.
    destruct (IHn next Hlen') as [e' [He' Hnext]].
    simpl.
    destruct (iscopy p).
    { eexists. split; [|intros ta; rewrite Hnext; unfold gen_assign;
                         rewrite <- app_assoc; reflexivity].
      apply Forall_app. split; [repeat constructor | exact He']. }
    destruct (isadd p).
    { set (is_mtag := existsb (Z.eqb (lhs p)) (mtagvers dfa)).
      set (le := vartag_expr argsubst (lhs p) (opts (block output)) is_mtag).
      set (re := vartag_expr argsubst (rhs p) (opts (block output)) is_mtag).
      exists ((if negb (lhs p =? rhs p)%Z then [code_assign le re None] else [])
              ++ flat_map (fun x => gen_settag argsubst output [] le (x =? TAGVER_BOTTOM)%Z true)
                   (rev (history_elems (history p)))
              ++ e').
      split.
      - apply Forall_app. split; [destruct (negb (lhs p =? rhs p)%Z); repeat constructor|].
        apply Forall_app. split; [|exact He'].
        apply flat_map_action. intros x. apply gen_settag_action.
      - intros ta. rewrite Hnext, fold_gen_settag.
        destruct (negb (lhs p =? rhs p)%Z); unfold gen_assign;
          rewrite <- ?app_assoc; reflexivity. }
    destruct (Api_eqb (api (opts (block output))) Api_CUSTOM).
    { eexists. split; [|intros ta; rewrite Hnext, gen_settag_app, <- app_assoc; reflexivity].
      apply Forall_app. split; [apply gen_settag_action | exact He']. }
    destruct (isset p); [|exists e'; split; [exact He' | intros ta; apply Hnext]].
    remember (existsb (Z.eqb (lhs p)) (mtagvers dfa)) as im eqn:Him. clear Him.
    generalize (gen_settags_run_add argsubst (opts (block output)) im p ([], [])).
    clear Hnext He' e' Hlen p. revert Hlen'.
    induction next as [|c q IHq]; intros Hlen' np.
    + eexists. split; [|intros ta; simpl; rewrite gen_settags_run_end_eq; reflexivity].
      apply Forall_app. split; apply vector_assign_action.
    + cbn [gen_settags_run]. destruct (isset c).
      * apply IHq. simpl in Hlen'. lia.
      * destruct (IHn (c :: q) Hlen') as [e' [He' Hrest]].
        eexists. split; [|intros ta; rewrite Hrest, gen_settags_run_end_eq, <- !app_assoc;
                           reflexivity].
        apply Forall_app. split; [apply vector_assign_action|].
        apply Forall_app. split; [apply vector_assign_action | exact He'].
Qed.

Lemma gen_settags_emits (output : Output) (ta : CodeList) (dfa : Adfa) (tcid : tcid_t) :
  settags output ta dfa tcid = ta ++ settags output [] dfa tcid
  /\ Forall (fun c => is_tag_action c = true) (settags output [] dfa tcid).
Proof.
  unfold gen_settags.
  destruct (match tcpool dfa tcid with [] => false | _ :: _ => true end
            && oldstyle_ctxmarker dfa).
  - destruct (Api_eqb _ _); [destruct (ApiStyle_eqb _ _)|];
      (split; [reflexivity | repeat constructor]).
  - destruct (@gen_settags_cmds_emits output dfa _ _ (le_n (length (tcpool dfa tcid))))
      as [e [He Hcmd]].
    rewrite (Hcmd ta), (Hcmd []). simpl. split; [reflexivity | exact He].
Qed.

(** X4. [gen_settags] only appends to the list that it is given, what it
    appends does not depend on that list, and every statement that it appends
    is a tag action: an assignment, a vector assignment or a tag-set
    statement, never a jump, a skip, a peek, a label or a conditional. *)
Theorem gen_settags_appends (output : Output) (ta : CodeList) (dfa : Adfa) (tcid : tcid_t) :
  settags output ta dfa tcid = ta ++ settags output [] dfa tcid
  /\ Forall (fun c => is_tag_action c = true) (settags output [] dfa tcid).
Proof. exact (gen_settags_emits output ta dfa tcid). Qed.

(** X5. Tag-command lists compose: when the list of [tcid] is the list of
    [t1] followed by the list of [t2], its code is the code of [t1] followed
    by the code of [t2], provided that the API is the custom one or that no
    run of "save" commands goes across the junction.  (Without the old-style
    context marker, which replaces the code of any list by one statement.) *)
Theorem gen_settags_compose (output : Output) (ta : CodeList) (dfa : Adfa)
    (tcid t1 t2 : tcid_t) :
  oldstyle_ctxmarker dfa = false ->
  tcpool dfa tcid = tcpool dfa t1 ++ tcpool dfa t2 ->
  api (opts (block output)) = Api_CUSTOM
  \/ boundary isset (tcpool dfa t1) (tcpool dfa t2) ->
  settags output ta dfa tcid
  = ta ++ settags output [] dfa t1 ++ settags output [] dfa t2.
Proof.
  intros Hold Hpool Hb.
  rewrite !(gen_settags_loop argsubst iscopy isadd isset _ _ _ _ Hold), Hpool.
  rewrite (@gen_settags_cmds_app argsubst iscopy isadd isset output dfa (tcpool dfa t2)
             (length (tcpool dfa t1)) (tcpool dfa t1) ta (le_n _)).
  - destruct (@gen_settags_cmds_emits output dfa _ _ (le_n (length (tcpool dfa t1))))
      as [e1 [_ H1]].
    destruct (@gen_settags_cmds_emits output dfa _ _ (le_n (length (tcpool dfa t2))))
      as [e2 [_ H2]].
    rewrite (H1 ta), (H1 []), (H2 (ta ++ e1)), (H2 []). simpl.
    rewrite <- app_assoc. reflexivity.
  - destruct Hb as [Hb | Hb]; [left; rewrite Hb; reflexivity | right; exact Hb].
Qed.

End TagActionsAppend.

(** ** Blocks named by a directive *)

Lemma find_block_with_name_first (output : Output) (name : string) :
  find_block_with_name output name
  = find (fun b => String.eqb (block_name b) name) (cblocks output ++ hblocks output).
Proof.
  unfold find_block_with_name.
  induction (cblocks output) as [|b bs IH]; simpl.
  - reflexivity.
  - destruct (String.eqb (block_name b) name); [reflexivity | exact IH].
Qed.

Lemma find_block_with_name_None (output : Output) (name : string) :
  find_block_with_name output name = None
  <-> forall b, In b (cblocks output ++ hblocks output) -> block_name b <> name.
Proof.
  rewrite find_block_with_name_first. split.
  - intros H b Hb. apply (find_none _ _ H) in Hb. apply String.eqb_neq. exact Hb.
  - intros H.
    destruct (find (fun b => String.eqb (block_name b) name)
                (cblocks output ++ hblocks output)) as [b|] eqn:Hf; [|reflexivity].
    apply find_some in Hf. destruct Hf as [Hin Hname]. apply String.eqb_eq in Hname.
    exfalso. exact (H b Hin Hname).
Qed.

Lemma find_blocks_loop_ok (output : Output) (directive : string) :
  forall (names : list string) (acc bs : blocks_t),
    find_blocks_loop output names acc directive = OK bs
    <-> exists found,
          bs = acc ++ found
          /\ Forall2 (fun n b => find_block_with_name output n = Some b) names found.
Proof.
  induction names as [|n names IH]; intros acc bs; simpl.
  - split.
    + intros H. inversion H. exists []. rewrite app_nil_r. split; constructor.
    + intros [found [Hbs HF]]. inversion HF. subst. rewrite app_nil_r. reflexivity.
  - destruct (find_block_with_name output n) as [b|] eqn:Hf.
    + rewrite IH. split; intros [found [Hbs HF]].
      * exists (b :: found). subst bs. rewrite <- app_assoc. split; [reflexivity|].
        constructor; assumption.
      * inversion HF as [|n' b' ns' found' Hb HF' E1 E2]. subst.
        assert (b' = b) by congruence. subst b'.
        exists found'. rewrite <- app_assoc. split; [reflexivity | exact HF'].
    + split; [intros H; discriminate H|].
      intros [found [_ HF]]. inversion HF; congruence.
Qed.

Lemma find_blocks_loop_fail (output : Output) (directive : string) :
  forall (names : list string) (acc : blocks_t),
    (forall msg, find_blocks_loop output names acc directive = FAIL msg ->
       exists n, In n names /\ find_block_with_name output n = None
                 /\ msg = "cannot find block '" +:+ n +:+ "' listed in `" +:+ directive
                          +:+ "` directive")
    /\ ((exists n, In n names /\ find_block_with_name output n = None) ->
        is_fail (find_blocks_loop output names acc directive) = true).
Proof.
  induction names as [|n names IH]; intros acc; simpl.
  - split; [intros msg H; discriminate H | intros [n [[] _]]].
  - destruct (find_block_with_name output n) as [b|] eqn:Hf.
    + destruct (IH (acc ++ [b])) as [IH1 IH2]. split.
      * intros msg H. destruct (IH1 msg H) as [m [Hm Hrest]]. exists m. split; [right|]; assumption.
      * intros [m [[Hm | Hm] Hnone]]; [subst; congruence|].
        apply IH2. exists m. split; assumption.
    + split.
      * intros msg H. inversion H. exists n. repeat split; [left; reflexivity | exact Hf].
      * intros _. reflexivity.
Qed.

(** X6. [find_blocks] looks every name up among the blocks of the output
    file and then of the header file: it succeeds exactly with the list of the
    first block of each name, in the order of the names (whatever the vector
    held before), and it fails exactly when some name has no block, with a
    message that quotes such a name and the directive. *)
Theorem find_blocks_found (output : Output) (names : list string) (blocks : blocks_t)
    (directive : string) :
  let named n b :=
    find (fun b => String.eqb (block_name b) n) (cblocks output ++ hblocks output) = Some b in
  let missing n :=
    forall b, In b (cblocks output ++ hblocks output) -> block_name b <> n in
  (forall bs, find_blocks output names blocks directive = OK bs <-> Forall2 named names bs)
  /\ (forall msg, find_blocks output names blocks directive = FAIL msg ->
        exists n, In n names /\ missing n
                  /\ msg = "cannot find block '" +:+ n +:+ "' listed in `" +:+ directive
                           +:+ "` directive")
  /\ (is_fail (find_blocks output names blocks directive) = true
      <-> exists n, In n names /\ missing n).
Proof.
  intros named missing. subst named missing. cbv beta. unfold find_blocks.
  destruct (find_blocks_loop_fail output directive names []) as [Hf1 Hf2].
  split; [|split].
  - intros bs. rewrite find_blocks_loop_ok. simpl. split.
    + intros [found [Hbs HF]]. subst bs. eapply Forall2_impl; [|exact HF].
      intros n b H. rewrite <- find_block_with_name_first. exact H.
    + intros HF. exists bs. split; [reflexivity|]. eapply Forall2_impl; [|exact HF].
      intros n b H. rewrite find_block_with_name_first. exact H.
  - intros msg H. destruct (Hf1 msg H) as [n [Hn [Hnone Hmsg]]].
    exists n. split; [exact Hn|]. split; [|exact Hmsg].
    apply find_block_with_name_None. exact Hnone.
  - split.
    + intros H. destruct (find_blocks_loop output names [] directive) as [bs|msg] eqn:Hl;
        [discriminate|].
      destruct (Hf1 msg eq_refl) as [n [Hn [Hnone _]]].
      exists n. split; [exact Hn|]. apply find_block_with_name_None. exact Hnone.
    + intros [n [Hn Hmiss]]. apply Hf2. exists n. split; [exact Hn|].
      apply find_block_with_name_None. exact Hmiss.
Qed.

(** ** Conditions gathered from blocks *)

Lemma add_condition_from_block_prefix (blk : OutputBlock) (acc acc' : StartConds)
    (c : StartCond) :
  add_condition_from_block blk acc c = OK acc' -> exists t, acc' = acc ++ t.
Proof.
  unfold add_condition_from_block.
  destruct (find _ acc) as [c0|].
  - destruct (cond_number c0 =? _)%N; [|discriminate].
    intros H. inversion H. exists []. rewrite app_nil_r. reflexivity.
  - intros H. inversion H. eexists. reflexivity.
Qed.

Lemma add_conditions_of_block_prefix (blk : OutputBlock) (cs acc acc' : StartConds) :
  add_conditions_of_block blk cs acc = OK acc' -> exists t, acc' = acc ++ t.
Proof.
  revert acc. induction cs as [|c cs IH]; intros acc; simpl.
  - intros H. inversion H. exists []. rewrite app_nil_r. reflexivity.
  - destruct (add_condition_from_block blk acc c) as [acc1|msg] eqn:H1; simpl;
      [|discriminate].
    intros H. apply add_condition_from_block_prefix in H1. destruct H1 as [t1 ->].
    apply IH in H. destruct H as [t ->]. exists (t1 ++ t). rewrite app_assoc. reflexivity.
Qed.

Lemma add_conditions_from_blocks_prefix (blocks : blocks_t) (acc acc' : StartConds) :
  add_conditions_from_blocks blocks acc = OK acc' -> exists t, acc' = acc ++ t.
Proof.
  revert acc. induction blocks as [|b bs IH]; intros acc; simpl.
  - intros H. inversion H. exists []. rewrite app_nil_r. reflexivity.
  - destruct (add_conditions_of_block b (conds b) acc) as [acc1|msg] eqn:H1; simpl;
      [|discriminate].
    intros H. apply add_conditions_of_block_prefix in H1. destruct H1 as [t1 ->].
    apply IH in H. destruct H as [t ->]. exists (t1 ++ t). rewrite app_assoc. reflexivity.
Qed.

(** Adding conditions that are all there already changes nothing. *)
Lemma add_conditions_of_block_present (blk : OutputBlock) (cs r : StartConds) :
  NoDup (map cond_name r) ->
  (forall c, In c cs -> In (qualified blk c) r) ->
  add_conditions_of_block blk cs r = OK r.
Proof.
  intros Hnd. induction cs as [|c cs IH]; intros Hin; simpl; [reflexivity|].
  pose proof (add_condition_from_block_step blk r c Hnd) as Hstep.
  assert (Hq : In (qualified blk c) r) by (apply Hin; left; reflexivity).
  destruct (add_condition_from_block blk r c) as [r1|msg]; simpl.
  - destruct Hstep as (_ & _ & Hsame). rewrite (Hsame Hq).
    apply IH. intros c' Hc'. apply Hin. right. exact Hc'.
  - exfalso. apply (NoDup_names_no_collision Hnd).
    eapply collision_incl; [|exact Hstep].
    intros x Hx. apply in_app_iff in Hx. destruct Hx as [Hx | [Hx | []]]; [exact Hx|].
    subst. exact Hq.
Qed.

Lemma add_conditions_from_blocks_present (blocks : blocks_t) (r : StartConds) :
  NoDup (map cond_name r) ->
  (forall c, In c (qualified_conds blocks) -> In c r) ->
  add_conditions_from_blocks blocks r = OK r.
Proof.
  intros Hnd. induction blocks as [|b bs IH]; intros Hin; simpl; [reflexivity|].
  rewrite add_conditions_of_block_present; simpl.
  - apply IH. intros c Hc. apply Hin. unfold qualified_conds. simpl.
    apply in_app_iff. right. exact Hc.
  - exact Hnd.
  - intros c Hc. apply Hin. unfold qualified_conds. simpl.
    apply in_app_iff. left. apply in_map. exact Hc.
Qed.

(** X7. [add_conditions_from_blocks] only extends the list that it is given
    (the conditions gathered so far keep their places), it keeps the names of
    the list distinct, and gathering from the same blocks once more changes
    nothing. *)
Theorem add_conditions_from_blocks_stable (blocks : blocks_t) (acc r : StartConds) :
  NoDup (map cond_name acc) ->
  add_conditions_from_blocks blocks acc = OK r ->
  (exists t, r = acc ++ t)
  /\ NoDup (map cond_name r)
  /\ add_conditions_from_blocks blocks r = OK r.
Proof.
  intros Hnd H.
  pose proof (add_conditions_from_blocks_spec blocks acc Hnd) as Hspec.
  rewrite H in Hspec. destruct Hspec as [Hnd' Hin].
  split; [exact (add_conditions_from_blocks_prefix _ _ H)|].
  split; [exact Hnd'|].
  apply add_conditions_from_blocks_present; [exact Hnd'|].
  intros c Hc. apply Hin. apply in_app_iff. right. exact Hc.
Qed.

Section DirectivesMore.

Variable argsubst : string -> string -> string -> bool -> string -> string.

(** X8. A condition enumeration that [expand_cond_enum] produces is never
    empty, its member names are distinct, its type is the condition type of
    the global options, and it carries the numbers of the conditions (one per
    name) in every code model but goto/label, where it carries none. *)
Theorem expand_cond_enum_enum (output : Output) (fmt : CodeFmt) (type : string)
    (ids : list string) (nums : option (list N)) :
  expand_cond_enum argsubst output fmt = OK (Some (code_enum type ids nums)) ->
  ids <> [] /\ NoDup ids
  /\ type = api_cond_type (total_opts output)
  /\ match nums with
     | None => code_model (total_opts output) = GOTO_LABEL
     | Some ns => code_model (total_opts output) <> GOTO_LABEL /\ length ns = length ids
     end.
Proof.
  unfold expand_cond_enum.
  destruct (Target_eqb (target (total_opts output)) Target_CODE) eqn:Ht; simpl;
    [|intros H; discriminate H].
  assert (Hgather : forall r,
    (match block_names fmt with
     | [] => conds <-- add_conditions_from_blocks (cblocks output) [] ;;
             add_conditions_from_blocks (hblocks output) conds
     | _ :: _ => tmpblocks <-- find_blocks output (block_names fmt) [] "types:re2c" ;;
                 add_conditions_from_blocks tmpblocks []
     end) = OK r -> NoDup (map cond_name r)).
  { intros r. destruct (block_names fmt) as [|n ns].
    - rewrite add_conditions_from_blocks_app. intros H.
      pose proof (add_conditions_from_blocks_spec (cblocks output ++ hblocks output) []
                    (NoDup_nil _)) as Hs.
      rewrite H in Hs. apply Hs.
    - destruct (find_blocks output (n :: ns) [] "types:re2c") as [bs|msg]; simpl;
        [|intros H; discriminate H].
      intros H. pose proof (add_conditions_from_blocks_spec bs [] (NoDup_nil _)) as Hs.
      rewrite H in Hs. apply Hs. }
  destruct (match block_names fmt with [] => _ | _ :: _ => _ end) as [cs|msg]; simpl;
    [|intros H; discriminate H].
  specialize (Hgather cs eq_refl).
  destruct cs as [|c cs]; [intros H; discriminate H|].
  unfold gen_cond_enum. rewrite Ht. simpl.
  destruct (format fmt); [intros H; discriminate H|].
  intros H. inversion H. subst. clear H.
  split; [discriminate|]. split; [exact Hgather|]. split; [reflexivity|].
  destruct (code_model (total_opts output)); simpl;
    [reflexivity | split; [discriminate | rewrite !length_map; reflexivity]
                 | split; [discriminate | rewrite !length_map; reflexivity]].
Qed.

Lemma maximum_bounds (l : list N) :
  (forall x, In x l -> (x <= maximum l)%N)
  /\ (maximum l = 0%N \/ In (maximum l) l).
Proof.
  induction l as [|x l [IH1 IH2]]; simpl.
  - split; [intros x [] | left; reflexivity].
  - split.
    + intros y [Hy | Hy]; [subst y; apply N.le_max_l|].
      apply N.le_trans with (maximum l); [exact (IH1 y Hy) | apply N.le_max_r].
    + right. destruct (N.max_spec x (maximum l)) as [[Hlt ->] | [_ ->]].
      * destruct IH2 as [H0 | Hin]; [lia | right; exact Hin].
      * left. reflexivity.
Qed.

(** C10. With the code target, the constant that a [maxfill:re2c] or
    [maxnmatch:re2c] directive expands to is the maximum of 1 and the maxima
    that the referenced blocks report: it is at least 1 and at least what any
    referenced block reports, it is 1 or what one of them reports, and it is
    1 when every referenced block reports 0. The referenced blocks are, for a
    directive with a list of names, the first block of each name among the
    blocks of the output file followed by those of the header, in the order
    of the names; and all of these blocks for a directive without a list.
    (With another target the directive expands to nothing.) *)
Theorem gen_yymax_value (output : Output) (kind : CodeKind) (fmt : CodeFmt) :
  let o := opts (block output) in
  let all := cblocks output ++ hblocks output in
  let named n b := find (fun b => String.eqb (block_name b) n) all = Some b in
  let referenced bs :=
    match block_names fmt with
    | [] => bs = all
    | _ :: _ => Forall2 named (block_names fmt) bs
    end in
  (target o <> Target_CODE -> gen_yymax argsubst output kind fmt = OK code_empty)
  /\ (target o = Target_CODE ->
      forall bs, referenced bs ->
        let m := N.max 1 (maximum (map (block_max kind) bs)) in
        gen_yymax argsubst output kind fmt
        = OK match format fmt with
             | Some f => code_text (argsubst f (api_sigil o) "max" true (u64 m))
             | None =>
                 code_const VarType_UINT
                   (match kind with MAXFILL => api_maxfill o | _ => api_maxnmatch o end)
                   (u64 m)
             end
        /\ (1 <= m)%N
        /\ (forall b, In b bs -> (block_max kind b <= m)%N)
        /\ (m = 1%N \/ exists b, In b bs /\ block_max kind b = m)
        /\ ((forall b, In b bs -> block_max kind b = 0%N) -> m = 1%N)).
Proof.
  intros o all named referenced. subst named referenced. cbv beta. split.
  - intros Ht. unfold gen_yymax. fold o.
    destruct (target o); simpl; [contradiction | reflexivity | reflexivity].
  - intros Ht bs Href m. split; [|split; [|split; [|split]]].
    + unfold gen_yymax. fold o. rewrite Ht. simpl.
      assert (Hmax :
        match block_names fmt with
        | [] => OK (max_among_blocks (hblocks output)
                      (max_among_blocks (cblocks output) 1 kind) kind)
        | _ :: _ =>
            tmpblocks <-- find_blocks output (block_names fmt) []
                            (match kind with MAXFILL => "max:re2c" | _ => "maxnmatch:re2c" end) ;;
            OK (max_among_blocks tmpblocks 1 kind)
        end = OK m).
      { destruct (block_names fmt) as [|n ns] eqn:Hn.
        - subst bs. rewrite max_among_blocks_app, max_among_blocks_maximum. reflexivity.
        - assert (Hfb : find_blocks output (n :: ns) []
                          (match kind with MAXFILL => "max:re2c" | _ => "maxnmatch:re2c" end)
                        = OK bs).
          { unfold find_blocks. apply find_blocks_loop_ok. exists bs.
            split; [reflexivity|]. eapply Forall2_impl; [|exact Href].
            intros n' b H. rewrite find_block_with_name_first. exact H. }
          rewrite Hfb. simpl. rewrite max_among_blocks_maximum. reflexivity. }
      rewrite Hmax. simpl. destruct (format fmt); reflexivity.
    + subst m. lia.
    + intros b Hb. subst m.
      destruct (maximum_bounds (map (block_max kind) bs)) as [H _].
      specialize (H (block_max kind b) (in_map _ _ _ Hb)). lia.
    + subst m. destruct (maximum_bounds (map (block_max kind) bs)) as [_ [H0 | Hin]].
      * left. rewrite H0. reflexivity.
      * destruct (N.max_spec 1 (maximum (map (block_max kind) bs))) as [[_ E] | [_ E]].
        -- right. apply in_map_iff in Hin. destruct Hin as [b [Hb Hin]].
           exists b. split; [exact Hin|]. rewrite E. exact Hb.
        -- left. exact E.
    + intros Hz. subst m. rewrite maximum_zero; [reflexivity|].
      intros x Hx. apply in_map_iff in Hx. destruct Hx as [b [Hb Hin]].
      rewrite <- Hb. apply Hz. exact Hin.
Qed.

(** X9. A [max:re2c] or [maxnmatch:re2c] directive fails exactly when the
    target is code and it names a block that does not exist; without a list
    of names it never fails. *)
Theorem gen_yymax_fail_iff (output : Output) (kind : CodeKind) (fmt : CodeFmt) :
  is_fail (gen_yymax argsubst output kind fmt) = true
  <-> target (opts (block output)) = Target_CODE
      /\ exists n, In n (block_names fmt)
                   /\ forall b, In b (cblocks output ++ hblocks output) -> block_name b <> n.
Proof.
  unfold gen_yymax.
  destruct (target (opts (block output))) eqn:Ht; simpl;
    [|split; [intros H; discriminate H | intros [H _]; discriminate H]
     |split; [intros H; discriminate H | intros [H _]; discriminate H]].
  destruct (block_names fmt) as [|n ns] eqn:Hn; simpl.
  - split; [destruct (format fmt); intros H; discriminate H | intros [_ [m [[] _]]]].
  - destruct (find_blocks_loop_fail output
                (match kind with MAXFILL => "max:re2c" | _ => "maxnmatch:re2c" end)
                (n :: ns) []) as [Hf1 Hf2].
    unfold find_blocks.
    destruct (find_blocks_loop output (n :: ns) [] _) as [bs|msg] eqn:Hl; simpl.
    + split; [destruct (format fmt); intros H; discriminate H|].
      intros [_ [m [Hm Hmiss]]]. exfalso.
      assert (Hfail : is_fail (@OK blocks_t bs) = true).
      { apply Hf2. exists m. split; [exact Hm|].
        apply find_block_with_name_None. exact Hmiss. }
      discriminate Hfail.
    + split; [|reflexivity]. intros _. split; [reflexivity|].
      destruct (Hf1 msg eq_refl) as [m [Hm [Hnone _]]].
      exists m. split; [exact Hm|]. apply find_block_with_name_None. exact Hnone.
Qed.

End DirectivesMore.

(** ** Final tags *)

Lemma NoDup_map_injective {A B : Type} (f : A -> B) (l : list A) :
  (forall x y, f x = f y -> x = y) -> NoDup l -> NoDup (map f l).
Proof.
  intros Hinj Hnd. induction Hnd as [|x l Hnotin Hnd IH]; simpl; constructor.
  - intros Hin. apply in_map_iff in Hin. destruct Hin as [y [Hy Hin]].
    apply Hinj in Hy. subst. contradiction.
  - exact IH.
Qed.

Section FinalTags.

Variable argsubst : string -> string -> string -> bool -> string -> string.

(** X10. For a capture tag that is not trailing, [expand_fintags] gives the
    elements of [yypmatch] at the indices [lsub], [lsub + 2], ... up to
    [hsub]: each index of the range at an even distance from [lsub] once, no
    index outside of the range, and nothing at all when [hsub < lsub]. *)
Theorem expand_fintags_capture (output : Output) (tag : Tag) :
  trailing tag = false -> capture tag = true ->
  let o := opts (block output) in
  exists idxs,
    expand_fintags argsubst output tag
    = map (render_code_array_elem o (fintag_expr argsubst "yypmatch" o)) idxs
    /\ NoDup idxs
    /\ forall i, In i idxs
                 <-> (lsub tag <= i <= hsub tag)%N /\ ((i - lsub tag) mod 2 = 0)%N.
Proof.
  intros Htr Hcap o. unfold expand_fintags. fold o. rewrite Htr, Hcap. simpl.
  set (count := if (lsub tag <=? hsub tag)%N
                then S (N.to_nat ((hsub tag - lsub tag) / 2)) else O).
  exists (map (fun k => (lsub tag + 2 * N.of_nat k)%N) (seq 0 count)).
  split; [rewrite map_map; reflexivity|]. split.
  - apply NoDup_map_injective; [intros x y H; lia | apply seq_NoDup].
  - intros i. rewrite in_map_iff. unfold count. split.
    + intros [k [Hi Hk]]. apply in_seq in Hk. subst i.
      replace (lsub tag + 2 * N.of_nat k - lsub tag)%N with (N.of_nat k * 2)%N by lia.
      rewrite N.Div0.mod_mul.
      destruct (lsub tag <=? hsub tag)%N eqn:Hle; [|simpl in Hk; lia].
      apply N.leb_le in Hle. split; [|reflexivity].
      pose proof (N.Div0.mul_div_le (hsub tag - lsub tag) 2) as Hd. lia.
    + intros [[Hlo Hhi] Hmod].
      exists (N.to_nat ((i - lsub tag) / 2)).
      pose proof (N.div_mod (i - lsub tag) 2) as Hdm. rewrite Hmod in Hdm.
      split; [lia|]. apply in_seq.
      replace (lsub tag <=? hsub tag)%N with true by (symmetry; apply N.leb_le; lia).
      assert ((i - lsub tag) / 2 <= (hsub tag - lsub tag) / 2)%N
        by (apply N.Div0.div_le_mono; lia).
      lia.
Qed.

(** X11. When the rule has capturing groups ([ncap > 0]), the first statement
    that [gen_fintags] appends stores their number in [yynmatch]; for a rule
    without capturing groups and without tags it appends nothing. *)
Theorem gen_fintags_nmatch_first (output : Output) (stmts out : CodeList) (dfa : Adfa)
    (rule : Rule) :
  gen_fintags argsubst output stmts dfa rule = Some out ->
  let o := opts (block output) in
  ((0 < ncap rule)%N ->
     exists rest,
       out = stmts ++ code_assign (fintag_expr argsubst "yynmatch" o) (u64 (ncap rule)) None
                      :: rest)
  /\ (ncap rule = 0%N -> (htag rule <= ltag rule)%N -> out = stmts).
Proof.
  intros H o. unfold gen_fintags in H. fold o in H.
  apply bind_Some in H. destruct H as [acc [Hacc H]]. split.
  - intros Hn. apply N.ltb_lt in Hn. rewrite Hn in H.
    destruct (negb (is_empty (negtag acc))).
    + apply bind_Some in H. destruct H as [u [_ H]]. inversion H.
      unfold gen_settag. destruct (ApiStyle_eqb _ _);
        rewrite <- !app_assoc; simpl; eexists; reflexivity.
    + inversion H. rewrite <- !app_assoc. simpl. eexists. reflexivity.
  - intros Hn Hr. rewrite Hn in H. simpl in H.
    replace (N.to_nat (htag rule - ltag rule)) with O in Hacc by lia.
    simpl in Hacc. inversion Hacc. subst acc. simpl in H. inversion H.
    rewrite app_nil_r. reflexivity.
Qed.

End FinalTags.

(** ** Semantic actions cut into lines *)

Lemma string_app_assoc (a b c : string) : (a +:+ b) +:+ c = a +:+ b +:+ c.
Proof. induction a as [|x a IH]; simpl; [reflexivity | rewrite IH; reflexivity]. Qed.

Lemma string_app_nil_r (a : string) : a +:+ "" = a.
Proof. induction a as [|x a IH]; simpl; [reflexivity | rewrite IH; reflexivity]. Qed.

Lemma has_newline_app (a b : string) :
  has_newline (a +:+ b) = has_newline a || has_newline b.
Proof.
  induction a as [|x a IH]; simpl; [reflexivity|]. rewrite IH, orb_assoc. reflexivity.
Qed.

Lemma semact_lines_unlines_line (l rest : string) (cur : option string) :
  has_newline l = false ->
  semact_lines cur (l +:+ newline +:+ rest)
  = (ls <- semact_lines None rest ;; ret ((line_of cur +:+ l) :: ls)).
Proof.
  revert cur. induction l as [|c l IH]; intros cur Hl; simpl.
  - rewrite string_app_nil_r. reflexivity.
  - simpl in Hl. apply orb_false_iff in Hl. destruct Hl as [Hc Hl].
    rewrite Hc, (IH _ Hl). simpl. rewrite string_app_assoc. reflexivity.
Qed.

(** The lines that are cut give the text back, and a line has a newline only
    when the line that was being read had one. *)
Lemma semact_lines_text (text : string) :
  forall (cur : option string) (ls : list string),
    semact_lines cur text = Some ls ->
    unlines ls = line_of cur +:+ text
    /\ forall l, In l ls -> has_newline l = false \/ has_newline (line_of cur) = true.
Proof.
  induction text as [|c text IH]; intros cur ls H.
  - simpl in H. destruct cur as [l0|]; [discriminate H|]. inversion H. split.
    + reflexivity.
    + intros l [].
  - simpl in H. change (match cur with Some l => l | None => "" end) with (line_of cur) in H.
    destruct (Ascii.eqb c "010") eqn:Hc.
    + apply Ascii.eqb_eq in Hc. subst c.
      apply bind_Some in H. destruct H as [ls' [Hls' H]]. inversion H. subst ls. clear H.
      destruct (IH None ls' Hls') as [IH1 IH2]. split.
      * simpl. fold (unlines ls'). rewrite IH1. reflexivity.
      * intros l [Hl | Hl].
        -- subst l. destruct (has_newline (line_of cur)); auto.
        -- destruct (IH2 l Hl) as [H | H]; [left; exact H | discriminate H].
    + destruct (IH (Some (line_of cur +:+ String c "")) ls H) as [IH1 IH2]. split.
      * rewrite IH1. simpl. rewrite string_app_assoc. reflexivity.
      * intros l Hl. destruct (IH2 l Hl) as [H' | H']; [left; exact H'|].
        simpl in H'. rewrite has_newline_app in H'. simpl in H'. rewrite Hc in H'.
        simpl in H'. rewrite orb_false_r in H'. right. exact H'.
Qed.

(** The loop ends at the terminator of a text that ends in a newline. *)
Lemma semact_lines_returns (text : string) :
  forall cur : option string, exists ls, semact_lines cur (text +:+ newline) = Some ls.
Proof.
  induction text as [|c text IH]; intros cur; simpl.
  - eexists. reflexivity.
  - destruct (Ascii.eqb c "010").
    + destruct (IH None) as [ls Hls]. rewrite Hls. eexists. reflexivity.
    + apply IH.
Qed.

Lemma unlines_ends (ls : list string) :
  ls <> [] -> exists t, unlines ls = t +:+ newline.
Proof.
  induction ls as [|l ls IH]; intros Hne; [contradiction|].
  change (unlines (l :: ls)) with (l +:+ newline +:+ unlines ls).
  destruct ls as [|l' ls].
  - exists l. reflexivity.
  - destruct IH as [t Ht]; [discriminate|]. rewrite Ht. exists (l +:+ newline +:+ t).
    rewrite !string_app_assoc. reflexivity.
Qed.

(** X13. The lines that [emit_rule] cuts a semantic action into for
    indentation-sensitive languages lose nothing but the newlines: when the
    loop ends within the text, no line contains a newline and the lines give
    the text back when each is followed by a newline; the loop does end
    within a text that ends in a newline, and lines put together in that way
    are cut into the same lines. The loop ends within the text exactly when
    the text is empty or ends in a newline: after the last line of any other
    text it steps over the terminator. *)
Theorem semact_lines_round_trip :
  (forall text ls, semact_lines None text = Some ls ->
     Forall (fun l => has_newline l = false) ls /\ unlines ls = text)
  /\ (forall text, exists ls, semact_lines None (text +:+ newline) = Some ls
                              /\ unlines ls = text +:+ newline)
  /\ (forall ls, Forall (fun l => has_newline l = false) ls ->
        semact_lines None (unlines ls) = Some ls)
  /\ (forall text, semact_lines None text = None
        <-> text <> "" /\ forall t, text <> t +:+ newline).
Proof.
  split; [|split; [|split]].
  - intros text ls H. destruct (semact_lines_text text None H) as [H1 H2]. split.
    + apply Forall_forall. intros l Hl.
      destruct (H2 l Hl) as [Hn | Hn]; [exact Hn | discriminate Hn].
    + exact H1.
  - intros text. destruct (semact_lines_returns text None) as [ls Hls].
    exists ls. split; [exact Hls|].
    destruct (semact_lines_text (text +:+ newline) None Hls) as [H _]. exact H.
  - intros ls Hls. induction Hls as [|l ls Hl _ IH]; [reflexivity|].
    change (unlines (l :: ls)) with (l +:+ newline +:+ unlines ls).
    rewrite (@semact_lines_unlines_line l (unlines ls) None Hl), IH. reflexivity.
  - intros text. split.
    + intros H. split.
      * intros Ht. subst text. discriminate H.
      * intros t Ht. subst text.
        destruct (semact_lines_returns t None) as [ls Hls]. congruence.
    + intros [Hne Hnl]. destruct (semact_lines None text) as [ls|] eqn:H; [|reflexivity].
      exfalso. destruct (semact_lines_text text None H) as [H1 _]. simpl in H1.
      destruct ls as [|l ls].
      * apply Hne. symmetry. exact H1.
      * destruct (@unlines_ends (l :: ls)) as [t Ht]; [discriminate|].
        apply (Hnl t). rewrite <- H1. exact Ht.
Qed.

(** ** Transitions *)

Section TransitionProperties.

Variable heap : StatePtr -> State.
Variable argsubst : string -> string -> string -> bool -> string -> string.
Variable buf_label : Label -> string.
Variables iscopy isadd isset : tcmd_t -> bool.
Variable fallback_state_with_eof_rule : Adfa -> opt_t -> State -> StatePtr * tcid_t.

Local Abbreviation settags := (gen_settags argsubst iscopy isadd isset).
Local Abbreviation fill_falllback :=
  (gen_fill_falllback heap argsubst buf_label iscopy isadd isset fallback_state_with_eof_rule).
Local Abbreviation goto_after_fill :=
  (gen_goto_after_fill heap argsubst buf_label iscopy isadd isset
     fallback_state_with_eof_rule).
Local Abbreviation fill_ :=
  (gen_fill heap argsubst buf_label iscopy isadd isset fallback_state_with_eof_rule).
Local Abbreviation goto_ :=
  (gen_goto heap argsubst buf_label iscopy isadd isset fallback_state_with_eof_rule).

Lemma ends_in_tailcall_snoc (l : CodeList) (name : string) (args : CodeArgs) (r : bool) :
  ends_in_tailcall (l ++ [code_tailcall name args r]) = true.
Proof. unfold ends_in_tailcall. rewrite rev_app_distr. reflexivity. Qed.

Lemma gen_fill_falllback_rec_func (output : Output) (dfa : Adfa) (from : State)
    (jump : option CodeJump) (fb : CodeList) :
  code_model (opts (block output)) = REC_FUNC ->
  fill_enable (opts (block output)) = true ->
  fill_falllback output dfa from jump = Some fb ->
  ends_in_tailcall fb = true.
Proof.
  intros Hm Hfe H. unfold gen_fill_falllback in H.
  apply bind_Some in H. destruct H as [u [_ H]].
  destruct (fallback_state_with_eof_rule dfa (opts (block output)) from) as [fallback ft].
  apply bind_Some in H. destruct H as [ft' [_ H]].
  rewrite Hm, Hfe in H. simpl in H. rewrite andb_false_r in H.
  inversion H. unfold gen_goto_fallback. rewrite Hm. apply ends_in_tailcall_snoc.
Qed.

(** X14. In rec/func mode, the YYFILL invocation that checks for the end of
    input (end-of-input rule, YYFILL enabled, no storable state) is an if/else
    of which both branches end in a tail call: the rematch after a successful
    YYFILL, and the fallback transition, which is never elided there. *)
Theorem gen_fill_rec_func (output : Output) (stmts : CodeList) (tail : option CodeList)
    (dfa : Adfa) (from : State) (jump : option CodeJump) (out : CodeList) :
  let o := opts (block output) in
  code_model o = REC_FUNC ->
  fill_enable o = true ->
  fill_eof o <> NOEOF ->
  storable_state o = false ->
  fill_ output stmts tail dfa from jump = Some out ->
  exists pre cond rematch fallback,
    ends_in_tailcall rematch = true
    /\ ends_in_tailcall fallback = true
    /\ let body := pre ++ [code_if_then_else cond rematch (Some fallback)] in
       out = if fill_check o
             then stmts ++ [code_if_then_else (gen_less_than argsubst o 1) body tail]
             else append_opt (stmts ++ body) tail.
Proof.
  intros o Hm Hfe Heof Hst H. apply N.eqb_neq in Heof.
  unfold gen_fill, fill_need in H. fold o in H.
  rewrite Hfe, Hst, Heof in H. simpl in H.
  apply bind_Some in H. destruct H as [body [Hbody H]].
  apply bind_Some in Hbody. destruct Hbody as [rematch [Hre Hbody]].
  apply bind_Some in Hbody. destruct Hbody as [fallback [Hfb Hbody]].
  assert (Hre' : ends_in_tailcall rematch = true).
  { unfold gen_goto_after_fill in Hre. fold o in Hre.
    rewrite Hfe, Hm, Hst in Hre. simpl in Hre. inversion Hre. reflexivity. }
  pose proof (gen_fill_falllback_rec_func _ _ _ _ Hm Hfe Hfb) as Hfb'.
  unfold gen_if in Hbody. rewrite Hm in Hbody. simpl in Hbody. inversion Hbody as [Hb].
  clear Hbody. rewrite <- Hb in H.
  eexists _, _, rematch, fallback. split; [exact Hre'|]. split; [exact Hfb'|].
  cbv zeta. unfold gen_if in H. rewrite Hm in H. simpl in H.
  destruct (fill_check o); simpl in H.
  - destruct (fst _ ++ [_]) eqn:Hne in H;
      [apply app_eq_nil in Hne; destruct Hne as [_ Hne]; discriminate Hne|].
    rewrite <- Hne in H. inversion H. reflexivity.
  - inversion H. reflexivity.
Qed.

Lemma gen_goto_eq (output : Output) (dfa : Adfa) (stmts : CodeList) (from : option State)
    (j : CodeJump) :
  jump_eof j = false ->
  let o := opts (block output) in
  let to := heap (jump_to j) in
  let fn := fn_common (block output) in
  let transfer :=
    if negb (jump_elide j) && used (label to) then
      match code_model o with
      | GOTO_LABEL => [code_goto (label_prefix o +:+ buf_label (label to))]
      | LOOP_SWITCH => gen_continue_yyloop output [] (buf_label (label to))
      | REC_FUNC =>
          [code_tailcall (label_prefix o +:+ u32 (index (label to)))
             (if Action.Kind_eqb (kind (action to)) Action.MOVE && (1 <? span_count (go to))%N
              then fn_args_yych fn else fn_args fn)
             (match fn_type fn with Some _ => true | None => false end)]
      end
    else [] in
  goto_ output dfa stmts from j
  = Some (stmts ++ settags output [] dfa (jump_tags j)
            ++ (if jump_skip j then [code_skip] else []) ++ transfer).
Proof.
  intros Heof o to fn transfer. unfold gen_goto. rewrite Heof. fold o to fn.
  subst transfer.
  destruct (negb (jump_elide j) && used (label to)).
  - destruct (code_model o); simpl.
    + destruct (jump_skip j); simpl; rewrite <- ?app_assoc; reflexivity.
    + rewrite gen_continue_yyloop_app.
      destruct (jump_skip j); simpl; rewrite <- ?app_assoc; reflexivity.
    + rewrite need_yych_arg_eq. simpl.
      destruct (jump_skip j); simpl; rewrite <- ?app_assoc; reflexivity.
  - simpl. destruct (jump_skip j); simpl; rewrite ?app_nil_r; reflexivity.
Qed.

(** X15. A jump that does not check for the end of input always gets its
    code, which is, in this order: the tag actions of the jump, the skip if
    the jump has one, and the transfer to the destination, left out when the
    jump is elided or the label of the destination is not used.  In rec/func
    mode the transfer is a tail call that passes [yych] exactly when the
    destination is a MOVE state with more than one span. *)
Theorem gen_goto_transition (output : Output) (dfa : Adfa) (stmts : CodeList)
    (from : option State) (j : CodeJump) :
  jump_eof j = false ->
  let o := opts (block output) in
  let to := heap (jump_to j) in
  let fn := fn_common (block output) in
  let transfer :=
    if negb (jump_elide j) && used (label to) then
      match code_model o with
      | GOTO_LABEL => [code_goto (label_prefix o +:+ buf_label (label to))]
      | LOOP_SWITCH => gen_continue_yyloop output [] (buf_label (label to))
      | REC_FUNC =>
          [code_tailcall (label_prefix o +:+ u32 (index (label to)))
             (if Action.Kind_eqb (kind (action to)) Action.MOVE && (1 <? span_count (go to))%N
              then fn_args_yych fn else fn_args fn)
             (match fn_type fn with Some _ => true | None => false end)]
      end
    else [] in
  goto_ output dfa stmts from j
  = Some (stmts ++ settags output [] dfa (jump_tags j)
            ++ (if jump_skip j then [code_skip] else []) ++ transfer).
Proof. exact (gen_goto_eq output dfa stmts from j). Qed.

(** X16. With the end-of-input rule, YYFILL disabled and no storable state, a
    jump that checks for the end of input and goes where the fallback
    transition goes (same state, the tags that the fallback transition is left
    with, no skip) gets the code of the same jump without the check: the
    fallback is elided and no guard is left. *)
Theorem gen_goto_eof_elided (output : Output) (dfa : Adfa) (stmts : CodeList)
    (from : State) (j : CodeJump) (ft : tcid_t) :
  let o := opts (block output) in
  jump_eof j = true ->
  fill_enable o = false ->
  fill_eof o <> NOEOF ->
  storable_state o = false ->
  fallback_state_with_eof_rule dfa o from = (jump_to j, ft) ->
  (go_tags (go from) = TCID0 /\ jump_tags j = ft)
  \/ (go_tags (go from) = ft /\ ft <> TCID0 /\ jump_tags j = TCID0) ->
  jump_skip j = false ->
  goto_ output dfa stmts (Some from) j
  = goto_ output dfa stmts None
      {| jump_to := jump_to j; jump_tags := jump_tags j; jump_skip := jump_skip j;
         jump_elide := jump_elide j; jump_eof := false |}.
Proof.
  intros o Heof Hfe Hne Hst Hfb Htags Hskip. apply N.eqb_neq in Hne.
  unfold gen_goto. simpl. rewrite Heof. fold o.
  match goal with
  | |- bind ?m _ = bind ?m _ => destruct m as [transition|]; [|reflexivity]
  end.
  simpl. unfold gen_fill. fold o. rewrite Hfe, Hst, Hne. simpl.
  unfold gen_fill_falllback. fold o. rewrite Hne, Hfb, Hfe. simpl.
  assert (Hfall :
    (if negb (go_tags (go from) =? TCID0)%N
     then DCHECK (go_tags (go from) =? ft)%N ;;; ret TCID0 else ret ft)
    = Some (jump_tags j)).
  { destruct Htags as [[H0 Ht] | [Hg [Hnz Ht]]].
    - rewrite H0, Ht. reflexivity.
    - rewrite Hg, Ht. apply N.eqb_neq in Hnz. rewrite Hnz, N.eqb_refl. reflexivity. }
  rewrite Hfall. simpl.
  rewrite Nat.eqb_refl, N.eqb_refl, Hskip, andb_false_r. simpl.
  rewrite andb_false_r, app_nil_r. reflexivity.
Qed.

End TransitionProperties.

(** ** Binary dispatch on a number *)

Lemma strip_prefix_app (p s : string) : strip_prefix p (p +:+ s) = Some s.
Proof.
  induction p as [|c p IH]; simpl; [reflexivity|]. rewrite Ascii.eqb_refl. exact IH.
Qed.

Lemma parse_u64_u64 (n : N) : parse_u64 (u64 n) = Some n.
Proof.
  unfold parse_u64, u64. rewrite NilEmpty.usu. simpl.
  rewrite DecimalN.Unsigned.of_to. reflexivity.
Qed.

Lemma parse_test_lt (var : string) (m : N) :
  parse_test var (var +:+ " < " +:+ u64 m) = Some (fun n => (n <? m)%N).
Proof.
  unfold parse_test. rewrite strip_prefix_app.
  change (" < " +:+ u64 m) with (String " " (String "<" (String " " (u64 m)))).
  cbn [strip_prefix Ascii.eqb Bool.eqb andb]. rewrite parse_u64_u64. reflexivity.
Qed.

Lemma parse_test_le (var : string) (m : N) :
  parse_test var (var +:+ " <= " +:+ u64 m) = Some (fun n => (n <=? m)%N).
Proof.
  unfold parse_test. rewrite strip_prefix_app.
  change (" <= " +:+ u64 m) with (String " " (String "<" (String "=" (String " " (u64 m))))).
  cbn [strip_prefix Ascii.eqb Bool.eqb andb]. rewrite parse_u64_u64. reflexivity.
Qed.

Lemma parse_test_eq (var : string) (m : N) :
  parse_test var (var +:+ " == " +:+ u64 m) = Some (fun n => (n =? m)%N).
Proof.
  unfold parse_test. rewrite strip_prefix_app.
  change (" == " +:+ u64 m) with (String " " (String "=" (String "=" (String " " (u64 m))))).
  cbn [strip_prefix Ascii.eqb Bool.eqb andb]. rewrite parse_u64_u64. reflexivity.
Qed.

Lemma dispatch_if (var cond : string) (n : N) (t e : CodeList) (test : N -> bool) :
  parse_test var cond = Some test ->
  dispatch var n [code_if_then_else cond t (Some e)]
  = if test n then dispatch var n t else dispatch var n e.
Proof.
  intros H. unfold dispatch at 1. cbn [dispatch_node]. rewrite H.
  destruct (test n); reflexivity.
Qed.

Lemma dispatch_leaf (var : string) (n : N) (stmts : CodeList) :
  Forall (fun c => match c with code_if_then_else _ _ _ => False | _ => True end) stmts ->
  dispatch var n stmts = stmts.
Proof.
  intros H. destruct stmts as [|c [|c' l]]; try reflexivity.
  inversion H as [|x l' Hc _]. subst. destruct c; try reflexivity. contradiction.
Qed.

Lemma halve_bounds (d : N) : (2 <= d -> 1 <= d / 2 /\ d / 2 <= d - 1)%N.
Proof.
  intros Hd. pose proof (N.div_mod d 2 ltac:(lia)) as Hdm.
  pose proof (N.mod_upper_bound d 2 ltac:(lia)) as Hub.
  remember (d / 2)%N as q eqn:Hq. remember (d mod 2)%N as r eqn:Hr. clear Hq Hr.
  split; lia.
Qed.

Section CondDispatch.

Variable api_cond_get : opt_t -> string.
Variable cond_get_naked : opt_t -> bool.

Local Abbreviation cond_get := (output_cond_get api_cond_get cond_get_naked).
Local Abbreviation cond_goto_binary_rec :=
  (gen_cond_goto_binary_rec api_cond_get cond_get_naked).
Local Abbreviation cond_goto_binary := (gen_cond_goto_binary api_cond_get cond_get_naked).

Lemma gen_cond_goto_binary_rec_dispatch (output : Output) :
  forall (fuel : nat) (lower upper : N),
    (lower <= upper)%N ->
    (N.to_nat (upper - lower) <= fuel)%nat ->
    (upper < N.of_nat (length (conds (block output))))%N ->
    exists code,
      cond_goto_binary_rec fuel output lower upper = Some code
      /\ forall n, (lower <= n <= upper)%N ->
           exists c,
             of_nth (conds (block output)) n = Some c
             /\ dispatch (cond_get (opts (block output))) n code
                = [code_goto (cond_label_prefix (opts (block output)) +:+ cond_name c)].
Proof.
  induction fuel as [|fuel IH]; intros lower upper Hle Hfuel Hlen.
  - assert (lower = upper) by lia. subst upper.
    simpl. rewrite N.eqb_refl.
    destruct (of_nth (conds (block output)) lower) as [c|] eqn:Hc.
    + eexists. split; [reflexivity|]. intros n Hn. assert (n = lower) by lia. subst n.
      exists c. split; [exact Hc | reflexivity].
    + unfold of_nth in Hc. apply nth_error_None in Hc. lia.
  - cbn [gen_cond_goto_binary_rec].
    destruct (lower =? upper)%N eqn:Heq.
    + apply N.eqb_eq in Heq. subst upper.
      destruct (of_nth (conds (block output)) lower) as [c|] eqn:Hc.
      * eexists. split; [reflexivity|]. intros n Hn. assert (n = lower) by lia. subst n.
        exists c. split; [exact Hc | reflexivity].
      * unfold of_nth in Hc. apply nth_error_None in Hc. lia.
    + apply N.eqb_neq in Heq.
      pose proof (@halve_bounds (upper - lower + 1)%N) as Hh.
      set (middle := (lower + (upper - lower + 1) / 2)%N) in *.
      assert (Hmid : (lower < middle /\ middle <= upper)%N) by (unfold middle; lia).
      destruct (IH lower (middle - 1)%N) as [ct [Hct Ht]]; [lia | lia | lia |].
      destruct (IH middle upper) as [ce [Hce He]]; [lia | lia | lia |].
      rewrite Hct, Hce. cbn [bind ret]. eexists. split; [reflexivity|].
      intros n Hn. rewrite (@dispatch_if _ _ n _ _ _ (parse_test_lt _ _)).
      destruct (n <? middle)%N eqn:Hnm.
      * apply N.ltb_lt in Hnm. apply Ht. lia.
      * apply N.ltb_ge in Hnm. apply He. lia.
Qed.

(** X17. The binary search that [gen_cond_goto_binary] generates over the
    conditions [lower .. upper] of a block is there for every such range, and
    when the condition getter holds a number [n] of the range, the statement
    that it runs is the jump to the label of condition [n]. *)
Theorem gen_cond_goto_binary_dispatch (output : Output) (lower upper : N) :
  (lower <= upper)%N ->
  (upper < N.of_nat (length (conds (block output))))%N ->
  exists code,
    cond_goto_binary output lower upper = Some code
    /\ forall n, (lower <= n <= upper)%N ->
         exists c,
           of_nth (conds (block output)) n = Some c
           /\ dispatch (cond_get (opts (block output))) n code
              = [code_goto (cond_label_prefix (opts (block output)) +:+ cond_name c)].
Proof.
  intros Hle Hlen. unfold gen_cond_goto_binary.
  apply gen_cond_goto_binary_rec_dispatch; [exact Hle | lia | exact Hlen].
Qed.

End CondDispatch.

Section AcceptDispatch.

Variable heap : StatePtr -> State.
Variable argsubst : string -> string -> string -> bool -> string -> string.
Variable buf_label : Label -> string.
Variables iscopy isadd isset : tcmd_t -> bool.
Variable fallback_state_with_eof_rule : Adfa -> opt_t -> State -> StatePtr * tcid_t.
Variable var_accept : opt_t -> string.

Local Abbreviation goto_ :=
  (gen_goto heap argsubst buf_label iscopy isadd isset fallback_state_with_eof_rule).
Local Abbreviation accept_binary_rec :=
  (emit_accept_binary_rec heap argsubst buf_label iscopy isadd isset
     fallback_state_with_eof_rule var_accept).
Local Abbreviation accept_binary :=
  (emit_accept_binary heap argsubst buf_label iscopy isadd isset
     fallback_state_with_eof_rule var_accept).

Lemma gen_goto_accept_leaf (output : Output) (dfa : Adfa) (a : AcceptTrans) :
  exists leaf,
    goto_ output dfa [] None (accept_jump a) = Some leaf
    /\ Forall (fun c => match c with code_if_then_else _ _ _ => False | _ => True end) leaf.
Proof.
  eexists. split; [apply gen_goto_eq; reflexivity|].
  simpl. apply Forall_app. split.
  - destruct (gen_settags_emits argsubst iscopy isadd isset output [] dfa (acc_tags a))
      as [_ H].
    eapply Forall_impl; [|exact H]. intros c Hc. destruct c; try exact I. discriminate Hc.
  - unfold gen_continue_yyloop.
    destruct (used (label (heap (acc_state a)))); simpl; [|constructor].
    destruct (code_model (opts (block output))); simpl; repeat constructor.
Qed.

Lemma emit_accept_binary_rec_dispatch (output : Output) (dfa : Adfa)
    (acc : list AcceptTrans) :
  forall (fuel : nat) (l r : N),
    (l <= r)%N ->
    (N.to_nat (r - l) <= fuel)%nat ->
    (r < N.of_nat (length acc))%N ->
    exists code,
      accept_binary_rec fuel output dfa acc l r = Some code
      /\ forall n, (l <= n <= r)%N ->
           exists a leaf,
             of_nth acc n = Some a
             /\ goto_ output dfa [] None (accept_jump a) = Some leaf
             /\ dispatch (var_accept (opts (block output))) n code = leaf.
Proof.
  assert (Hleaf : forall l, (l < N.of_nat (length acc))%N ->
            exists code,
              (a <- of_nth acc l ;; goto_ output dfa [] None (accept_jump a)) = Some code
              /\ forall n, (l <= n <= l)%N ->
                   exists a leaf,
                     of_nth acc n = Some a
                     /\ goto_ output dfa [] None (accept_jump a) = Some leaf
                     /\ dispatch (var_accept (opts (block output))) n code = leaf).
  { intros l Hlen. destruct (of_nth acc l) as [a|] eqn:Ha.
    - destruct (gen_goto_accept_leaf output dfa a) as [leaf [Hg Hf]].
      exists leaf. simpl. split; [exact Hg|].
      intros n Hn. assert (n = l) by lia. subst n.
      exists a, leaf. split; [exact Ha|]. split; [exact Hg|]. apply dispatch_leaf. exact Hf.
    - unfold of_nth in Ha. apply nth_error_None in Ha. lia. }
  induction fuel as [|fuel IH]; intros l r Hle Hfuel Hlen.
  - assert (l = r) by lia. subst r. simpl. rewrite N.ltb_irrefl. apply Hleaf. exact Hlen.
  - cbn [emit_accept_binary_rec].
    destruct (l <? r)%N eqn:Hlt.
    + apply N.ltb_lt in Hlt.
      set (m := N.shiftr (l + r) 1).
      assert (Hm : (l <= m /\ m < r)%N).
      { unfold m. rewrite N.shiftr_div_pow2. change (2 ^ 1)%N with 2%N.
        pose proof (N.div_mod (l + r) 2 ltac:(lia)) as Hdm.
        pose proof (N.mod_upper_bound (l + r) 2 ltac:(lia)) as Hub.
        remember ((l + r) / 2)%N as q eqn:Hq. remember ((l + r) mod 2)%N as k eqn:Hk.
        clear Hq Hk. lia. }
      destruct (IH l m) as [ct [Hct Ht]]; [lia | lia | lia |].
      destruct (IH (m + 1)%N r) as [ce [Hce He]]; [lia | lia | lia |].
      rewrite Hct, Hce. cbn [bind ret]. eexists. split; [reflexivity|].
      intros n Hn. destruct (r =? l + 1)%N eqn:Hr.
      * apply N.eqb_eq in Hr. assert (m = l) by lia.
        rewrite (@dispatch_if _ _ n _ _ _ (parse_test_eq _ _)).
        destruct (n =? m)%N eqn:Hnm.
        -- apply N.eqb_eq in Hnm. apply Ht. lia.
        -- apply N.eqb_neq in Hnm. apply He. lia.
      * rewrite (@dispatch_if _ _ n _ _ _ (parse_test_le _ _)).
        destruct (n <=? m)%N eqn:Hnm.
        -- apply N.leb_le in Hnm. apply Ht. lia.
        -- apply N.leb_gt in Hnm. apply He. lia.
    + apply N.ltb_ge in Hlt. assert (l = r) by lia. subst r. apply Hleaf. exact Hlen.
Qed.

(** X18. The binary search that [emit_accept_binary] generates over the rows
    [l .. r] of the accept table is there for every such range, and when
    [yyaccept] holds a number [n] of the range, the statements that it runs
    are the jump of row [n]: its tag actions and the transfer to its state. *)
Theorem emit_accept_binary_dispatch (output : Output) (dfa : Adfa)
    (acc : list AcceptTrans) (l r : N) :
  (l <= r)%N ->
  (r < N.of_nat (length acc))%N ->
  exists code,
    accept_binary output dfa acc l r = Some code
    /\ forall n, (l <= n <= r)%N ->
         exists a leaf,
           of_nth acc n = Some a
           /\ goto_ output dfa [] None (accept_jump a) = Some leaf
           /\ dispatch (var_accept (opts (block output))) n code = leaf.
Proof.
  intros Hle Hlen. unfold emit_accept_binary.
  apply emit_accept_binary_rec_dispatch; [exact Hle | lia | exact Hlen].
Qed.

End AcceptDispatch.

(** ** Final tags with the default API *)

Lemma for_range_inv {A : Type} (P : A -> Prop) (body : A -> N -> M A) :
  (forall a t a', P a -> body a t = Some a' -> P a') ->
  forall (n : nat) (acc : A) (lo : N) (r : A),
    P acc -> for_range body acc lo n = Some r -> P r.
Proof.
  intros Hstep. induction n as [|n IH]; intros acc lo r Hacc H; simpl in H.
  - inversion H. subst. exact Hacc.
  - apply bind_Some in H. destruct H as [acc' [Hb Hrest]].
    apply (IH acc' (lo + 1)%N r); [eapply Hstep; eassumption | exact Hrest].
Qed.

Section FinalTagsDefault.

Variable argsubst : string -> string -> string -> bool -> string -> string.

Lemma gen_fintags_tag_default (output : Output) (dfa : Adfa) (a a' : fintags_acc) (t : N) :
  api (opts (block output)) = Api_DEFAULT ->
  (Forall (fun c => is_plain_assignment c = true) (varops a)
   /\ Forall (fun c => is_plain_assignment c = true) (fixops a)
   /\ Forall (fun c => is_plain_assignment c = true) (trailops a)
   /\ fixpostops a = [] /\ negtag a = "") ->
  gen_fintags_tag argsubst output dfa a t = Some a' ->
  Forall (fun c => is_plain_assignment c = true) (varops a')
  /\ Forall (fun c => is_plain_assignment c = true) (fixops a')
  /\ Forall (fun c => is_plain_assignment c = true) (trailops a')
  /\ fixpostops a' = [] /\ negtag a' = "".
Proof.
  intros Hapi (Hv & Hf & Ht & Hp & Hn) H.
  unfold gen_fintags_tag in H. rewrite Hapi in H. cbn [Api_eqb] in H.
  apply bind_Some in H. destruct H as [tag [_ H]].
  assert (Hsnoc : forall l c, Forall (fun c => is_plain_assignment c = true) l ->
            is_plain_assignment c = true ->
            Forall (fun c => is_plain_assignment c = true) (l ++ [c])).
  { intros l c Hl Hc. apply Forall_app. split; [exact Hl | repeat constructor; exact Hc]. }
  destruct (fictive tag); [inversion H; subst; auto|].
  destruct (fixed tag); cbn [negb] in H.
  - apply bind_Some in H. destruct H as [u [_ H]].
    apply bind_Some in H. destruct H as [b [_ H]].
    destruct (trailing tag).
    + apply bind_Some in H. destruct H as [u' [_ H]].
      inversion H. subst a'. simpl. auto 10.
    + apply bind_Some in H. destruct H as [u' [_ H]].
      destruct (to_int32 (dist tag) =? 0)%Z; [|destruct (toplevel tag)];
        inversion H; subst a'; simpl; unfold gen_assign_many, gen_assign_many_to_first,
          gen_assign; auto 10.
      destruct (expand_fintags argsubst output tag) as [|f [|g l]]; auto 10.
  - apply bind_Some in H. destruct H as [fin [_ H]].
    destruct (trailing tag); inversion H; subst a'; simpl;
      unfold gen_assign_many, gen_assign; auto 10.
Qed.

(** X20. With the default API, [gen_fintags] sets the final tags of a rule by
    plain assignments only (and by the adjustment of a fixed tag under the
    condition that its base tag is not NULL): it appends no tag-set, shift or
    restore statement, and it materializes no no-match value. *)
Theorem gen_fintags_default_api (output : Output) (stmts out : CodeList) (dfa : Adfa)
    (rule : Rule) :
  api (opts (block output)) = Api_DEFAULT ->
  gen_fintags argsubst output stmts dfa rule = Some out ->
  exists emitted,
    out = stmts ++ emitted
    /\ Forall (fun c => is_plain_assignment c = true) emitted.
Proof.
  intros Hapi H. unfold gen_fintags in H.
  apply bind_Some in H. destruct H as [acc [Hacc H]].
  assert (Hinv : Forall (fun c => is_plain_assignment c = true) (varops acc)
                 /\ Forall (fun c => is_plain_assignment c = true) (fixops acc)
                 /\ Forall (fun c => is_plain_assignment c = true) (trailops acc)
                 /\ fixpostops acc = [] /\ negtag acc = "").
  { refine (@for_range_inv _
              (fun a => Forall (fun c => is_plain_assignment c = true) (varops a)
                        /\ Forall (fun c => is_plain_assignment c = true) (fixops a)
                        /\ Forall (fun c => is_plain_assignment c = true) (trailops a)
                        /\ fixpostops a = [] /\ negtag a = "")
              (gen_fintags_tag argsubst output dfa) _ _ _ _ _ _ Hacc).
    - intros a t a' Ha Hb. exact (@gen_fintags_tag_default output dfa a a' t Hapi Ha Hb).
    - simpl. auto. }
  destruct Hinv as (Hv & Hf & Ht & _ & Hn). rewrite Hn in H. simpl in H.
  inversion H. clear H.
  exists ((if (0 <? ncap rule)%N
           then [code_assign (fintag_expr argsubst "yynmatch" (opts (block output)))
                   (u64 (ncap rule)) None] else [])
          ++ varops acc ++ fixops acc ++ trailops acc).
  split.
  - destruct (0 <? ncap rule)%N; simpl; rewrite <- ?app_assoc; reflexivity.
  - apply Forall_app. split; [destruct (0 <? ncap rule)%N; repeat constructor|].
    apply Forall_app. split; [exact Hv|]. apply Forall_app. split; assumption.
Qed.

End FinalTagsDefault.

(** ** Bitmaps *)

Lemma land_pow2_testbit (x p : N) :
  N.land x (2 ^ p) <> 0%N <-> N.testbit x p = true.
Proof.
  split.
  - intros H. destruct (N.testbit x p) eqn:Hb; [reflexivity|]. exfalso. apply H.
    apply N.bits_inj. intros n. rewrite N.land_spec, N.pow2_bits_eqb, N.bits_0.
    destruct (N.eqb_spec p n) as [E | E]; [subst; rewrite Hb; reflexivity|].
    apply andb_false_r.
  - intros Hb H. apply (f_equal (fun y => N.testbit y p)) in H.
    rewrite N.land_spec, N.pow2_bits_eqb, N.bits_0, Hb, N.eqb_refl in H. discriminate H.
Qed.

Lemma bitmap_mark_length (tmpbuf : list N) (i c u mask : N) :
  length (bitmap_mark tmpbuf i c u mask) = length tmpbuf.
Proof.
  revert i. induction tmpbuf as [|x l IH]; intros i; simpl; [reflexivity|].
  rewrite IH. reflexivity.
Qed.

Lemma bitmap_mark_nth (tmpbuf : list N) (c u mask : N) :
  forall (i : N) (j : nat),
    (j < length tmpbuf)%nat ->
    nth j (bitmap_mark tmpbuf i c u mask) 0%N
    = if (c <=? i + N.of_nat j)%N && (i + N.of_nat j <? u)%N
      then N.lor (nth j tmpbuf 0%N) mask else nth j tmpbuf 0%N.
Proof.
  induction tmpbuf as [|x l IH]; intros i j Hj; simpl in Hj; [lia|].
  destruct j as [|j].
  - simpl. rewrite N.add_0_r. reflexivity.
  - cbn [bitmap_mark nth]. rewrite IH by lia.
    replace (i + 1 + N.of_nat j)%N with (i + N.of_nat (S j))%N by lia. reflexivity.
Qed.

Lemma bitmap_spans_length (spans : list Span) (state : StatePtr) (nchars mask : N) :
  forall (c : N) (tmpbuf : list N),
    length (bitmap_spans spans state nchars mask c tmpbuf) = length tmpbuf.
Proof.
  induction spans as [|sp spans IH]; intros c tmpbuf; simpl; [reflexivity|].
  rewrite IH. destruct (Nat.eqb (span_to sp) state); [apply bitmap_mark_length | reflexivity].
Qed.

(** The loop over the spans of a state sets the bit of the state at the
    characters that go to it, and leaves the other bits alone. *)
Lemma bitmap_spans_testbit (spans : list Span) (state : StatePtr) (nchars p : N) :
  forall (lo : N) (tmpbuf : list N) (j : nat) (q : N),
    length tmpbuf = N.to_nat nchars ->
    (j < length tmpbuf)%nat ->
    N.testbit (nth j (bitmap_spans spans state nchars (2 ^ p) lo tmpbuf) 0%N) q
    = N.testbit (nth j tmpbuf 0%N) q
      || ((p =? q)%N && goes_to spans state lo (N.of_nat j)).
Proof.
  induction spans as [|sp spans IH]; intros lo tmpbuf j q Hlen Hj; simpl.
  - rewrite andb_false_r, orb_false_r. reflexivity.
  - destruct (Nat.eqb (span_to sp) state).
    + rewrite IH by (rewrite bitmap_mark_length; assumption).
      rewrite bitmap_mark_nth by assumption.
      replace ((lo <=? 0 + N.of_nat j)%N && (0 + N.of_nat j <? N.min (ub sp) nchars)%N)
        with ((lo <=? N.of_nat j)%N && (N.of_nat j <? ub sp)%N).
      * simpl. destruct ((lo <=? N.of_nat j)%N && (N.of_nat j <? ub sp)%N); simpl.
        -- rewrite N.lor_spec, N.pow2_bits_eqb.
           destruct (N.testbit (nth j tmpbuf 0%N) q), (p =? q)%N; reflexivity.
        -- reflexivity.
      * simpl. f_equal.
        destruct (N.ltb_spec (N.of_nat j) (ub sp)),
                 (N.ltb_spec (N.of_nat j) (N.min (ub sp) nchars)); try reflexivity; lia.
    + rewrite IH by assumption. reflexivity.
Qed.

Lemma bitmap_chunk_0 (states : list CodeBmState) (offset nchars : N) (tmpbuf : list N) :
  bitmap_chunk states 0 offset nchars tmpbuf = (tmpbuf, [], states).
Proof. destruct states; reflexivity. Qed.

Lemma shiftr_pow2 (p : nat) :
  N.shiftr (2 ^ N.of_nat p) 1 = match p with O => 0%N | S p' => (2 ^ N.of_nat p')%N end.
Proof.
  destruct p as [|p']; [reflexivity|].
  rewrite N.shiftr_div_pow2. change (2 ^ 1)%N with 2%N.
  rewrite Nat2N.inj_succ, N.pow_succ_r', N.mul_comm, N.div_mul; [reflexivity | discriminate].
Qed.

Lemma pow2_eqb_0 (p : N) : (2 ^ p =? 0)%N = false.
Proof. apply N.eqb_neq. apply N.pow_nonzero. discriminate. Qed.

(** One round of [gen_bitmap]: the first [p + 1] states get the masks
    [2 ^ p], [2 ^ (p - 1)], ... and their bits; the other states are left. *)
Lemma bitmap_chunk_spec (offset nchars : N) :
  forall (states : list CodeBmState) (p : nat) (tmpbuf tmpbuf' : list N)
         (done rest : list CodeBmState),
    length tmpbuf = N.to_nat nchars ->
    bitmap_chunk states (2 ^ N.of_nat p) offset nchars tmpbuf = (tmpbuf', done, rest) ->
    length tmpbuf' = length tmpbuf
    /\ length done = Nat.min (S p) (length states)
    /\ rest = skipn (S p) states
    /\ (forall i b, nth_error states i = Some b -> (i <= p)%nat ->
          nth_error done i
          = Some {| bm_go := bm_go b; bm_state := bm_state b; bm_offset := offset;
                    bm_mask := (2 ^ N.of_nat (p - i))%N |})
    /\ (forall j q, (j < length tmpbuf)%nat ->
          N.testbit (nth j tmpbuf' 0%N) (N.of_nat q) = true
          <-> N.testbit (nth j tmpbuf 0%N) (N.of_nat q) = true
              \/ exists i b, nth_error states i = Some b /\ (i <= p)%nat /\ q = (p - i)%nat
                             /\ goes_to (span (bm_go b)) (bm_state b) 0 (N.of_nat j) = true).
Proof.
  induction states as [|b states IH]; intros p tmpbuf tmpbuf' done rest Hlen H.
  - simpl in H. rewrite pow2_eqb_0 in H. inversion H. subst.
    repeat split; try reflexivity.
    + intros i b Hb. destruct i; discriminate Hb.
    + intros Hq. left. exact Hq.
    + intros [Hq | (i & b & Hb & _)]; [exact Hq | destruct i; discriminate Hb].
  - cbn [bitmap_chunk] in H. rewrite pow2_eqb_0 in H.
    set (buf1 := bitmap_spans (span (bm_go b)) (bm_state b) nchars (2 ^ N.of_nat p) 0 tmpbuf)
      in *.
    assert (Hlen1 : length buf1 = N.to_nat nchars)
      by (unfold buf1; rewrite bitmap_spans_length; exact Hlen).
    assert (Hbit1 : forall j q, (j < length tmpbuf)%nat ->
              N.testbit (nth j buf1 0%N) (N.of_nat q)
              = N.testbit (nth j tmpbuf 0%N) (N.of_nat q)
                || ((p =? q)%nat
                    && goes_to (span (bm_go b)) (bm_state b) 0 (N.of_nat j))).
    { intros j q Hj. unfold buf1. rewrite bitmap_spans_testbit by assumption.
      f_equal. f_equal.
      destruct (N.eqb_spec (N.of_nat p) (N.of_nat q)), (Nat.eqb_spec p q);
        try reflexivity; lia. }
    rewrite shiftr_pow2 in H. destruct p as [|p'].
    + rewrite bitmap_chunk_0 in H. inversion H. subst tmpbuf' done rest. clear H.
      split; [rewrite Hlen1; symmetry; exact Hlen|].
      split; [reflexivity|]. split; [reflexivity|]. split.
      * intros i b0 Hb0 Hi. assert (i = O) by lia. subst i. simpl in Hb0.
        inversion Hb0. subst b0. reflexivity.
      * intros j q Hj. rewrite Hbit1 by exact Hj. rewrite orb_true_iff, andb_true_iff.
        split.
        -- intros [Hq | [Hq Hg]]; [left; exact Hq | right].
           apply Nat.eqb_eq in Hq. exists O, b. repeat split; [lia | lia | exact Hg].
        -- intros [Hq | (i & b0 & Hb0 & Hi & Hqi & Hg)]; [left; exact Hq | right].
           assert (i = O) by lia. subst i. simpl in Hb0. inversion Hb0. subst b0.
           split; [apply Nat.eqb_eq; lia | exact Hg].
    + destruct (bitmap_chunk states (2 ^ N.of_nat p') offset nchars buf1)
        as [[buf2 done2] rest2] eqn:Hc.
      inversion H. subst tmpbuf' done rest. clear H.
      destruct (IH p' buf1 buf2 done2 rest2 Hlen1 Hc) as (Hl2 & Hd2 & Hr2 & Hn2 & Hb2).
      split; [rewrite Hl2, Hlen1; symmetry; exact Hlen|].
      split; [simpl; rewrite Hd2; reflexivity|].
      split; [exact Hr2|]. split.
      * intros i b0 Hb0 Hi. destruct i as [|i].
        -- simpl in Hb0. inversion Hb0. subst b0. reflexivity.
        -- simpl in Hb0. simpl. apply Hn2; [exact Hb0 | lia].
      * intros j q Hj. rewrite Hb2 by (rewrite Hlen1, <- Hlen; exact Hj).
        rewrite Hbit1 by exact Hj. rewrite orb_true_iff, andb_true_iff. split.
        -- intros [[Hq | [Hq Hg]] | (i & b0 & Hb0 & Hi & Hqi & Hg)].
           ++ left. exact Hq.
           ++ right. apply Nat.eqb_eq in Hq. exists O, b. repeat split; [lia | lia | exact Hg].
           ++ right. exists (S i), b0. repeat split; [exact Hb0 | lia | lia | exact Hg].
        -- intros [Hq | (i & b0 & Hb0 & Hi & Hqi & Hg)]; [left; left; exact Hq|].
           destruct i as [|i].
           ++ simpl in Hb0. inversion Hb0. subst b0. left. right.
              split; [apply Nat.eqb_eq; lia | exact Hg].
           ++ right. exists i, b0. repeat split; [exact Hb0 | lia | lia | exact Hg].
Qed.

Lemma nth_repeat_0 (n j : nat) : nth j (repeat 0%N n) 0%N = 0%N.
Proof.
  revert j. induction n as [|n IH]; intros j; destruct j; simpl; try reflexivity. apply IH.
Qed.

Lemma div8_step (k : nat) : ((8 + k) / 8 = S (k / 8) /\ (8 + k) mod 8 = k mod 8)%nat.
Proof.
  pose proof (Nat.div_mod_eq (8 + k) 8) as H1. pose proof (Nat.div_mod_eq k 8) as H2.
  pose proof (Nat.mod_upper_bound (8 + k) 8 ltac:(lia)) as H3.
  pose proof (Nat.mod_upper_bound k 8 ltac:(lia)) as H4.
  remember ((8 + k) / 8)%nat as a eqn:Ea. remember ((8 + k) mod 8)%nat as b eqn:Eb.
  remember (k / 8)%nat as c eqn:Ec. remember (k mod 8)%nat as d eqn:Ed.
  clear Ea Eb Ec Ed. split; lia.
Qed.

Lemma div8_small (k : nat) : (k < 8 -> k / 8 = 0 /\ k mod 8 = k)%nat.
Proof.
  intros Hk. split; [apply Nat.div_small; exact Hk | apply Nat.mod_small; exact Hk].
Qed.

(** The table of [gen_bitmap]: state [k] gets bit [7 - k mod 8] of the round
    [k / 8], and the bit is set at the characters that go to the state. *)
Lemma bitmap_table_spec (nchars : N) :
  forall (fuel : nat) (states : list CodeBmState) (bmidx : N) (table : list N)
         (states' : list CodeBmState),
    (length states <= fuel)%nat ->
    bitmap_table fuel states bmidx nchars = (table, states') ->
    length table = (N.to_nat nchars * ((length states + 7) / 8))%nat
    /\ forall k b, nth_error states k = Some b ->
         exists b',
           nth_error states' k = Some b'
           /\ bm_go b' = bm_go b /\ bm_state b' = bm_state b
           /\ bm_offset b' = wrap32 ((bmidx + N.of_nat (k / 8)) * nchars)
           /\ bm_mask b' = (2 ^ N.of_nat (7 - k mod 8))%N
           /\ forall j, (j < N.to_nat nchars)%nat ->
                N.testbit (nth (k / 8 * N.to_nat nchars + j) table 0%N)
                          (N.of_nat (7 - k mod 8))
                = goes_to (span (bm_go b)) (bm_state b) 0 (N.of_nat j).
Proof.
  induction fuel as [|fuel IH]; intros states bmidx table states' Hfuel H.
  - destruct states; [|simpl in Hfuel; lia]. simpl in H. inversion H. subst.
    split; [simpl; lia|]. intros k b Hb. destruct k; discriminate Hb.
  - destruct states as [|b0 states0].
    { simpl in H. inversion H. subst. split; [simpl; lia|].
      intros k b Hb. destruct k; discriminate Hb. }
    remember (b0 :: states0) as states eqn:Hst.
    assert (Hne : (0 < length states)%nat) by (subst states; simpl; lia).
    cbn [bitmap_table] in H. rewrite Hst in H. rewrite <- Hst in H.
    change 128%N with (2 ^ N.of_nat 7)%N in H.
    destruct (bitmap_chunk states (2 ^ N.of_nat 7) (wrap32 (bmidx * nchars)) nchars
                (repeat 0%N (N.to_nat nchars))) as [[buf done] rest] eqn:Hc.
    destruct (bitmap_table fuel rest (bmidx + 1) nchars) as [table1 states1] eqn:Ht.
    inversion H. subst table states'. clear H.
    destruct (@bitmap_chunk_spec (wrap32 (bmidx * nchars)) nchars states 7 _ _ _ _
                (repeat_length _ _) Hc) as (Hlb & Hld & Hr & Hn & Hb).
    rewrite repeat_length in Hlb.
    assert (Hlr : (length rest = length states - 8)%nat)
      by (rewrite Hr, length_skipn; reflexivity).
    destruct (IH rest (bmidx + 1)%N table1 states1) as [Hlt Hk1]; [lia | exact Ht |].
    split.
    + rewrite length_app, Hlb, Hlt, Hlr.
      destruct (Nat.le_gt_cases 8 (length states)) as [Hge | Hlt8].
      * replace (length states + 7)%nat with (8 + (length states - 8 + 7))%nat by lia.
        destruct (div8_step (length states - 8 + 7)) as [Hd _]. rewrite Hd. lia.
      * replace (length states - 8)%nat with O by lia.
        replace ((0 + 7) / 8)%nat with O by reflexivity.
        replace ((length states + 7) / 8)%nat with 1%nat; [lia|].
        replace (length states + 7)%nat with (8 + (length states - 1))%nat by lia.
        destruct (div8_step (length states - 1)) as [Hd _]. rewrite Hd.
        rewrite Nat.div_small by lia. reflexivity.
    + intros k b Hkb.
      assert (Hklen : (k < length states)%nat) by (apply nth_error_Some; congruence).
      destruct (Nat.lt_ge_cases k 8) as [Hk8 | Hk8].
      * destruct (div8_small Hk8) as [Hdiv Hmod]. rewrite Hdiv, Hmod.
        eexists. split.
        { rewrite nth_error_app1 by (rewrite Hld; lia). apply Hn; [exact Hkb | lia]. }
        simpl bm_go. simpl bm_state. simpl bm_offset. simpl bm_mask.
        split; [reflexivity|]. split; [reflexivity|].
        split; [rewrite N.add_0_r; reflexivity|]. split; [reflexivity|].
        intros j Hj. rewrite Nat.mul_0_l, Nat.add_0_l.
        rewrite app_nth1 by (rewrite Hlb; exact Hj).
        specialize (Hb j (7 - k)%nat). rewrite repeat_length in Hb. specialize (Hb Hj).
        rewrite nth_repeat_0, N.bits_0 in Hb.
        destruct (goes_to (span (bm_go b)) (bm_state b) 0 (N.of_nat j)) eqn:Hg.
        -- apply Hb. right. exists k, b. repeat split; [exact Hkb | lia | exact Hg].
        -- destruct (N.testbit (nth j buf 0%N) (N.of_nat (7 - k))) eqn:Htb; [|reflexivity].
           destruct (proj1 Hb eq_refl) as [Hz | (i & b1 & Hb1 & Hi & Hqi & Hg1)];
             [discriminate Hz|].
           assert (i = k) by lia. subst i. rewrite Hkb in Hb1. inversion Hb1. subst b1.
           rewrite Hg in Hg1. discriminate Hg1.
      * assert (Hex : exists k', k = (8 + k')%nat) by (exists (k - 8)%nat; lia).
        destruct Hex as [k' ->].
        assert (Hkb' : nth_error rest k' = Some b)
          by (rewrite Hr, nth_error_skipn; exact Hkb).
        destruct (Hk1 k' b Hkb') as (b' & Hb' & Hgo & Hstate & Hoff & Hmask & Hbits).
        destruct (div8_step k') as [Hdiv Hmod]. rewrite Hdiv, Hmod.
        exists b'. split.
        { rewrite nth_error_app2 by (rewrite Hld; lia).
          rewrite Hld. replace (8 + k' - Nat.min 8 (length states))%nat with k' by lia.
          exact Hb'. }
        split; [exact Hgo|]. split; [exact Hstate|]. split.
        { rewrite Hoff. f_equal. lia. }
        split; [exact Hmask|].
        intros j Hj. rewrite app_nth2 by (rewrite Hlb; lia).
        rewrite Hlb.
        replace (S (k' / 8) * N.to_nat nchars + j - N.to_nat nchars)%nat
          with (k' / 8 * N.to_nat nchars + j)%nat by lia.
        apply Hbits. exact Hj.
Qed.

Section BitmapProperties.

Variable var_bitmaps : opt_t -> string.
Variable bitmaps_hex : opt_t -> bool.
Variable render_code_type_yybm : opt_t -> string.
Variable print_hex : N -> opt_t -> string.
Variable code_array : string -> string -> list string -> bool -> Code.

Local Abbreviation bitmap_ :=
  (gen_bitmap var_bitmaps bitmaps_hex render_code_type_yybm print_hex code_array).

(** X19. For a bitmap that is used and has states, [gen_bitmap] gives an
    array of [nchars] elements for every eight states, and gives state [k] the
    offset of round [k / 8] and the mask of bit [7 - k mod 8], such that the
    test [table[offset + c] & mask] of a character [c] is not zero exactly
    when [c] lies in a span of the state's transitions that goes to the
    state's destination.  (The size of the table fits [uint32_t].) *)
Theorem gen_bitmap_bits (output : Output) (bitmap : CodeBitmap) (cond : string) :
  bm_states bitmap <> [] ->
  bm_used bitmap = true ->
  (nchars bitmap * N.of_nat ((length (bm_states bitmap) + 7) / 8) < 4294967296)%N ->
  let o := opts (block output) in
  exists table states',
    bitmap_ output bitmap cond
    = Some (states',
            [code_array (bitmap_name var_bitmaps o cond) (render_code_type_yybm o)
               (map (fun v => if bitmaps_hex o then print_hex v o else u32 v) table) true])
    /\ length table
       = (N.to_nat (nchars bitmap) * ((length (bm_states bitmap) + 7) / 8))%nat
    /\ forall k b, nth_error (bm_states bitmap) k = Some b ->
         exists b',
           nth_error states' k = Some b'
           /\ bm_go b' = bm_go b /\ bm_state b' = bm_state b
           /\ bm_offset b' = (N.of_nat (k / 8) * nchars bitmap)%N
           /\ bm_mask b' = (2 ^ N.of_nat (7 - k mod 8))%N
           /\ forall c, (c < nchars bitmap)%N ->
                (N.land (nth (N.to_nat (bm_offset b' + c)) table 0%N) (bm_mask b') <> 0%N
                 <-> goes_to (span (bm_go b)) (bm_state b) 0 c = true).
Proof.
  intros Hne Hused Hsize o. unfold gen_bitmap. fold o.
  destruct (bm_states bitmap) as [|b0 states0] eqn:Hst; [contradiction|].
  rewrite Hused. simpl negb. cbv iota. rewrite <- Hst in *. clear b0 states0 Hst Hne.
  destruct (bitmap_table (length (bm_states bitmap)) (bm_states bitmap) 0 (nchars bitmap))
    as [table states'] eqn:Ht.
  destruct (@bitmap_table_spec (nchars bitmap) _ _ _ _ _ (le_n _) Ht) as [Hlen Hk].
  exists table, states'. split; [reflexivity|]. split; [exact Hlen|].
  intros k b Hkb.
  destruct (Hk k b Hkb) as (b' & Hb' & Hgo & Hstate & Hoff & Hmask & Hbits).
  assert (Hklen : (k < length (bm_states bitmap))%nat) by (apply nth_error_Some; congruence).
  assert (Hoff' : bm_offset b' = (N.of_nat (k / 8) * nchars bitmap)%N).
  { rewrite Hoff, N.add_0_l. unfold wrap32. apply N.mod_small.
    eapply N.le_lt_trans; [|exact Hsize]. rewrite N.mul_comm.
    apply N.mul_le_mono_l.
    assert (k / 8 <= (length (bm_states bitmap) + 7) / 8)%nat
      by (apply Nat.Div0.div_le_mono; lia).
    lia. }
  exists b'. split; [exact Hb'|]. split; [exact Hgo|]. split; [exact Hstate|].
  split; [exact Hoff'|]. split; [exact Hmask|].
  intros c Hc. rewrite Hmask, land_pow2_testbit, Hoff'.
  replace (N.to_nat (N.of_nat (k / 8) * nchars bitmap + c))
    with (k / 8 * N.to_nat (nchars bitmap) + N.to_nat c)%nat by lia.
  rewrite Hbits by lia. rewrite N2Nat.id. reflexivity.
Qed.

End BitmapProperties.

(** ** The formatted condition enumeration *)

Section CondEnumText.

Variable argsubst : string -> string -> string -> bool -> string -> string.

Lemma gen_cond_enum_text_join (opts : opt_t) (fmt : string) (sep : option string) :
  forall (conds : StartConds) (first : bool) (k : N),
    gen_cond_enum_text argsubst opts fmt sep first k conds
    = match conds with
      | [] => ""
      | _ :: _ =>
          (if first then "" else match sep with Some s => s | None => "" end)
          +:+ String.concat (match sep with Some s => s | None => "" end)
                (cond_enum_entries argsubst opts fmt k conds)
      end.
Proof.
  intros conds. induction conds as [|c cs IH]; intros first k; [reflexivity|].
  cbn [gen_cond_enum_text cond_enum_entries]. rewrite IH.
  assert (Hs : match sep with Some s => if negb first then s else "" | None => "" end
               = if first then "" else match sep with Some s => s | None => "" end)
    by (destruct sep, first; reflexivity).
  rewrite Hs. f_equal.
  destruct cs as [|c' cs]; [simpl; apply string_app_nil_r | reflexivity].
Qed.

(** X21. With a format, the condition enumeration is the entries of the
    conditions joined by the separator (no separator before the first entry
    and none after the last) and followed by a newline; an entry is the format
    with the number and the name of the condition substituted, where the
    number is the position of the condition in goto/label mode and the number
    of the condition in the other modes. *)
Theorem gen_cond_enum_format (code : Code) (fmt : CodeFmt) (opts : opt_t)
    (conds : StartConds) (f : string) :
  target opts = Target_CODE ->
  format fmt = Some f ->
  conds <> [] ->
  gen_cond_enum argsubst code fmt opts conds
  = Some (code_raw
            (String.concat (match separator fmt with Some s => s | None => "" end)
               (cond_enum_entries argsubst opts f 0 conds)
             +:+ newline)).
Proof.
  intros Ht Hf Hne. unfold gen_cond_enum. rewrite Ht, Hf. simpl.
  destruct conds as [|c cs]; [contradiction|].
  rewrite gen_cond_enum_text_join. reflexivity.
Qed.

End CondEnumText.

(** ** The emitters only append *)

Section AppendOnly.

Variable heap : StatePtr -> State.
Variable argsubst : string -> string -> string -> bool -> string -> string.
Variable buf_label : Label -> string.
Variables iscopy isadd isset : tcmd_t -> bool.
Variable fallback_state_with_eof_rule : Adfa -> opt_t -> State -> StatePtr * tcid_t.
Variable emit_skeleton_action : Output -> CodeList -> Adfa -> N -> CodeList.

Local Abbreviation fill_ :=
  (gen_fill heap argsubst buf_label iscopy isadd isset fallback_state_with_eof_rule).
Local Abbreviation fill_and_label :=
  (gen_fill_and_label heap argsubst buf_label iscopy isadd isset
     fallback_state_with_eof_rule).
Local Abbreviation goto_ :=
  (gen_goto heap argsubst buf_label iscopy isadd isset fallback_state_with_eof_rule).

Lemma gen_fill_prefix (output : Output) (stmts : CodeList) (tail : option CodeList)
    (dfa : Adfa) (from : State) (jump : option CodeJump) (out : CodeList) :
  fill_ output stmts tail dfa from jump = Some out -> exists e, out = stmts ++ e.
Proof.
  intros H. unfold gen_fill in H. apply bind_Some in H. destruct H as [body [_ H]].
  destruct (fill_check _ && _); inversion H; unfold gen_if, append_opt.
  - destruct (CodeModel_eqb _ _); [eexists; reflexivity|].
    destruct tail; [rewrite <- app_assoc|]; eexists; reflexivity.
  - destruct tail; [rewrite <- app_assoc|]; eexists; reflexivity.
Qed.

Lemma gen_fintags_prefix (output : Output) (stmts out : CodeList) (dfa : Adfa) (rule : Rule) :
  gen_fintags argsubst output stmts dfa rule = Some out -> exists e, out = stmts ++ e.
Proof.
  intros H. unfold gen_fintags in H. apply bind_Some in H. destruct H as [acc [_ H]].
  destruct (negb (is_empty (negtag acc))).
  - apply bind_Some in H. destruct H as [u [_ H]]. inversion H.
    rewrite gen_settag_app. destruct (0 <? ncap rule)%N;
      rewrite <- !app_assoc; eexists; reflexivity.
  - inversion H. destruct (0 <? ncap rule)%N; rewrite <- ?app_assoc; eexists; reflexivity.
Qed.

(** X22. The emitters of the pass only append to the list of statements that
    they are given: whenever [gen_fill], [gen_fill_and_label], [gen_goto],
    [gen_fintags] or [emit_rule] (for another target than the skeleton)
    returns, the statements that were there before are the first statements
    of the result, unchanged and in their order. *)
Theorem emitters_append_only (output : Output) (stmts out : CodeList) (dfa : Adfa) :
  (forall tail from jump,
     fill_ output stmts tail dfa from jump = Some out -> exists e, out = stmts ++ e)
  /\ (forall s, fill_and_label output stmts dfa s = Some out -> exists e, out = stmts ++ e)
  /\ (forall from jump, goto_ output dfa stmts from jump = Some out ->
        exists e, out = stmts ++ e)
  /\ (forall rule, gen_fintags argsubst output stmts dfa rule = Some out ->
        exists e, out = stmts ++ e)
  /\ (forall rule_idx,
        target (opts (block output)) <> Target_SKELETON ->
        emit_rule argsubst emit_skeleton_action output stmts dfa rule_idx = Some out ->
        exists e, out = stmts ++ e).
Proof.
  split; [|split; [|split; [|split]]].
  - intros tail from jump H. exact (gen_fill_prefix _ _ _ _ _ _ H).
  - intros s H. unfold gen_fill_and_label in H.
    apply bind_Some in H. destruct H as [c [_ H]].
    apply bind_Some in H. destruct H as [st1 [H1 H]].
    assert (Hp1 : exists e, st1 = stmts ++ e).
    { destruct c; [exact (gen_fill_prefix _ _ _ _ _ _ H1)|].
      inversion H1. exists []. rewrite app_nil_r. reflexivity. }
    destruct Hp1 as [e1 ->].
    assert (Hp2 : exists e,
              (if negb (fill_eof (opts (block output)) =? NOEOF)%N
               then gen_settags argsubst iscopy isadd isset output (stmts ++ e1) dfa
                      (go_tags (go s))
               else stmts ++ e1) = stmts ++ e).
    { destruct (negb _); [|eexists; reflexivity].
      destruct (gen_settags_emits argsubst iscopy isadd isset output (stmts ++ e1) dfa
                  (go_tags (go s))) as [-> _].
      rewrite <- app_assoc. eexists. reflexivity. }
    destruct Hp2 as [e2 He2]. rewrite He2 in H.
    destruct (fill_label s); [destruct (CodeModel_eqb _ _)|]; inversion H;
      rewrite <- ?app_assoc; eexists; reflexivity.
  - intros from jump H. unfold gen_goto in H.
    apply bind_Some in H. destruct H as [tr [_ H]].
    destruct (jump_eof jump).
    + apply bind_Some in H. destruct H as [f [_ H]]. exact (gen_fill_prefix _ _ _ _ _ _ H).
    + inversion H. eexists. reflexivity.
  - intros rule H. exact (gen_fintags_prefix _ _ _ _ H).
  - intros rule_idx Ht H. unfold emit_rule in H.
    apply bind_Some in H. destruct H as [rule [_ H]].
    apply bind_Some in H. destruct H as [st1 [H1 H]].
    apply gen_fintags_prefix in H1. destruct H1 as [e1 ->].
    destruct (Target_eqb (target (opts (block output))) Target_SKELETON) eqn:Hsk.
    { exfalso. apply Ht. destruct (target (opts (block output))); try discriminate Hsk.
      reflexivity. }
    unfold gen_state_set, gen_cond_set, gen_continue_yyloop in H.
    repeat match type of H with
           | context [if ?b then _ else _] => destruct b
           | context [match ?c with GOTO_LABEL => _ | LOOP_SWITCH => _ | REC_FUNC => _ end] =>
               destruct c
           end;
      try (apply bind_Some in H; destruct H as [Y [HY H]];
           try (apply bind_Some in HY; destruct HY as [ls [_ HY]]);
           inversion HY; subst Y; clear HY);
      inversion H; rewrite <- ?app_assoc; eexists; reflexivity.
Qed.

End AppendOnly.

(** ** The code of a state *)

Section ActionProperties.

Variable heap : StatePtr -> State.
Variable argsubst : string -> string -> string -> bool -> string -> string.
Variable buf_label : Label -> string.
Variables iscopy isadd isset : tcmd_t -> bool.
Variable fallback_state_with_eof_rule : Adfa -> opt_t -> State -> StatePtr * tcid_t.
Variable emit_skeleton_action : Output -> CodeList -> Adfa -> N -> CodeList.
Variable var_accept : opt_t -> string.
Variable var_char : opt_t -> string.
Variable api_restore : opt_t -> string.
Variable api_debug : opt_t -> string.
Variable debug : opt_t -> bool.
Variable eager_skip : opt_t -> bool.
Variable nested_ifs : opt_t -> bool.
Variable computed_gotos : opt_t -> bool.
Variable computed_gotos_threshold : opt_t -> N.
Variable var_computed_gotos_table : opt_t -> string.
Variable render_code_type_yytarget : opt_t -> string.
Variable accepts : Adfa -> list AcceptTrans.
Variable initial_label : Adfa -> Label.
Variable NOSAVE : N.
Variable CodeCase : Type.
Variable code_case_default : CodeList -> CodeCase.
Variable code_case_number : CodeList -> Z -> CodeCase.
Variable code_switch : string -> list CodeCase -> Code.
Variable code_block_wrapped : CodeList -> Code.
Variable code_array : string -> string -> list string -> bool -> Code.

Local Abbreviation settags := (gen_settags argsubst iscopy isadd isset).
Local Abbreviation fill_ :=
  (gen_fill heap argsubst buf_label iscopy isadd isset fallback_state_with_eof_rule).
Local Abbreviation fill_and_label :=
  (gen_fill_and_label heap argsubst buf_label iscopy isadd isset
     fallback_state_with_eof_rule).
Local Abbreviation goto_ :=
  (gen_goto heap argsubst buf_label iscopy isadd isset fallback_state_with_eof_rule).
Local Abbreviation accept_binary :=
  (emit_accept_binary heap argsubst buf_label iscopy isadd isset
     fallback_state_with_eof_rule var_accept).
Local Abbreviation accept_cases :=
  (@emit_accept_cases heap argsubst buf_label iscopy isadd isset
     fallback_state_with_eof_rule CodeCase code_case_default code_case_number).
Local Abbreviation accept_ :=
  (@emit_accept heap argsubst buf_label iscopy isadd isset fallback_state_with_eof_rule
     var_accept api_restore nested_ifs computed_gotos computed_gotos_threshold
     var_computed_gotos_table render_code_type_yytarget CodeCase code_case_default
     code_case_number code_switch code_block_wrapped code_array).
Local Abbreviation action_ :=
  (@emit_action heap argsubst buf_label iscopy isadd isset fallback_state_with_eof_rule
     emit_skeleton_action var_accept var_char api_restore api_debug debug eager_skip
     nested_ifs computed_gotos computed_gotos_threshold var_computed_gotos_table
     render_code_type_yytarget accepts initial_label NOSAVE CodeCase code_case_default
     code_case_number code_switch code_block_wrapped code_array).

Lemma gen_restore_app (output : Output) (stmts : CodeList) :
  gen_restore api_restore output stmts = stmts ++ gen_restore api_restore output [].
Proof.
  unfold gen_restore. destruct (Api_eqb _ _); [|destruct (ApiStyle_eqb _ _)]; reflexivity.
Qed.

Lemma gen_goto_app (output : Output) (dfa : Adfa) (from : option State) (j : CodeJump) :
  jump_eof j = false ->
  exists e,
    goto_ output dfa [] from j = Some e
    /\ forall stmts, goto_ output dfa stmts from j = Some (stmts ++ e).
Proof.
  intros Heof. eexists. split.
  - rewrite (gen_goto_eq heap argsubst buf_label iscopy isadd isset
               fallback_state_with_eof_rule output dfa [] from j Heof).
    reflexivity.
  - intros stmts.
    rewrite (gen_goto_eq heap argsubst buf_label iscopy isadd isset
               fallback_state_with_eof_rule output dfa stmts from j Heof).
    reflexivity.
Qed.

Lemma emit_accept_cases_some (output : Output) (dfa : Adfa) (nacc : N) :
  forall (rows : list AcceptTrans) (i : N),
    exists cases, accept_cases output dfa nacc i rows = Some cases.
Proof.
  induction rows as [|a rows IH]; intros i; simpl; [eexists; reflexivity|].
  destruct (@gen_goto_app output dfa None (accept_jump a) eq_refl) as [e [He _]].
  unfold accept_jump in He. rewrite He. simpl.
  destruct (IH (i + 1)%N) as [cases Hc]. rewrite Hc. simpl. eexists. reflexivity.
Qed.

(** X23. The code of an ACCEPT state: nothing for an empty accept table;
    otherwise first the restore of the cursor, and then, for a table of one
    row, the jump of that row without any test of [yyaccept]; with nested ifs,
    or for a table of two rows (and no jump table), a tree of tests in which
    the value [n] of [yyaccept] runs the jump of row [n]. *)
Theorem emit_accept_rows (output : Output) (stmts : CodeList) (dfa : Adfa)
    (acc : list AcceptTrans) :
  let o := opts (block output) in
  let nacc := N.of_nat (length acc) in
  let restore := gen_restore api_restore output [] in
  (acc = [] -> accept_ output stmts dfa acc = Some stmts)
  /\ (acc <> [] -> exists e, accept_ output stmts dfa acc = Some (stmts ++ restore ++ e))
  /\ (forall a, acc = [a] ->
        exists leaf,
          goto_ output dfa [] None (accept_jump a) = Some leaf
          /\ accept_ output stmts dfa acc = Some (stmts ++ restore ++ leaf))
  /\ ((2 <= nacc)%N ->
      computed_gotos o && (computed_gotos_threshold o <=? nacc)%N
        && negb (existsb (fun a => negb (acc_tags a =? TCID0)%N) acc) = false ->
      nested_ifs o || (nacc =? 2)%N = true ->
      exists tree,
        accept_ output stmts dfa acc = Some (stmts ++ restore ++ tree)
        /\ forall n, (n < nacc)%N ->
             exists a leaf,
               of_nth acc n = Some a
               /\ goto_ output dfa [] None (accept_jump a) = Some leaf
               /\ dispatch (var_accept o) n tree = leaf).
Proof.
  cbv zeta.
  assert (Hone : forall a, acc = [a] ->
            exists leaf,
              goto_ output dfa [] None (accept_jump a) = Some leaf
              /\ accept_ output stmts dfa acc
                 = Some (stmts ++ gen_restore api_restore output [] ++ leaf)).
  { intros a Ha. rewrite Ha.
    destruct (@gen_goto_app output dfa None (accept_jump a) eq_refl) as [e [He Hall]].
    exists e. split; [exact He|]. unfold emit_accept. simpl.
    change {| jump_to := acc_state a; jump_tags := acc_tags a; jump_skip := false;
              jump_elide := false; jump_eof := false |} with (accept_jump a).
    rewrite Hall, gen_restore_app, <- app_assoc. reflexivity. }
  assert (Htree : (2 <= N.of_nat (length acc))%N ->
            exists tree,
              accept_binary output dfa acc 0 (N.of_nat (length acc) - 1) = Some tree
              /\ forall n, (n < N.of_nat (length acc))%N ->
                   exists a leaf,
                     of_nth acc n = Some a
                     /\ goto_ output dfa [] None (accept_jump a) = Some leaf
                     /\ dispatch (var_accept (opts (block output))) n tree = leaf).
  { intros Hn.
    destruct (@emit_accept_binary_dispatch heap argsubst buf_label iscopy isadd isset
                fallback_state_with_eof_rule var_accept output dfa acc 0
                (N.of_nat (length acc) - 1)%N)
      as [tree [Ht Hd]]; [lia | lia |].
    exists tree. split; [exact Ht|]. intros n Hlt. apply Hd. lia. }
  assert (Hmany : (2 <= N.of_nat (length acc))%N ->
            (N.of_nat (length acc) =? 0)%N = false
            /\ (N.of_nat (length acc) =? 1)%N = false).
  { intros Hn. split; apply N.eqb_neq; lia. }
  split; [intros Ha; rewrite Ha; reflexivity|]. split; [|split; [exact Hone|]].
  - intros Hne.
    destruct (N.le_gt_cases 2 (N.of_nat (length acc))) as [H2 | H2].
    + destruct (Hmany H2) as [E0 E1]. unfold emit_accept. rewrite E0, E1.
      rewrite gen_restore_app.
      destruct (computed_gotos _ && _ && _).
      * rewrite <- app_assoc. eexists. reflexivity.
      * destruct (nested_ifs _ || _).
        -- destruct (Htree H2) as [tree [Ht _]]. rewrite Ht. simpl.
           rewrite <- app_assoc. eexists. reflexivity.
        -- destruct (emit_accept_cases_some output dfa (N.of_nat (length acc)) acc 0)
             as [cases Hc].
           rewrite Hc. simpl. rewrite <- app_assoc. eexists. reflexivity.
    + assert (Ha : exists a, acc = [a]).
      { clear Hone Htree Hmany. destruct acc as [|a [|b r]];
          [contradiction | exists a; reflexivity | simpl in H2; lia]. }
      destruct Ha as [a Ha]. destruct (Hone a Ha) as [leaf [_ H]]. exists leaf. exact H.
  - intros H2 Htable Hnested. destruct (Htree H2) as [tree [Ht Hd]].
    exists tree. split; [|exact Hd].
    destruct (Hmany H2) as [E0 E1]. unfold emit_accept. rewrite E0, E1.
    rewrite Htable, Hnested, Ht. simpl. rewrite gen_restore_app, <- app_assoc. reflexivity.
Qed.

Lemma gen_fill_app (output : Output) (stmts : CodeList) (tail : option CodeList)
    (dfa : Adfa) (from : State) (jump : option CodeJump) (out : CodeList) :
  fill_ output stmts tail dfa from jump = Some out ->
  exists e, fill_ output [] tail dfa from jump = Some e /\ out = stmts ++ e.
Proof.
  unfold gen_fill.
  match goal with
  | |- bind ?m _ = _ -> _ => destruct m as [body|]; [|intros H; discriminate H]
  end.
  simpl. unfold gen_if, append_opt.
  destruct (fill_check _ && _); [destruct (CodeModel_eqb _ _)|]; intros H; inversion H;
    eexists; (split; [reflexivity|]); destruct tail; simpl; rewrite <- ?app_assoc;
    reflexivity.
Qed.

Lemma gen_fill_and_label_app (output : Output) (stmts : CodeList) (dfa : Adfa) (s : State)
    (out : CodeList) :
  fill_and_label output stmts dfa s = Some out ->
  exists F, fill_and_label output [] dfa s = Some F /\ out = stmts ++ F.
Proof.
  assert (Htail : forall e1 : CodeList,
            match fill_label s with
            | Some fl =>
                if CodeModel_eqb (code_model (opts (block output))) GOTO_LABEL
                then ret ((if negb (fill_eof (opts (block output)) =? NOEOF)%N
                           then settags output (stmts ++ e1) dfa (go_tags (go s))
                           else stmts ++ e1)
                          ++ [code_slabel (gen_fill_label output (index fl))])
                else ret (if negb (fill_eof (opts (block output)) =? NOEOF)%N
                          then settags output (stmts ++ e1) dfa (go_tags (go s))
                          else stmts ++ e1)
            | None => ret (if negb (fill_eof (opts (block output)) =? NOEOF)%N
                           then settags output (stmts ++ e1) dfa (go_tags (go s))
                           else stmts ++ e1)
            end = Some out ->
            exists F,
              match fill_label s with
              | Some fl =>
                  if CodeModel_eqb (code_model (opts (block output))) GOTO_LABEL
                  then ret ((if negb (fill_eof (opts (block output)) =? NOEOF)%N
                             then settags output e1 dfa (go_tags (go s))
                             else e1)
                            ++ [code_slabel (gen_fill_label output (index fl))])
                  else ret (if negb (fill_eof (opts (block output)) =? NOEOF)%N
                            then settags output e1 dfa (go_tags (go s))
                            else e1)
              | None => ret (if negb (fill_eof (opts (block output)) =? NOEOF)%N
                             then settags output e1 dfa (go_tags (go s))
                             else e1)
              end = Some F
              /\ out = stmts ++ F).
  { intros e1 H.
    destruct (gen_settags_emits argsubst iscopy isadd isset output (stmts ++ e1) dfa
                (go_tags (go s))) as [Ha _].
    destruct (gen_settags_emits argsubst iscopy isadd isset output e1 dfa
                (go_tags (go s))) as [Hb _].
    rewrite Ha in H. rewrite Hb.
    destruct (negb (fill_eof (opts (block output)) =? NOEOF)%N);
      (destruct (fill_label s); [destruct (CodeModel_eqb _ _)|]); inversion H;
      eexists; (split; [reflexivity|]); rewrite <- ?app_assoc; reflexivity. }
  unfold gen_fill_and_label.
  match goal with
  | |- bind ?m _ = _ -> _ => destruct m as [c|]; [|intros H; discriminate H]
  end.
  cbn [bind]. intros H. apply bind_Some in H. destruct H as [st1 [H1 H]].
  destruct c.
  - apply gen_fill_app in H1. destruct H1 as [e1 [He1 ->]]. rewrite He1. cbn [bind].
    apply Htail. exact H.
  - inversion H1. subst st1. cbn [bind ret].
    apply (Htail []). rewrite app_nil_r. exact H.
Qed.

Lemma gen_fill_and_label_no_peek (output : Output) (dfa : Adfa) (s : State) (F : CodeList) :
  fill_and_label output [] dfa s = Some F -> ~ In code_peek F.
Proof.
  unfold gen_fill_and_label. intros H.
  apply bind_Some in H. destruct H as [c [Hc H]].
  apply bind_Some in H. destruct H as [st1 [H1 H]].
  assert (Hst1 : ~ In code_peek st1).
  { destruct c; [|inversion H1; intros []].
    destruct (fill_enable (opts (block output))) eqn:Hfe; [|inversion Hc].
    apply bind_Some in Hc. destruct Hc as [e [_ Hc]]. inversion Hc as [Hc'].
    apply andb_true_iff in Hc'. destruct Hc' as [Hc' _].
    apply andb_true_iff in Hc'. destruct Hc' as [_ Hno].
    unfold gen_fill, gen_if, gen_state_set in H1. rewrite Hfe, Hno in H1. simpl in H1.
    apply bind_Some in H1. destruct H1 as [body [Hbody H1]].
    apply bind_Some in Hbody. destruct Hbody as [st [Hst Hbody]].
    assert (Hst' : ~ In code_peek st).
    { destruct (storable_state (opts (block output))); [|inversion Hst; intros []].
      apply bind_Some in Hst. destruct Hst as [fl [_ Hst]].
      destruct (state_set_naked _); inversion Hst; simpl;
        intros [Hx | []]; discriminate Hx. }
    inversion Hbody as [Hb]. clear Hbody.
    destruct (fill_check _ && _) in H1; inversion H1 as [E]; clear H1; try subst st1.
    - destruct (CodeModel_eqb _ REC_FUNC); intros [Hx | []]; discriminate Hx.
    - rewrite <- Hb. intros Hin. apply in_app_iff in Hin.
      destruct Hin as [Hin | [Hx | []]]; [exact (Hst' Hin)|].
      destruct (fill_naked _); discriminate Hx. }
  assert (Hst2 : ~ In code_peek
                     (if negb (fill_eof (opts (block output)) =? NOEOF)%N
                      then settags output st1 dfa (go_tags (go s)) else st1)).
  { destruct (negb _); [|exact Hst1].
    destruct (gen_settags_emits argsubst iscopy isadd isset output st1 dfa
                (go_tags (go s))) as [Ha Hf].
    rewrite Ha. intros Hin. apply in_app_iff in Hin. destruct Hin as [Hin | Hin];
      [exact (Hst1 Hin)|].
    rewrite Forall_forall in Hf. apply Hf in Hin. discriminate Hin. }
  destruct (fill_label s); [destruct (CodeModel_eqb _ _)|]; inversion H; subst F;
    try exact Hst2.
  intros Hin. apply in_app_iff in Hin. destruct Hin as [Hin | [Hx | []]];
    [exact (Hst2 Hin) | discriminate Hx].
Qed.

Lemma gen_debug_app (output : Output) (l : Label) (stmts : CodeList) :
  gen_debug argsubst var_char api_debug debug output l stmts
  = stmts ++ gen_debug argsubst var_char api_debug debug output l [].
Proof.
  unfold gen_debug. destruct (negb _); [rewrite app_nil_r; reflexivity|].
  destruct (Api_eqb _ _); [|destruct (ApiStyle_eqb _ _)]; reflexivity.
Qed.

Lemma emit_action_code (output : Output) (dfa : Adfa) (s : State) (stmts : CodeList) :
  let o := opts (block output) in
  let save := Action.Kind_eqb (kind (action s)) Action.SAVE in
  let many := (1 <? N.of_nat (length (accepts dfa)))%N in
  let peek := if omit_peek heap s then [] else [code_peek] in
  (kind (action s) = Action.MOVE -> action_ output dfa s stmts = Some stmts)
  /\ (kind (action s) = Action.MATCH \/ kind (action s) = Action.SAVE ->
      forall out, action_ output dfa s stmts = Some out ->
        exists F,
          fill_and_label output [] dfa s = Some F
          /\ ~ In code_peek F
          /\ out = stmts
                   ++ (if save && many
                       then [code_accept (wrap32 (info_save (action s)))] else [])
                   ++ (if eager_skip o then [] else [code_skip])
                   ++ (if save then [code_backup] else [])
                   ++ F ++ peek)
  /\ (kind (action s) = Action.INITIAL ->
      forall out, action_ output dfa s stmts = Some out ->
        let backup := negb (info_save (action s) =? NOSAVE)%N in
        exists F,
          fill_and_label output [] dfa s = Some F
          /\ ~ In code_peek F
          /\ out = stmts
                   ++ (if used (label s) && many && backup
                       then [code_assign (var_accept o) (u64 (info_save (action s))) None]
                       else [])
                   ++ (if used (label s) && negb (eager_skip o) then [code_skip] else [])
                   ++ [code_nlabel (initial_label dfa)]
                   ++ F
                   ++ (if backup then [code_backup] else [])
                   ++ peek
                   ++ gen_debug argsubst var_char api_debug debug output
                        (initial_label dfa) []).
Proof.
  intros o save many peek. split; [|split].
  - intros Hk. unfold emit_action. rewrite Hk. reflexivity.
  - intros Hk out H. unfold emit_action in H. fold o in H. subst save many peek.
    destruct Hk as [Hk | Hk]; rewrite Hk in *; simpl;
      apply bind_Some in H; destruct H as [st [Hst H]]; inversion H; clear H;
      apply gen_fill_and_label_app in Hst; destruct Hst as [F [HF ->]];
      exists F; (split; [exact HF|]); (split; [exact (gen_fill_and_label_no_peek _ _ _ HF)|]);
      unfold gen_peek; destruct (omit_peek heap s); simpl;
      destruct (eager_skip o); simpl;
      try destruct (1 <? N.of_nat (length (accepts dfa)))%N; simpl;
      rewrite <- ?app_assoc, ?app_nil_r; reflexivity.
  - intros Hk out H backup. unfold emit_action in H. fold o in H. rewrite Hk in H.
    fold backup in H. subst many peek.
    apply bind_Some in H. destruct H as [st [Hst H]]. inversion H. clear H.
    apply gen_fill_and_label_app in Hst. destruct Hst as [F [HF ->]].
    exists F. split; [exact HF|]. split; [exact (gen_fill_and_label_no_peek _ _ _ HF)|].
    rewrite gen_debug_app. unfold gen_peek.
    destruct (omit_peek heap s); simpl;
      destruct (used (label s) && (1 <? N.of_nat (length (accepts dfa)))%N && backup);
      destruct (used (label s) && negb (eager_skip o)); destruct backup; simpl;
      rewrite <- ?app_assoc; simpl; rewrite <- ?app_assoc; reflexivity.
Qed.

(** X24. The code at the entry of a state.  For a MATCH or SAVE state it is,
    in this order: for SAVE the store of the accept number when the DFA has
    more than one accept row; the skip unless skips are eager; for SAVE the
    backup; the fill with its label; and last the peek, exactly when
    [omit_peek] does not hold for the state (the fill itself has no peek).
    For the INITIAL state: the store of the accept number and the skip (both
    only when the label of the state is used), the initial label, the fill
    with its label, the backup when the state saves, the peek, the debug
    statement.  A MOVE state has no code. *)
Theorem emit_action_entry (output : Output) (dfa : Adfa) (s : State) (stmts : CodeList) :
  let o := opts (block output) in
  let save := Action.Kind_eqb (kind (action s)) Action.SAVE in
  let many := (1 <? N.of_nat (length (accepts dfa)))%N in
  let peek := if omit_peek heap s then [] else [code_peek] in
  (kind (action s) = Action.MOVE -> action_ output dfa s stmts = Some stmts)
  /\ (kind (action s) = Action.MATCH \/ kind (action s) = Action.SAVE ->
      forall out, action_ output dfa s stmts = Some out ->
        exists F,
          fill_and_label output [] dfa s = Some F
          /\ ~ In code_peek F
          /\ out = stmts
                   ++ (if save && many
                       then [code_accept (wrap32 (info_save (action s)))] else [])
                   ++ (if eager_skip o then [] else [code_skip])
                   ++ (if save then [code_backup] else [])
                   ++ F ++ peek)
  /\ (kind (action s) = Action.INITIAL ->
      forall out, action_ output dfa s stmts = Some out ->
        let backup := negb (info_save (action s) =? NOSAVE)%N in
        exists F,
          fill_and_label output [] dfa s = Some F
          /\ ~ In code_peek F
          /\ out = stmts
                   ++ (if used (label s) && many && backup
                       then [code_assign (var_accept o) (u64 (info_save (action s))) None]
                       else [])
                   ++ (if used (label s) && negb (eager_skip o) then [code_skip] else [])
                   ++ [code_nlabel (initial_label dfa)]
                   ++ F
                   ++ (if backup then [code_backup] else [])
                   ++ peek
                   ++ gen_debug argsubst var_char api_debug debug output
                        (initial_label dfa) []).
Proof. exact (emit_action_code output dfa s stmts). Qed.

Lemma in_optional_then (b : bool) (c x : Code) :
  In x (if b then [c] else []) -> x = c.
Proof. destruct b; simpl; [intros [H | []]; symmetry; exact H | intros []]. Qed.

Lemma in_optional_else (b : bool) (c x : Code) :
  In x (if b then [] else [c]) -> x = c.
Proof. destruct b; simpl; [intros [] | intros [H | []]; symmetry; exact H]. Qed.

Lemma peek_between (before after : CodeList) (omit : bool) :
  ~ In code_peek before -> ~ In code_peek after ->
  (In code_peek (before ++ (if omit then [] else [code_peek]) ++ after) <-> omit = false).
Proof.
  intros Hb Ha. rewrite !in_app_iff. destruct omit; simpl.
  - split; [intros [H | [[] | H]]; contradiction | discriminate].
  - split; [reflexivity | intros _; right; left; left; reflexivity].
Qed.

(** [emit_action] returns for a MATCH, INITIAL or SAVE state when the fill of
    the state does: when the state has a span to look at (with YYFILL
    enabled) and, with storable state, the state to resume at has its fill
    label. *)
Lemma emit_action_returns (output : Output) (dfa : Adfa) (s : State) (stmts : CodeList) :
  let o := opts (block output) in
  kind (action s) = Action.MATCH \/ kind (action s) = Action.INITIAL
  \/ kind (action s) = Action.SAVE ->
  (fill_enable o = true -> span (go s) <> []) ->
  (fill_enable o = true -> storable_state o = true -> fill_eof o = NOEOF ->
     fill_label (heap (fill_state s)) <> None) ->
  exists out, action_ output dfa s stmts = Some out.
Proof.
  intros o Hk Hspan Hlabel. unfold emit_action. fold o.
  destruct Hk as [Hk | [Hk | Hk]]; rewrite Hk;
    match goal with
    | |- context [gen_fill_and_label _ _ _ _ _ _ _ _ ?st _ _] =>
        destruct (@gen_fill_and_label_returns heap argsubst buf_label iscopy isadd isset
                    fallback_state_with_eof_rule output st dfa s Hspan Hlabel) as [F HF];
        rewrite HF
    end; eexists; reflexivity.
Qed.

(** C1 (amended). For a state whose action is MATCH, INITIAL, SAVE or MOVE,
    the peek statement is emitted at state entry if and only if the state is
    not omitted by [omit_peek]: the code of a MATCH,
    INITIAL or SAVE state has the peek once when [omit_peek] does not hold and
    not at all when it holds, and a MOVE state, for which it holds, has no
    code.  The code of a MATCH, INITIAL or SAVE state is there whenever the
    fill of the state can be generated.  [omit_peek s] holds exactly when the
    action of [s] is MOVE, or [s] has exactly one span and the destination of
    that span is not a MOVE state. *)
Theorem emit_action_peek (output : Output) (dfa : Adfa) (s : State) (stmts : CodeList) :
  kind (action s) = Action.MATCH \/ kind (action s) = Action.INITIAL
  \/ kind (action s) = Action.SAVE \/ kind (action s) = Action.MOVE ->
  let o := opts (block output) in
  (omit_peek heap s = true <->
     kind (action s) = Action.MOVE
     \/ exists sp, span (go s) = [sp]
                   /\ kind (action (heap (span_to sp))) <> Action.MOVE)
  /\ (forall out, action_ output dfa s stmts = Some out ->
        exists before after,
          out = stmts ++ before ++ (if omit_peek heap s then [] else [code_peek]) ++ after
          /\ ~ In code_peek before /\ ~ In code_peek after
          /\ (In code_peek (before ++ (if omit_peek heap s then [] else [code_peek]) ++ after)
              <-> omit_peek heap s = false))
  /\ (kind (action s) = Action.MOVE ->
      omit_peek heap s = true /\ action_ output dfa s stmts = Some stmts)
  /\ (kind (action s) <> Action.MOVE ->
      (fill_enable o = true -> span (go s) <> []) ->
      (fill_enable o = true -> storable_state o = true -> fill_eof o = NOEOF ->
         fill_label (heap (fill_state s)) <> None) ->
      exists out, action_ output dfa s stmts = Some out).
Proof.
  intros Hk o.
  destruct (emit_action_code output dfa s stmts) as (Hmove & Hms & Hini).
  assert (Hmv : kind (action s) = Action.MOVE -> omit_peek heap s = true).
  { intros Hm. unfold omit_peek. rewrite Hm. reflexivity. }
  split; [exact (proj1 (omit_peek_gen_peek heap s []))|]. split; [|split].
  - intros out H.
    assert (Hshape : exists before after,
              out = stmts ++ before ++ (if omit_peek heap s then [] else [code_peek]) ++ after
              /\ ~ In code_peek before /\ ~ In code_peek after).
    { destruct Hk as [Hk | [Hk | [Hk | Hk]]].
      - destruct (Hms (or_introl Hk) out H) as [F [_ [Hno Hout]]].
        exists ((if Action.Kind_eqb (kind (action s)) Action.SAVE
                    && (1 <? N.of_nat (length (accepts dfa)))%N
                 then [code_accept (wrap32 (info_save (action s)))] else [])
                ++ (if eager_skip (opts (block output)) then [] else [code_skip])
                ++ (if Action.Kind_eqb (kind (action s)) Action.SAVE
                    then [code_backup] else [])
                ++ F), [].
        split; [|split].
        + rewrite Hout, <- !app_assoc, app_nil_r. reflexivity.
        + rewrite !in_app_iff. intros [Hi | [Hi | [Hi | Hi]]].
          * apply in_optional_then in Hi. discriminate Hi.
          * apply in_optional_else in Hi. discriminate Hi.
          * apply in_optional_then in Hi. discriminate Hi.
          * exact (Hno Hi).
        + intros [].
      - destruct (Hini Hk out H) as [F [_ [Hno Hout]]].
        exists ((if used (label s) && (1 <? N.of_nat (length (accepts dfa)))%N
                    && negb (info_save (action s) =? NOSAVE)%N
                 then [code_assign (var_accept (opts (block output)))
                         (u64 (info_save (action s))) None]
                 else [])
                ++ (if used (label s) && negb (eager_skip (opts (block output)))
                    then [code_skip] else [])
                ++ [code_nlabel (initial_label dfa)]
                ++ F
                ++ (if negb (info_save (action s) =? NOSAVE)%N then [code_backup] else [])),
               (gen_debug argsubst var_char api_debug debug output
                  (initial_label dfa) []).
        split; [|split].
        + rewrite Hout, <- !app_assoc. reflexivity.
        + rewrite !in_app_iff. intros [Hi | [Hi | [Hi | [Hi | Hi]]]].
          * apply in_optional_then in Hi. discriminate Hi.
          * apply in_optional_then in Hi. discriminate Hi.
          * destruct Hi as [Hi | []]. discriminate Hi.
          * exact (Hno Hi).
          * apply in_optional_then in Hi. discriminate Hi.
        + unfold gen_debug.
          destruct (negb (debug (opts (block output)))); [simpl; tauto|].
          destruct (Api_eqb _ _); [|destruct (ApiStyle_eqb _ _)]; simpl;
            intros [Hi | []]; discriminate Hi.
      - destruct (Hms (or_intror Hk) out H) as [F [_ [Hno Hout]]].
        exists ((if Action.Kind_eqb (kind (action s)) Action.SAVE
                    && (1 <? N.of_nat (length (accepts dfa)))%N
                 then [code_accept (wrap32 (info_save (action s)))] else [])
                ++ (if eager_skip (opts (block output)) then [] else [code_skip])
                ++ (if Action.Kind_eqb (kind (action s)) Action.SAVE
                    then [code_backup] else [])
                ++ F), [].
        split; [|split].
        + rewrite Hout, <- !app_assoc, app_nil_r. reflexivity.
        + rewrite !in_app_iff. intros [Hi | [Hi | [Hi | Hi]]].
          * apply in_optional_then in Hi. discriminate Hi.
          * apply in_optional_else in Hi. discriminate Hi.
          * apply in_optional_then in Hi. discriminate Hi.
          * exact (Hno Hi).
        + intros [].
      - rewrite (Hmove Hk) in H. inversion H. subst out. rewrite (Hmv Hk).
        exists [], []. rewrite !app_nil_r. split; [reflexivity|]. split; intros []. }
    destruct Hshape as [before [after [Hout [Hb Ha]]]].
    exists before, after. split; [exact Hout|]. split; [exact Hb|]. split; [exact Ha|].
    apply peek_between; assumption.
  - intros Hm. split; [exact (Hmv Hm) | exact (Hmove Hm)].
  - intros Hnm Hspan Hlabel. apply emit_action_returns; [|exact Hspan | exact Hlabel].
    destruct Hk as [Hk | [Hk | [Hk | Hk]]]; auto. contradiction.
Qed.

(** C2 (amended). For a state whose action is MATCH, INITIAL or SAVE, a fill
    is emitted at state entry exactly when YYFILL is enabled, the state is not
    an end state, there is no end-of-input rule and the state needs at least
    one character: the code at entry is the statements before the fill (the
    store of the accept number, the skip, the backup of a SAVE state, the
    initial label), then the fill, then the tag actions of the end-of-input
    rule and the fill label, then the rest (the backup of the INITIAL state,
    the peek, the debug statement); the fill is an optional state-set and
    the YYFILL statement for [fill s] characters, under the guard for [fill s]
    characters when fill checks are on, and it is empty when one of the four
    conditions does not hold, so that no end state of these kinds gets a fill
    at entry.  A MOVE state has no code at entry.  The code of a MATCH,
    INITIAL or SAVE state is there whenever the fill of the state can be
    generated.  In every fill of [gen_fill], the number [need] of characters
    of the less-than guard and of the YYFILL invocation is 1 with the
    end-of-input rule and the fill of the state without it. *)
Theorem emit_action_fill (output : Output) (dfa : Adfa) (s : State) (stmts : CodeList) :
  let o := opts (block output) in
  let eof_rule := negb (fill_eof o =? NOEOF)%N in
  let save := Action.Kind_eqb (kind (action s)) Action.SAVE in
  let many := (1 <? N.of_nat (length (accepts dfa)))%N in
  let peek := if omit_peek heap s then [] else [code_peek] in
  let required := fill_enable o = true /\ endstate heap s = Some false
                  /\ fill_eof o = NOEOF /\ (0 < fill s)%N in
  let entry_fill (F : CodeList) :=
    exists fillcode,
      F = fillcode ++ (if eof_rule then settags output [] dfa (go_tags (go s)) else [])
                   ++ fill_label_stmt output s
      /\ (required ->
          exists st,
            (if storable_state o
             then exists fl, fill_label (heap (fill_state s)) = Some fl
                             /\ st = gen_state_set argsubst output [] (u32 (index fl))
             else st = [])
            /\ fillcode
               = fill_guard argsubst o (fill s) (st ++ [fill_stmt argsubst o (fill s)]))
      /\ (~ required -> fillcode = []) in
  (kind (action s) = Action.MATCH \/ kind (action s) = Action.SAVE ->
   forall out, action_ output dfa s stmts = Some out ->
     exists F,
       entry_fill F
       /\ out = stmts
                ++ (if save && many
                    then [code_accept (wrap32 (info_save (action s)))] else [])
                ++ (if eager_skip o then [] else [code_skip])
                ++ (if save then [code_backup] else [])
                ++ F ++ peek)
  /\ (kind (action s) = Action.INITIAL ->
      forall out, action_ output dfa s stmts = Some out ->
        let backup := negb (info_save (action s) =? NOSAVE)%N in
        exists F,
          entry_fill F
          /\ out = stmts
                   ++ (if used (label s) && many && backup
                       then [code_assign (var_accept o) (u64 (info_save (action s))) None]
                       else [])
                   ++ (if used (label s) && negb (eager_skip o) then [code_skip] else [])
                   ++ [code_nlabel (initial_label dfa)]
                   ++ F
                   ++ (if backup then [code_backup] else [])
                   ++ peek
                   ++ gen_debug argsubst var_char api_debug debug output
                        (initial_label dfa) [])
  /\ (kind (action s) = Action.MOVE -> action_ output dfa s stmts = Some stmts)
  /\ (endstate heap s = Some true -> ~ required)
  /\ (kind (action s) = Action.MATCH \/ kind (action s) = Action.INITIAL
      \/ kind (action s) = Action.SAVE ->
      (fill_enable o = true -> span (go s) <> []) ->
      (fill_enable o = true -> storable_state o = true -> fill_eof o = NOEOF ->
         fill_label (heap (fill_state s)) <> None) ->
      exists out, action_ output dfa s stmts = Some out)
  /\ (forall stmts' tail from jump out',
        fill_ output stmts' tail dfa from jump = Some out' ->
        let need := if eof_rule then 1%N else fill from in
        exists body st rematch fallback,
          out' = (if fill_check o && match body with [] => false | _ :: _ => true end
                  then gen_if o (gen_less_than argsubst o need) body tail stmts'
                  else append_opt (stmts' ++ body) tail)
          /\ body = (if fill_enable o then
                       if eof_rule && negb (storable_state o) then
                         let call := fill_call argsubst o need
                                     +:+ (if fill_naked o then "" else " == 0") in
                         if negb (is_empty (var_fill o))
                         then gen_if o (var_fill o) rematch (Some fallback)
                                (st ++ [if fill_naked o then code_text call
                                        else code_stmt call])
                         else gen_if o call rematch (Some fallback) st
                       else st ++ [fill_stmt argsubst o need]
                     else if eof_rule && negb (storable_state o) then fallback else [])).
Proof.
  intros o eof_rule save many peek required entry_fill.
  destruct (emit_action_code output dfa s stmts) as (Hmove & Hms & Hini).
  split; [|split; [|split; [|split; [|split]]]].
  - intros Hk out H. destruct (Hms Hk out H) as [F [HF [_ Hout]]].
    exists F. split; [|exact Hout].
    exact (@gen_fill_and_label_parts heap argsubst buf_label iscopy isadd isset
             fallback_state_with_eof_rule output dfa s F HF).
  - intros Hk out H backup. destruct (Hini Hk out H) as [F [HF [_ Hout]]].
    exists F. split; [|exact Hout].
    exact (@gen_fill_and_label_parts heap argsubst buf_label iscopy isadd isset
             fallback_state_with_eof_rule output dfa s F HF).
  - exact Hmove.
  - intros He (_ & He' & _). congruence.
  - intros Hk Hspan Hlabel. exact (@emit_action_returns output dfa s stmts Hk Hspan Hlabel).
  - intros stmts' tail from jump out' H need.
    exact (@gen_fill_need heap argsubst buf_label iscopy isadd isset
             fallback_state_with_eof_rule output stmts' tail dfa from jump out' H).
Qed.

End ActionProperties.

(** ** Instances of the further properties *)

(** State 2 of the arena has one span, to the rule state 1: it is an end
    state and gets no peek. *)
Lemma endstate_no_peek_witness :
  endstate heap_ex (heap_ex 2%nat) = Some true
  /\ gen_peek heap_ex (heap_ex 2%nat) [] = []
  /\ need_yych_arg heap_ex (heap_ex 2%nat) = Some false.
Proof.
  split; [reflexivity|].
  destruct (@endstate_no_peek heap_ex (heap_ex 2%nat) eq_refl) as (_ & Hp & Hy).
  split; [apply Hp | exact Hy].
Defined.

Lemma vartag_name_inj_witness :
  vartag_name 3%Z "yyt" true = "yytm3" /\ (3 = 3)%Z /\ true = true.
Proof.
  split; [reflexivity|].
  exact (@vartag_name_inj 3%Z 3%Z "yyt" true true eq_refl).
Defined.

(** A save followed by a copy: the code of the whole list is the code of the
    save followed by the code of the copy. *)
Lemma gen_settags_compose_witness :
  gen_settags argsubst_ex iscopy_ex isadd_ex isset_ex output_default [] dfa_parts 3%N
  = [code_assign_exprs ["yyt1"] "YYCURSOR"; code_assign "yyt5" "yyt1" None]
  /\ gen_settags argsubst_ex iscopy_ex isadd_ex isset_ex output_default [] dfa_parts 3%N
     = [] ++ gen_settags argsubst_ex iscopy_ex isadd_ex isset_ex output_default [] dfa_parts 1%N
          ++ gen_settags argsubst_ex iscopy_ex isadd_ex isset_ex output_default [] dfa_parts 2%N.
Proof.
  split; [reflexivity|].
  apply (@gen_settags_compose argsubst_ex iscopy_ex isadd_ex isset_ex output_default []
           dfa_parts 3%N 1%N 2%N eq_refl eq_refl).
  right. simpl. right. reflexivity.
Defined.

(** The conditions of [block_a] and [block_b]: gathering them again from the
    same blocks adds nothing. *)
Lemma add_conditions_from_blocks_stable_witness :
  add_conditions_from_blocks [block_a; block_b] []
  = OK [mk_cond "yycc1" 0; mk_cond "yycc2" 1; mk_cond "yycc3" 2]
  /\ add_conditions_from_blocks [block_a; block_b]
       [mk_cond "yycc1" 0; mk_cond "yycc2" 1; mk_cond "yycc3" 2]
     = OK [mk_cond "yycc1" 0; mk_cond "yycc2" 1; mk_cond "yycc3" 2].
Proof.
  split; [reflexivity|].
  destruct (@add_conditions_from_blocks_stable [block_a; block_b] []
              [mk_cond "yycc1" 0; mk_cond "yycc2" 1; mk_cond "yycc3" 2]
              (NoDup_nil _) eq_refl) as (_ & _ & H).
  exact H.
Defined.

Lemma expand_cond_enum_enum_witness :
  expand_cond_enum argsubst_ex (mk_output opts_code [block_a; block_b] []) fmt_all
  = OK (Some (code_enum "YYCONDTYPE" ["yycc1"; "yycc2"; "yycc3"] None))
  /\ NoDup ["yycc1"; "yycc2"; "yycc3"].
Proof.
  split; [reflexivity|].
  destruct (@expand_cond_enum_enum argsubst_ex (mk_output opts_code [block_a; block_b] [])
              fmt_all "YYCONDTYPE" ["yycc1"; "yycc2"; "yycc3"] None eq_refl)
    as (_ & H & _).
  exact H.
Defined.

(** The capture of the groups 2 to 6 stands for [yypmatch[2]], [yypmatch[4]]
    and [yypmatch[6]]. *)
Lemma expand_fintags_capture_witness :
  expand_fintags argsubst_ex output_default tag_capture
  = ["yypmatch[2]"; "yypmatch[4]"; "yypmatch[6]"]
  /\ exists idxs,
       expand_fintags argsubst_ex output_default tag_capture
       = map (render_code_array_elem (opts (block output_default))
                (fintag_expr argsubst_ex "yypmatch" (opts (block output_default)))) idxs
       /\ NoDup idxs.
Proof.
  split; [reflexivity|].
  destruct (@expand_fintags_capture argsubst_ex output_default tag_capture eq_refl eq_refl)
    as [idxs [H1 [H2 _]]].
  exists idxs. split; [exact H1 | exact H2].
Defined.

Lemma gen_fintags_nmatch_first_witness :
  exists out rest,
    gen_fintags argsubst_ex output_default [] dfa_tags rule_tags = Some out
    /\ out = [] ++ code_assign "yynmatch" "3" None :: rest.
Proof.
  destruct (@gen_fintags_nmatch_first argsubst_ex output_default [] _ dfa_tags rule_tags
              eq_refl) as [H _].
  destruct (H eq_refl) as [rest Hrest].
  eexists. exists rest. split; [reflexivity | exact Hrest].
Defined.

(** The directive that lists the blocks [b] and [a], which report 5 and 3
    characters: the constant is 5. *)
Lemma gen_yymax_value_witness :
  target (opts (block (mk_output opts_code [block_a] [block_c; block_b]))) = Target_CODE
  /\ map (block_max MAXFILL) [block_b; block_a] = [5; 3]%N
  /\ gen_yymax argsubst_ex (mk_output opts_code [block_a] [block_c; block_b]) MAXFILL
       (fmt_named ["b"; "a"])
     = OK (code_const VarType_UINT "YYMAXFILL" "5").
Proof.
  split; [reflexivity|]. split; [reflexivity|].
  destruct (@gen_yymax_value argsubst_ex (mk_output opts_code [block_a] [block_c; block_b])
              MAXFILL (fmt_named ["b"; "a"])) as [_ H].
  destruct (H eq_refl [block_b; block_a]) as [Hc _].
  - repeat constructor.
  - exact Hc.
Defined.

Lemma gen_fintags_default_api_witness :
  exists out emitted,
    gen_fintags argsubst_ex output_default [] dfa_tags rule_tags = Some out
    /\ out = [] ++ emitted
    /\ Forall (fun c => is_plain_assignment c = true) emitted.
Proof.
  destruct (@gen_fintags_default_api argsubst_ex output_default [] _ dfa_tags rule_tags
              eq_refl eq_refl) as [emitted [H1 H2]].
  eexists. exists emitted. split; [reflexivity|]. split; [exact H1 | exact H2].
Defined.

(** Rec/func mode with an end-of-input rule: the YYFILL check of state 0. *)
Lemma gen_fill_rec_func_witness :
  exists out pre cond rematch fallback,
    gen_fill heap_ex argsubst_ex buf_label_ex iscopy_ex isadd_ex isset_ex
      (fallback_ex 1%nat TCID0) output_rec_eof [] None dfa_ex (heap_ex 0%nat) None = Some out
    /\ ends_in_tailcall rematch = true
    /\ ends_in_tailcall fallback = true
    /\ out = [code_if_then_else "YYLIMIT <= YYCURSOR"
                (pre ++ [code_if_then_else cond rematch (Some fallback)]) None].
Proof.
  assert (Hne : fill_eof (opts (block output_rec_eof)) <> NOEOF) by discriminate.
  destruct (@gen_fill_rec_func heap_ex argsubst_ex buf_label_ex iscopy_ex isadd_ex isset_ex
              (fallback_ex 1%nat TCID0) output_rec_eof [] None dfa_ex (heap_ex 0%nat) None _
              eq_refl eq_refl Hne eq_refl eq_refl)
    as (pre & cond & rematch & fallback & H1 & H2 & H3).
  eexists. exists pre, cond, rematch, fallback.
  split; [reflexivity|]. split; [exact H1|]. split; [exact H2 | exact H3].
Defined.

(** A jump to state 1 with tags and a skip, in goto/label mode. *)
Lemma gen_goto_transition_witness :
  gen_goto heap_ex argsubst_ex buf_label_ex iscopy_ex isadd_ex isset_ex
    (fallback_ex 1%nat TCID0) output_default dfa_ex [] None jump_plain
  = Some ([] ++ gen_settags argsubst_ex iscopy_ex isadd_ex isset_ex output_default []
                  dfa_ex 2%N
             ++ [code_skip] ++ [code_goto "yy1"]).
Proof.
  exact (@gen_goto_transition heap_ex argsubst_ex buf_label_ex iscopy_ex isadd_ex isset_ex
           (fallback_ex 1%nat TCID0) output_default dfa_ex [] None jump_plain eq_refl).
Defined.

(** Without YYFILL, the jump to the fallback state 1 checks nothing. *)
Lemma gen_goto_eof_elided_witness :
  gen_goto heap_ex argsubst_ex buf_label_ex iscopy_ex isadd_ex isset_ex
    (fallback_ex 1%nat TCID0) output_eof_nofill dfa_ex [] (Some (heap_ex 0%nat)) jump_ex
  = Some [code_goto "yy1"].
Proof.
  assert (Hne : fill_eof (opts (block output_eof_nofill)) <> NOEOF) by discriminate.
  exact (@gen_goto_eof_elided heap_ex argsubst_ex buf_label_ex iscopy_ex isadd_ex isset_ex
           (fallback_ex 1%nat TCID0) output_eof_nofill dfa_ex [] (heap_ex 0%nat) jump_ex
           TCID0 eq_refl eq_refl Hne eq_refl eq_refl (or_introl (conj eq_refl eq_refl))
           eq_refl).
Defined.

(** Three conditions: the value 1 of the getter runs [goto yyc_b]. *)
Lemma gen_cond_goto_binary_dispatch_witness :
  exists code,
    gen_cond_goto_binary api_cond_get_ex cond_get_naked_ex output_conds 0%N 2%N = Some code
    /\ dispatch "YYGETCONDITION()" 1%N code = [code_goto "yyc_b"].
Proof.
  destruct (@gen_cond_goto_binary_dispatch api_cond_get_ex cond_get_naked_ex output_conds
              0%N 2%N) as [code [Hcode Hn]].
  - discriminate.
  - reflexivity.
  - exists code. split; [exact Hcode|].
    destruct (Hn 1%N) as [c [Hc Hd]]; [split; discriminate|].
    simpl in Hc. inversion Hc. subst c. exact Hd.
Defined.

(** Three rows: the value 2 of [yyaccept] runs the jump of row 2. *)
Lemma emit_accept_binary_dispatch_witness :
  exists code leaf,
    emit_accept_binary heap_ex argsubst_ex buf_label_ex iscopy_ex isadd_ex isset_ex
      (fallback_ex 1%nat TCID0) var_accept_ex output_default dfa_ex accept_ex 0%N 2%N = Some code
    /\ gen_goto heap_ex argsubst_ex buf_label_ex iscopy_ex isadd_ex isset_ex
         (fallback_ex 1%nat TCID0) output_default dfa_ex [] None
         (accept_jump {| acc_state := 1%nat; acc_tags := 3%N |}) = Some leaf
    /\ dispatch "yyaccept" 2%N code = leaf.
Proof.
  destruct (@emit_accept_binary_dispatch heap_ex argsubst_ex buf_label_ex iscopy_ex isadd_ex
              isset_ex (fallback_ex 1%nat TCID0) var_accept_ex output_default dfa_ex
              accept_ex 0%N 2%N) as [code [Hcode Hn]].
  - discriminate.
  - reflexivity.
  - destruct (Hn 2%N) as [a [leaf [Ha [Hg Hd]]]]; [split; discriminate|].
    exists code, leaf. simpl in Ha. inversion Ha. subst a.
    split; [exact Hcode|]. split; [exact Hg | exact Hd].
Defined.

(** Two states share the first round of the table: the first has bit 7, the
    second bit 6, and character 65 goes to the second. *)
Lemma gen_bitmap_bits_witness :
  exists table states' b',
    gen_bitmap var_bitmaps_ex bitmaps_hex_ex render_code_type_yybm_ex print_hex_ex
      code_array_ex output_default bitmap_ex ""
    = Some (states',
            [code_array_ex "yybm" "unsigned char"
               (map (fun v => if bitmaps_hex_ex (opts (block output_default))
                              then print_hex_ex v (opts (block output_default))
                              else u32 v) table) true])
    /\ length table = 256%nat
    /\ nth_error states' 1 = Some b'
    /\ bm_offset b' = 0%N /\ bm_mask b' = 64%N
    /\ N.land (nth (N.to_nat (bm_offset b' + 65)%N) table 0%N) (bm_mask b') <> 0%N.
Proof.
  destruct (@gen_bitmap_bits var_bitmaps_ex bitmaps_hex_ex render_code_type_yybm_ex
              print_hex_ex code_array_ex output_default bitmap_ex "")
    as (table & states' & Hgen & Hlen & Hk).
  - discriminate.
  - reflexivity.
  - reflexivity.
  - destruct (Hk 1%nat _ eq_refl) as (b' & Hb' & _ & _ & Hoff & Hmask & Hbits).
    exists table, states', b'.
    split; [exact Hgen|]. split; [exact Hlen|]. split; [exact Hb'|].
    split; [exact Hoff|]. split; [exact Hmask|].
    apply Hbits; reflexivity.
Defined.

(** Two conditions in goto/label mode: the entries carry the positions 0 and
    1, with the separator between them. *)
Lemma gen_cond_enum_format_witness :
  gen_cond_enum argsubst_ex (code_fmt COND_ENUM fmt_text) fmt_text opts_code
    [mk_cond "a" 0; mk_cond "b" 5]
  = Some (code_raw ("a = 0, b = 1" +:+ newline)).
Proof.
  assert (Hne : [mk_cond "a" 0; mk_cond "b" 5] <> []) by discriminate.
  exact (@gen_cond_enum_format argsubst_ex (code_fmt COND_ENUM fmt_text) fmt_text opts_code
           [mk_cond "a" 0; mk_cond "b" 5] "@@{cond} = @@{num}" eq_refl eq_refl Hne).
Defined.

(** The rule of condition [c1] after a peek statement: the peek statement
    stays in front. *)
Lemma emitters_append_only_witness :
  exists e,
    [code_peek; code_stmt "YYSETCONDITION(yycc2)"; code_text "return 1;"] = [code_peek] ++ e.
Proof.
  assert (Ht : target (opts (block output_default)) <> Target_SKELETON) by discriminate.
  destruct (@emitters_append_only heap_ex argsubst_ex buf_label_ex iscopy_ex isadd_ex
              isset_ex (fallback_ex 1%nat TCID0) skeleton_ex output_default [code_peek]
              [code_peek; code_stmt "YYSETCONDITION(yycc2)"; code_text "return 1;"] dfa_c1)
    as (_ & _ & _ & _ & H).
  exact (H 0%N Ht eq_refl).
Defined.

(** An accept table of two rows: the restore of the cursor, then a test of
    [yyaccept] that runs the jump of row 1 for the value 1. *)
Lemma emit_accept_rows_witness :
  exists tree leaf,
    @emit_accept heap_ex argsubst_ex buf_label_ex iscopy_ex isadd_ex isset_ex
      (fallback_ex 1%nat TCID0) var_accept_ex api_restore_ex nested_ifs_ex computed_gotos_ex
      computed_gotos_threshold_ex var_computed_gotos_table_ex render_code_type_yytarget_ex
      CodeCase_ex code_case_default_ex code_case_number_ex code_switch_ex
      code_block_wrapped_ex code_array_ex output_default [] dfa_ex
      [{| acc_state := 1%nat; acc_tags := TCID0 |}; {| acc_state := 2%nat; acc_tags := TCID0 |}]
    = Some ([] ++ [code_assign "YYCURSOR" "YYMARKER" None] ++ tree)
    /\ gen_goto heap_ex argsubst_ex buf_label_ex iscopy_ex isadd_ex isset_ex
         (fallback_ex 1%nat TCID0) output_default dfa_ex [] None
         (accept_jump {| acc_state := 2%nat; acc_tags := TCID0 |}) = Some leaf
    /\ dispatch "yyaccept" 1%N tree = leaf.
Proof.
  destruct (@emit_accept_rows heap_ex argsubst_ex buf_label_ex iscopy_ex isadd_ex isset_ex
              (fallback_ex 1%nat TCID0) var_accept_ex api_restore_ex nested_ifs_ex
              computed_gotos_ex computed_gotos_threshold_ex var_computed_gotos_table_ex
              render_code_type_yytarget_ex CodeCase_ex code_case_default_ex
              code_case_number_ex code_switch_ex code_block_wrapped_ex code_array_ex
              output_default [] dfa_ex
              [{| acc_state := 1%nat; acc_tags := TCID0 |};
               {| acc_state := 2%nat; acc_tags := TCID0 |}])
    as (_ & _ & _ & H).
  destruct H as [tree [Ht Hd]]; [discriminate | reflexivity | reflexivity |].
  destruct (Hd 1%N) as [a [leaf [Ha [Hg Hl]]]]; [reflexivity|].
  simpl in Ha. inversion Ha. subst a.
  exists tree, leaf. split; [exact Ht|]. split; [exact Hg | exact Hl].
Defined.

(** State 0 of the arena is a MATCH state with two spans: its code at entry
    has the peek, after the skip and the fill. *)
Lemma emit_action_peek_witness :
  omit_peek heap_ex (heap_ex 0%nat) = false
  /\ @emit_action heap_ex argsubst_ex buf_label_ex iscopy_ex isadd_ex isset_ex
       (fallback_ex 1%nat TCID0) skeleton_ex var_accept_ex var_char_ex api_restore_ex
       api_debug_ex debug_ex eager_skip_ex nested_ifs_ex computed_gotos_ex
       computed_gotos_threshold_ex var_computed_gotos_table_ex render_code_type_yytarget_ex
       accepts_ex initial_label_ex NOSAVE_ex CodeCase_ex code_case_default_ex
       code_case_number_ex code_switch_ex code_block_wrapped_ex code_array_ex
       output_default dfa_ex (heap_ex 0%nat) []
     = Some [code_skip;
             code_if_then_else "(YYLIMIT - YYCURSOR) < 3" [code_stmt "YYFILL(3)"] None;
             code_slabel "yyFillLabel0"; code_peek]
  /\ In code_peek
       [code_skip;
        code_if_then_else "(YYLIMIT - YYCURSOR) < 3" [code_stmt "YYFILL(3)"] None;
        code_slabel "yyFillLabel0"; code_peek].
Proof.
  split; [reflexivity|]. split; [reflexivity|].
  destruct (@emit_action_peek heap_ex argsubst_ex buf_label_ex iscopy_ex isadd_ex isset_ex
              (fallback_ex 1%nat TCID0) skeleton_ex var_accept_ex var_char_ex api_restore_ex
              api_debug_ex debug_ex eager_skip_ex nested_ifs_ex computed_gotos_ex
              computed_gotos_threshold_ex var_computed_gotos_table_ex render_code_type_yytarget_ex
              accepts_ex initial_label_ex NOSAVE_ex CodeCase_ex code_case_default_ex
              code_case_number_ex code_switch_ex code_block_wrapped_ex code_array_ex
              output_default dfa_ex (heap_ex 0%nat) [] (or_introl eq_refl))
    as [_ [H _]].
  destruct (H [code_skip;
               code_if_then_else "(YYLIMIT - YYCURSOR) < 3" [code_stmt "YYFILL(3)"] None;
               code_slabel "yyFillLabel0"; code_peek] eq_refl)
    as [before [after [Hout [_ [_ Hiff]]]]].
  rewrite Hout. apply Hiff. reflexivity.
Defined.

(** C1, as stated, fails: state 1 of the arena is a RULE state, which
    [omit_peek] does not omit, and its code at entry is the code of its rule,
    without a peek. *)
Lemma emit_action_rule_counterexample :
  kind (action (heap_ex 1%nat)) = Action.RULE
  /\ omit_peek heap_ex (heap_ex 1%nat) = false
  /\ @emit_action heap_ex argsubst_ex buf_label_ex iscopy_ex isadd_ex isset_ex
       (fallback_ex 1%nat TCID0) skeleton_ex var_accept_ex var_char_ex api_restore_ex
       api_debug_ex debug_ex eager_skip_ex nested_ifs_ex computed_gotos_ex
       computed_gotos_threshold_ex var_computed_gotos_table_ex render_code_type_yytarget_ex
       accepts_ex initial_label_ex NOSAVE_ex CodeCase_ex code_case_default_ex
       code_case_number_ex code_switch_ex code_block_wrapped_ex code_array_ex
       output_default dfa_c1 (heap_ex 1%nat) []
     = Some [code_stmt "YYSETCONDITION(yycc2)"; code_text "return 1;"]
  /\ ~ (In code_peek [code_stmt "YYSETCONDITION(yycc2)"; code_text "return 1;"]
        <-> omit_peek heap_ex (heap_ex 1%nat) = false).
Proof.
  split; [reflexivity|]. split; [reflexivity|]. split; [reflexivity|].
  intros [_ H]. destruct (H eq_refl) as [Hp | [Hp | []]]; discriminate Hp.
Qed.

(** The fill at the entry of state 0 of the arena, which needs three
    characters. *)
Lemma emit_action_fill_witness :
  @emit_action heap_ex argsubst_ex buf_label_ex iscopy_ex isadd_ex isset_ex
       (fallback_ex 1%nat TCID0) skeleton_ex var_accept_ex var_char_ex api_restore_ex
       api_debug_ex debug_ex eager_skip_ex nested_ifs_ex computed_gotos_ex
       computed_gotos_threshold_ex var_computed_gotos_table_ex render_code_type_yytarget_ex
       accepts_ex initial_label_ex NOSAVE_ex CodeCase_ex code_case_default_ex
       code_case_number_ex code_switch_ex code_block_wrapped_ex code_array_ex
       output_default dfa_ex (heap_ex 0%nat) []
  = Some [code_skip;
          code_if_then_else "(YYLIMIT - YYCURSOR) < 3" [code_stmt "YYFILL(3)"] None;
          code_slabel "yyFillLabel0"; code_peek]
  /\ exists F fillcode,
       [code_skip;
        code_if_then_else "(YYLIMIT - YYCURSOR) < 3" [code_stmt "YYFILL(3)"] None;
        code_slabel "yyFillLabel0"; code_peek]
       = [] ++ [] ++ [code_skip] ++ [] ++ F ++ [code_peek]
       /\ F = fillcode ++ [] ++ [code_slabel "yyFillLabel0"]
       /\ fillcode
          = [code_if_then_else "(YYLIMIT - YYCURSOR) < 3" [code_stmt "YYFILL(3)"] None].
Proof.
  split; [reflexivity|].
  destruct (@emit_action_fill heap_ex argsubst_ex buf_label_ex iscopy_ex isadd_ex isset_ex
              (fallback_ex 1%nat TCID0) skeleton_ex var_accept_ex var_char_ex api_restore_ex
              api_debug_ex debug_ex eager_skip_ex nested_ifs_ex computed_gotos_ex
              computed_gotos_threshold_ex var_computed_gotos_table_ex render_code_type_yytarget_ex
              accepts_ex initial_label_ex NOSAVE_ex CodeCase_ex code_case_default_ex
              code_case_number_ex code_switch_ex code_block_wrapped_ex code_array_ex
              output_default dfa_ex (heap_ex 0%nat) []) as [H _].
  destruct (H (or_introl eq_refl)
              [code_skip;
               code_if_then_else "(YYLIMIT - YYCURSOR) < 3" [code_stmt "YYFILL(3)"] None;
               code_slabel "yyFillLabel0"; code_peek] eq_refl)
    as [F [[fillcode [HF [Hreq _]]] Hout]].
  destruct Hreq as [st [Hst Hfill]]; [repeat split; reflexivity|].
  simpl in Hst. subst st.
  exists F, fillcode. split; [exact Hout|]. split; [exact HF | exact Hfill].
Defined.

(** C2, as stated, fails: the MOVE state of the arena is not an end state and
    needs two characters, YYFILL is enabled and there is no end-of-input
    rule, and the state has no code at entry, so no fill. *)
Lemma emit_action_move_counterexample :
  kind (action (heap_ex 3%nat)) = Action.MOVE
  /\ fill_enable (opts (block output_default)) = true
  /\ endstate heap_ex (heap_ex 3%nat) = Some false
  /\ fill_eof (opts (block output_default)) = NOEOF
  /\ (0 < fill (heap_ex 3%nat))%N
  /\ @emit_action heap_ex argsubst_ex buf_label_ex iscopy_ex isadd_ex isset_ex
       (fallback_ex 1%nat TCID0) skeleton_ex var_accept_ex var_char_ex api_restore_ex
       api_debug_ex debug_ex eager_skip_ex nested_ifs_ex computed_gotos_ex
       computed_gotos_threshold_ex var_computed_gotos_table_ex render_code_type_yytarget_ex
       accepts_ex initial_label_ex NOSAVE_ex CodeCase_ex code_case_default_ex
       code_case_number_ex code_switch_ex code_block_wrapped_ex code_array_ex
       output_default dfa_ex (heap_ex 3%nat) [] = Some [].
Proof. repeat split; reflexivity. Qed.

(** State 0 of the arena, a MATCH state with two spans: skip, fill with its
    label, and the peek last. *)
Lemma emit_action_entry_witness :
  exists out F,
    @emit_action heap_ex argsubst_ex buf_label_ex iscopy_ex isadd_ex isset_ex
      (fallback_ex 1%nat TCID0) skeleton_ex var_accept_ex var_char_ex api_restore_ex
      api_debug_ex debug_ex eager_skip_ex nested_ifs_ex computed_gotos_ex
      computed_gotos_threshold_ex var_computed_gotos_table_ex render_code_type_yytarget_ex
      accepts_ex initial_label_ex NOSAVE_ex CodeCase_ex code_case_default_ex
      code_case_number_ex code_switch_ex code_block_wrapped_ex code_array_ex
      output_default dfa_ex (heap_ex 0%nat) [] = Some out
    /\ ~ In code_peek F
    /\ out = [] ++ [] ++ [code_skip] ++ [] ++ F ++ [code_peek].
Proof.
  destruct (@emit_action_entry heap_ex argsubst_ex buf_label_ex iscopy_ex isadd_ex isset_ex
              (fallback_ex 1%nat TCID0) skeleton_ex var_accept_ex var_char_ex api_restore_ex
              api_debug_ex debug_ex eager_skip_ex nested_ifs_ex computed_gotos_ex
              computed_gotos_threshold_ex var_computed_gotos_table_ex
              render_code_type_yytarget_ex accepts_ex initial_label_ex NOSAVE_ex CodeCase_ex
              code_case_default_ex code_case_number_ex code_switch_ex code_block_wrapped_ex
              code_array_ex output_default dfa_ex
              (heap_ex 0%nat) []) as [_ [H _]].
  destruct (H (or_introl eq_refl) _ eq_refl) as [F [_ [Hno Hout]]].
  eexists. exists F. split; [reflexivity|]. split; [exact Hno | exact Hout].
Defined.
